(** * Triplet mining and triplet loss of pyannote.audio

    Shallow embedding of [pyannote/audio/embedding/approaches/triplet_loss.py]
    (class [TripletLoss]): the constructor, the four triplet sampling
    policies, the loss transform and the batch loss, followed by the
    properties stated for them.

    Conventions of the embedding:
    - distances (torch and numpy floating point values) are exact rationals
      [Q]; only their order and the field operations are used, rounding and
      NaN are outside the model;
    - a Python exception is a [Raise] result of the [result] monad;
    - the three parallel index lists [anchors, positives, negatives] built by
      the samplers are a triple of lists, appended to in lock step. *)

From Stdlib Require Import QArith Lqa.
From Stdlib Require Import PrimFloat.
From Stdlib Require Uint63 SpecFloat FloatOps FloatAxioms.
From stdpp Require Import base decidable option list numbers strings sorting.
From stdpp Require Import pretty.

Local Open Scope nat_scope.

(** ** Exceptions *)

Inductive exn : Type :=
  | ValueError
  | IndexError
  | AttributeError
  | UnboundLocalError.

Inductive result (A : Type) : Type :=
  | Ok (a : A)
  | Raise (e : exn).
Arguments Ok {A} a.
Arguments Raise {A} e.

#[global] Instance result_ret : MRet result := λ A a, Ok a.
#[global] Instance result_bind : MBind result := λ A B f m,
  match m with
  | Ok a => f a
  | Raise e => Raise e
  end.

(** [for x in xs: s = body(s, x)] where the body may raise. *)
Fixpoint for_each {S X : Type} (body : S → X → result S) (s : S) (xs : list X)
  : result S :=
  match xs with
  | [] => Ok s
  | x :: xs' => s' ← body s x; for_each body s' xs'
  end.

(** ** Python, numpy and scipy primitives *)

(** [enumerate(y)] *)
Definition enumerate {A} (y : list A) : list (nat * A) := imap pair y.

(** [l[i]] for a non-negative index. *)
Definition item {A} (l : list A) (i : nat) : result A :=
  match l !! i with
  | Some x => Ok x
  | None => Raise IndexError
  end.

(** [m[i, j]] on a two-dimensional array. *)
Definition item2 {A} (m : list (list A)) (i j : nat) : result A :=
  r ← item m i; item r j.

(** [d[idx]] for a list (or array) of indices [idx]. *)
Fixpoint gather {A} (d : list A) (idx : list nat) : result (list A) :=
  match idx with
  | [] => Ok []
  | i :: idx' => x ← item d i; xs ← gather d idx'; Ok (x :: xs)
  end.

(** [np.where(mask)[0]]: the positions where the mask is true, ascending. *)
Definition np_where (mask : list bool) : list nat :=
  (filter (λ ib, ib.2 = true) (enumerate mask)).*1.

(** [x < y] on distances. *)
Definition Qltb (x y : Q) : bool := negb (Qle_bool y x).

#[global] Instance Qle_decision (x y : Q) : Decision (x <= y)%Q :=
  match Qlt_le_dec y x with
  | left Hlt => right (Qlt_not_le _ _ Hlt)
  | right Hle => left Hle
  end.

(** The scan behind [np.argmax] and [np.argmin]: the running best is only
    replaced by a strictly better value, so the first occurrence wins. *)
Fixpoint argbest (better : Q → Q → bool) (best_i : nat) (best : Q) (i : nat)
    (l : list Q) : nat :=
  match l with
  | [] => best_i
  | x :: l' =>
      if better x best then argbest better i x (S i) l'
      else argbest better best_i best (S i) l'
  end.

Definition np_argmax (l : list Q) : result nat :=
  match l with
  | [] => Raise ValueError (* attempt to get argmax of an empty sequence *)
  | x :: l' => Ok (argbest (λ x best, Qltb best x) 0 x 1 l')
  end.

Definition np_argmin (l : list Q) : result nat :=
  match l with
  | [] => Raise ValueError (* attempt to get argmin of an empty sequence *)
  | x :: l' => Ok (argbest (λ x best, Qltb x best) 0 x 1 l')
  end.

(** Number of entries of the condensed distance vector of [n] items. *)
Definition condensed_length (n : nat) : nat := n * (n - 1) / 2.

(** Position of the pair [i < j < m] in a condensed vector, as documented by
    [scipy.spatial.distance.squareform]. *)
Definition condensed_index (m i j : nat) : nat :=
  m * i + j - ((i + 2) * (i + 1)) / 2.

(** Entry [(i, j)] of the square form of the condensed vector [v] of [m]
    items: zero diagonal, symmetric. *)
Definition square_entry (m : nat) (v : list Q) (i j : nat) : Q :=
  if i =? j then 0%Q
  else default 0%Q (v !! condensed_index m (i `min` j) (i `max` j)).

(** The square form of the condensed vector [v] of [m] items. *)
Definition square (m : nat) (v : list Q) : list (list Q) :=
  (λ i, square_entry m v i <$> seq 0 m) <$> seq 0 m.

(** [scipy.spatial.distance.squareform] on a vector: the empty vector gives
    the 1x1 zero matrix, a vector whose length is no binomial coefficient
    raises, any other gives the [d]x[d] matrix with [d = ceil (sqrt (2 s))]. *)
Definition squareform (v : list Q) : result (list (list Q)) :=
  let s := length v in
  if s =? 0 then Ok [[0%Q]]
  else
    let d := Nat.sqrt_up (s * 2) in
    if negb (d * (d - 1) =? s * 2) then Raise ValueError
    else Ok (square d v).

(** [tensor[k]] for a possibly negative integer index. *)
Definition tensor_item (v : list Q) (k : Z) : result Q :=
  let len := Z.of_nat (length v) in
  if bool_decide (0 ≤ k < len)%Z then item v (Z.to_nat k)
  else if bool_decide (- len ≤ k < 0)%Z then item v (Z.to_nat (len + k))
  else Raise IndexError.

(** [tensor[ks]] for an array of integer indices. *)
Fixpoint tensor_gather (v : list Q) (ks : list Z) : result (list Q) :=
  match ks with
  | [] => Ok []
  | k :: ks' => x ← tensor_item v k; xs ← tensor_gather v ks'; Ok (x :: xs)
  end.

(** [torch.clamp(x, min=lo)] on one entry. *)
Definition clamp_min (lo x : Q) : Q := if Qltb x lo then lo else x.

(** [sum] of a list of rationals. *)
Definition Qsum (l : list Q) : Q := foldr Qplus 0%Q l.

(** [torch.mean]: the mean of an empty tensor is [nan], here [None]. *)
Definition torch_mean (l : list Q) : option Q :=
  match l with
  | [] => None
  | _ => Some (Qsum l / inject_Z (Z.of_nat (length l)))%Q
  end.

(** Modelled from the spec: [to_condensed] of [pyannote.core.utils.distance]
    is imported by the module and is not part of the sources. For [i < j]
    the offset is [n·i − i·(i+1)/2 + j − i − 1], the two indices are swapped
    when given in the other order, and a pair with [i = j] is refused. It is
    applied to whole index lists, pairwise. *)
Definition condensed_offset (n i j : Z) : Z :=
  let (i, j) := (i `min` j, i `max` j)%Z in
  (n * i - i * (i + 1) / 2 + j - i - 1)%Z.

Definition to_condensed (n : nat) (i j : list nat) : result (list Z) :=
  if existsb (λ ij, ij.1 =? ij.2) (zip i j) then Raise ValueError
  else Ok (zip_with (λ i j, condensed_offset (Z.of_nat n) (Z.of_nat i) (Z.of_nat j)) i j).

(** A pair of distinct indices of a batch of [n] items. *)
Definition distinct_pair (n : nat) (ij : nat * nat) : Prop :=
  ij.1 ≠ ij.2 ∧ ij.1 < n ∧ ij.2 < n.

(** The raw loss of a triplet under the square distance [d]:
    d(anchor, positive) - d(anchor, negative). *)
Definition triplet_delta (d : nat → nat → Q) (t : nat * nat * nat) : Q :=
  (d t.1.1 t.1.2 - d t.1.1 t.2)%Q.

(** ** The three index lists *)

Definition samples : Type := list nat * list nat * list nat.

(** [anchors.append(anchor); positives.append(positive);
     negatives.append(negative)] *)
Definition emit (acc : samples) (anchor positive negative : nat) : samples :=
  let '(anchors, positives, negatives) := acc in
  (anchors ++ [anchor], positives ++ [positive], negatives ++ [negative]).

(** The lists read back as triplets, and a list of triplets stored as three
    parallel lists. *)
Definition triplets (s : samples) : list (nat * nat * nat) :=
  let '(anchors, positives, negatives) := s in
  zip (zip anchors positives) negatives.

Definition columns (ts : list (nat * nat * nat)) : samples :=
  (ts.*1.*1, ts.*1.*2, ts.*2).

(** ** Sampling policies *)

Section Sampling.
Context {L : Type} `{EqDecision L}.

(** [TripletLoss.batch_easy] *)
Definition batch_easy (y : list L) (distances : list Q) : result samples :=
  distances ← squareform distances;
  for_each (λ acc '(anchor, y_anchor),
    for_each (λ acc '(positive, y_positive),
      (* if same embedding or different labels, skip *)
      if bool_decide (anchor = positive) || bool_decide (y_anchor ≠ y_positive)
      then Ok acc
      else
        d ← item2 distances anchor positive;
        for_each (λ acc '(negative, y_negative),
          if bool_decide (y_negative = y_anchor) then Ok acc
          else
            d_negative ← item2 distances anchor negative;
            if Qltb d_negative d then Ok acc
            else Ok (emit acc anchor positive negative))
        acc (enumerate y))
    acc (enumerate y))
  ([], [], []) (enumerate y).

(** [np.where(y == y_anchor)[0]] and [np.where(y != y_anchor)[0]] *)
Definition where_eq (y : list L) (y_anchor : L) : list nat :=
  np_where ((λ x, bool_decide (x = y_anchor)) <$> y).
Definition where_ne (y : list L) (y_anchor : L) : list nat :=
  np_where ((λ x, bool_decide (x ≠ y_anchor)) <$> y).

(** [TripletLoss.batch_hard] *)
Definition batch_hard (y : list L) (distances : list Q) : result samples :=
  distances ← squareform distances;
  for_each (λ acc '(anchor, y_anchor),
    d ← item distances anchor;
    (* hardest positive *)
    let pos := where_eq y y_anchor in
    let pos := filter (λ p, p ≠ anchor) pos in
    d_pos ← gather d pos;
    k ← np_argmax d_pos;
    positive ← item pos k;
    (* hardest negative *)
    let neg := where_ne y y_anchor in
    d_neg ← gather d neg;
    k ← np_argmin d_neg;
    negative ← item neg k;
    Ok (emit acc anchor positive negative))
  ([], [], []) (enumerate y).

(** [TripletLoss.batch_negative] *)
Definition batch_negative (y : list L) (distances : list Q) : result samples :=
  distances ← squareform distances;
  for_each (λ acc '(anchor, y_anchor),
    (* hardest negative *)
    d ← item distances anchor;
    let neg := where_ne y y_anchor in
    d_neg ← gather d neg;
    k ← np_argmin d_neg;
    negative ← item neg k;
    Ok (foldl (λ acc positive,
          if bool_decide (positive = anchor) then acc
          else emit acc anchor positive negative)
        acc (where_eq y y_anchor)))
  ([], [], []) (enumerate y).

(** [TripletLoss.batch_all]: the distances are not looked at. *)
Definition batch_all (y : list L) (distances : list Q) : result samples :=
  Ok (foldl (λ acc '(anchor, y_anchor),
        foldl (λ acc '(positive, y_positive),
          (* if same embedding or different labels, skip *)
          if bool_decide (anchor = positive) || bool_decide (y_anchor ≠ y_positive)
          then acc
          else
            foldl (λ acc '(negative, y_negative),
              if bool_decide (y_negative = y_anchor) then acc
              else emit acc anchor positive negative)
            acc (enumerate y))
        acc (enumerate y))
      ([], [], []) (enumerate y)).

(** [getattr(self, 'batch_{0}'.format(self.sampling))]; the constructor
    admits the four policy names only. *)
Definition sampler (sampling : string)
  : result (list L → list Q → result samples) :=
  if bool_decide (sampling = "all"%string) then Ok batch_all
  else if bool_decide (sampling = "hard"%string) then Ok batch_hard
  else if bool_decide (sampling = "negative"%string) then Ok batch_negative
  else if bool_decide (sampling = "easy"%string) then Ok batch_easy
  else Raise AttributeError.

(** *** The policies as the specification words them *)

(** Every other index with the same label as index [a]. *)
Definition partners (y : list L) (a : nat) : list nat :=
  (filter (λ p, p.1 ≠ a ∧ Some p.2 = y !! a) (enumerate y)).*1.

(** Every index with a label different from the label of index [a]. *)
Definition others (y : list L) (a : nat) : list nat :=
  (filter (λ n, Some n.2 ≠ y !! a) (enumerate y)).*1.

(** The [all] policy: for every anchor, every partner combined with every
    index of a different label, in this nesting order. *)
Definition spec_all (y : list L) : list (nat * nat * nat) :=
  a ← seq 0 (length y); p ← partners y a; n ← others y a; [(a, p, n)].

(** The [easy] policy: as [all], keeping the negatives at least as far
    from the anchor as the positive is; [d] is the square distance. *)
Definition spec_easy (y : list L) (d : nat → nat → Q)
  : list (nat * nat * nat) :=
  a ← seq 0 (length y); p ← partners y a;
  n ← filter (λ n, (d a p <= d a n)%Q) (others y a); [(a, p, n)].

(** [p] is the partner of [a] farthest from it, the first one in batch
    order among equally far ones. *)
Definition hardest_positive (y : list L) (d : nat → nat → Q) (a p : nat)
  : Prop :=
  p ∈ partners y a ∧
  (∀ q, q ∈ partners y a → (d a q <= d a p)%Q) ∧
  (∀ q, q ∈ partners y a → q < p → (d a q < d a p)%Q).

(** [n] is the index of another label nearest to [a], the first one in
    batch order among equally near ones. *)
Definition hardest_negative (y : list L) (d : nat → nat → Q) (a n : nat)
  : Prop :=
  n ∈ others y a ∧
  (∀ q, q ∈ others y a → (d a n <= d a q)%Q) ∧
  (∀ q, q ∈ others y a → q < n → (d a n < d a q)%Q).

(** The triplet invariant. *)
Definition triplet_ok (y : list L) (t : nat * nat * nat) : Prop :=
  let '(anchor, positive, negative) := t in
  ∃ l_anchor l_negative,
    y !! anchor = Some l_anchor ∧ y !! positive = Some l_anchor ∧
    y !! negative = Some l_negative ∧ l_anchor ≠ l_negative ∧
    anchor ≠ positive.

(** What a sampler has collected: three lists of one length whose
    triplets satisfy the invariant. *)
Definition sound (y : list L) (s : samples) : Prop :=
  ∃ ts, s = columns ts ∧ Forall (triplet_ok y) ts.

(** The candidate of a list of indices chosen by [np.argmax] or
    [np.argmin] (the argument [arg]) on its distances. *)
Definition pick (arg : list Q → result nat) (d : nat → Q)
    (candidates : list nat) : nat :=
  match arg (d <$> candidates) with
  | Ok k => default 0 (candidates !! k)
  | Raise _ => 0
  end.

End Sampling.

(** ** The [TripletLoss] object *)

(** [np.pi], the binary64 number nearest to pi. *)
Definition np_pi : Q := 884279719003555 # 281474976710656.

(** Modelled from the spec: the [max_distance] property is inherited from
    [EmbeddingApproach] (module [.base], not part of the sources). It is the
    constant [D] fixed per metric, the upper end of the range of the
    distance: 2 for cosine, pi for angular, 2 for euclidean (the class
    documentation: "D=2 for euclidean distance"); an unrecognized metric is
    refused. *)
Definition max_distance (metric : string) : result Q :=
  if bool_decide (metric = "cosine"%string) then Ok 2%Q
  else if bool_decide (metric = "angular"%string) then Ok np_pi
  else if bool_decide (metric = "euclidean"%string) then Ok 2%Q
  else Raise ValueError.

(** The attributes the mining and the loss read; the remaining constructor
    arguments ([duration], [per_label], [parallel], ...) are stored as given
    and only handed to the batch generator. *)
Record TripletLoss : Type := {
  metric : string;
  margin : Q;
  margin_ : Q;
  clamp : string;
  sampling : string
}.

Definition clamp_names : list string := ["positive"; "sigmoid"; "softmargin"]%string.
Definition sampling_names : list string := ["all"; "hard"; "negative"; "easy"]%string.
Definition metric_names : list string := ["euclidean"; "cosine"; "angular"]%string.

(** [TripletLoss.__init__] *)
Definition init (metric : string) (margin : Q) (clamp sampling : string)
  : result TripletLoss :=
  D ← max_distance metric;
  let margin_ := (margin * D)%Q in
  if negb (bool_decide (clamp ∈ clamp_names)) then Raise ValueError
  else if negb (bool_decide (sampling ∈ sampling_names)) then Raise ValueError
  else Ok {| metric := metric; margin := margin; margin_ := margin_;
             clamp := clamp; sampling := sampling |}.

(** ** Loss transform and batch loss *)

(** [int(.5 * (1 + np.sqrt(1 + 8 * m)))] in exact arithmetic: the integer
    part of half of one plus the square root; with [s] the integer part of
    the root this is [(1 + s) / 2]. On a condensed length, where
    [1 + 8 * m] is a square, it is the value numpy computes in binary64
    ([estimate_n_binary64] below); on other lengths the two can differ, as
    they do for m = 9007199321849855. *)
Definition estimate_n (m : nat) : nat := (1 + Nat.sqrt (1 + 8 * m)) / 2.

(** The same expression evaluated in binary64 arithmetic, as numpy does:
    the integer [1 + 8 * m] is converted to a float, the root, the sum and
    the product are rounded, and [int] drops the fractional part. The
    integer converted is a 64-bit one: [1 + 8 * m] is to be below 2^63. *)
Definition float_to_Z (x : PrimFloat.float) : option Z :=
  match FloatOps.Prim2SF x with
  | SpecFloat.S754_zero _ => Some 0%Z
  | SpecFloat.S754_finite s m e =>
      let v := match e with
               | Z0 => Zpos m
               | Zpos k => Z.shiftl (Zpos m) (Zpos k)
               | Zneg k => Z.shiftr (Zpos m) (Zpos k)
               end in
      Some (if s then (- v)%Z else v)
  | _ => None
  end.

Definition estimate_n_binary64 (m : Z) : option Z :=
  float_to_Z
    (PrimFloat.mul 0.5%float
       (PrimFloat.add 1%float
          (PrimFloat.sqrt (PrimFloat.of_uint63 (Uint63.of_Z (1 + 8 * m)))))).

Section Loss.
(** [torch.log1p(torch.exp(x))] and [torch.sigmoid], which have no rational
    values, are left uninterpreted. *)
Variable log1p_exp : Q → Q.
Variable sigmoid : Q → Q.

(** The clamping step of [triplet_loss]: the [if / elif] on [self.clamp],
    applied to the whole tensor of deltas. No branch binds [loss] for
    another name, which the constructor excludes. *)
Definition clamp_triplet_loss (self : TripletLoss) (delta : list Q)
  : result (list Q) :=
  if bool_decide (clamp self = "positive"%string) then
    Ok (clamp_min 0 <$> ((λ x, x + margin_ self)%Q <$> delta))
  else if bool_decide (clamp self = "softmargin"%string) then
    Ok (log1p_exp <$> delta)
  else if bool_decide (clamp self = "sigmoid"%string) then
    Ok (sigmoid <$> ((λ x, 10 * (x + margin_ self))%Q <$> delta))
  else Raise UnboundLocalError.

(** [TripletLoss.triplet_loss] with [return_delta=True]; without it only
    the first component is returned. *)
Definition triplet_loss (self : TripletLoss) (distances : list Q)
    (anchors positives negatives : list nat)
  : result (list Q * list Q * list Z * list Z) :=
  (* estimate total number of embeddings from pdist shape *)
  let n := estimate_n (length distances) in
  (* convert indices from squared matrix to condensed matrix referential *)
  pos ← to_condensed n anchors positives;
  neg ← to_condensed n anchors negatives;
  (* compute raw triplet loss (no margin, no clamping) *)
  d_pos ← tensor_gather distances pos;
  d_neg ← tensor_gather distances neg;
  let delta := zip_with Qminus d_pos d_neg in
  (* clamp triplet loss *)
  loss ← clamp_triplet_loss self delta;
  Ok (loss, delta, pos, neg).

Context {L : Type} `{EqDecision L}.

(** The embedding network and the pairwise distance of the base class are
    collaborators of the loss: [forward] maps a batch to its embeddings,
    [pdist] the embeddings to the condensed distances. *)
Variables Input Embeddings : Type.

Record Batch : Type := { batch_X : Input; batch_y : list L }.

Variable forward : Batch → Embeddings.
Variable pdist : Embeddings → list Q.

(** [TripletLoss.batch_loss]; the result is the value stored under
    ['loss']. *)
Definition batch_loss (self : TripletLoss) (batch : Batch)
  : result (option Q) :=
  let fX := forward batch in
  (* pre-compute pairwise distances *)
  let distances := pdist fX in
  (* sample triplets *)
  triplets ← sampler (sampling self);
  '(anchors, positives, negatives) ← triplets (batch_y batch) distances;
  (* compute loss for each triplet *)
  '(losses, deltas, _, _) ←
    triplet_loss self distances anchors positives negatives;
  (* average over all triplets *)
  Ok (torch_mean losses).

End Loss.

Arguments Batch : clear implicits.
Arguments Build_Batch {L Input} batch_X batch_y.
Arguments batch_X {L Input} b.
Arguments batch_y {L Input} b.
Arguments batch_loss log1p_exp sigmoid {L _ Input Embeddings}
  forward pdist self batch.

(** ** Sample batches *)

(** Labels [A, A, B, B] and the condensed distances d(0,1), d(0,2), d(0,3),
    d(1,2), d(1,3), d(2,3). *)
Definition scenario_y : list string := ["A"; "A"; "B"; "B"]%string.
Definition scenario_distances : list Q :=
  [1 # 10; 9 # 10; 7 # 10; 8 # 10; 6 # 10; 2 # 10]%Q.

(** A batch of one label, and a batch with a tie: items 1 and 2 are equally
    far from item 0. *)
Definition single_label_y : list string := ["A"; "A"]%string.
Definition single_label_distances : list Q := [1 # 10]%Q.
Definition tie_y : list string := ["A"; "A"; "B"]%string.
Definition tie_distances : list Q := [1 # 2; 1 # 2; 1 # 3]%Q.

(** ** Batch composition *)

Section Composition.
Context {L : Type} `{EqDecision L}.

(** Every item of the batch carries the same label. *)
Definition single_label (y : list L) : Prop :=
  ∀ i j li lj, y !! i = Some li → y !! j = Some lj → li = lj.

(** The anchor [a] lacks a same-label partner or an item of another label. *)
Definition degenerate (y : list L) (a : nat) : Prop :=
  partners y a = [] ∨ others y a = [].

(** Number of items of the batch with label [l]. *)
Definition occurrences (y : list L) (l : L) : nat :=
  length (filter (λ x, x = l) y).

End Composition.

(** * Labeling models

    The constructors and the loss selection of the classes [StackedRNN] and
    [ConvRNN] of [pyannote/audio/labeling/models.py]. A torch layer is the
    record of the arguments it is created with. The checks torch makes on
    these arguments (sizes that are zero or negative) are outside the
    model: creating a layer is taken to return, so that the constructors of
    the model raise only the errors the module raises itself, and what is
    proved of a constructed object holds of every object torch lets the
    module construct. [forward], which runs the layers on tensors, is not
    modelled. *)

(** The task constants the module imports from its package; their values
    are not part of the sources. *)
Record task_constants : Type := {
  TASK_CLASSIFICATION : Z;
  TASK_MULTI_LABEL_CLASSIFICATION : Z;
  TASK_REGRESSION : Z
}.

Definition task_types (T : task_constants) : list Z :=
  [TASK_CLASSIFICATION T; TASK_MULTI_LABEL_CLASSIFICATION T;
   TASK_REGRESSION T].

(** The layers, with the arguments that vary; the recurrent layers are
    created with [batch_first=True], the linear ones with [bias=True]. *)
Inductive layer : Type :=
  | LSTM (input_size hidden_size : Z) (bidirectional : bool)
  | GRU (input_size hidden_size : Z) (bidirectional : bool)
  | Linear (in_features out_features : Z)
  | Conv2d (in_channels out_channels : Z) (kernel_size : Z * Z)
  | BatchNorm2d (num_features : Z)
  | ReLU
  | MaxPool2d (kernel_size : Z * Z).

(** The loss functions [get_loss] chooses from. *)
Inductive loss_func : Type :=
  | nll_loss
  | binary_cross_entropy
  | mse_loss.

(** The loop "create list of recurrent layers", the same text in both
    constructors. Its state is the list [recurrent_layers_], the
    [add_module] calls made so far (name and layer) and [input_dim]. *)
Definition recurrent_loop (rnn : string) (bidirectional : bool)
    (recurrent : list Z) (input_dim : Z)
  : result (list layer * list (string * layer) * Z) :=
  for_each (λ '(recurrent_layers_, modules, input_dim) '(i, hidden_dim),
    recurrent_layer ←
      (if bool_decide (rnn = "LSTM"%string) then
         Ok (LSTM input_dim hidden_dim bidirectional)
       else if bool_decide (rnn = "GRU"%string) then
         Ok (GRU input_dim hidden_dim bidirectional)
       else Raise ValueError);
    Ok (recurrent_layers_ ++ [recurrent_layer],
        modules ++ [("recurrent_" +:+ pretty i, recurrent_layer)],
        hidden_dim))
  ([], [], input_dim) (enumerate recurrent).

(** The loop "create list of linear layers", the same text in both
    constructors. *)
Definition linear_loop (linear : list Z) (modules : list (string * layer))
    (input_dim : Z) : list layer * list (string * layer) * Z :=
  foldl (λ '(linear_layers_, modules, input_dim) '(i, hidden_dim),
    let linear_layer := Linear input_dim hidden_dim in
    (linear_layers_ ++ [linear_layer],
     modules ++ [("linear_" +:+ pretty i, linear_layer)],
     hidden_dim))
  ([], modules, input_dim) (enumerate linear).

(** The body of [get_loss], the same text in both classes; [None] is the
    value of a Python function that reaches its end. *)
Definition choose_loss (T : task_constants) (task_type : Z)
  : option loss_func :=
  if bool_decide (task_type = TASK_CLASSIFICATION T) then Some nll_loss
  else if bool_decide (task_type = TASK_MULTI_LABEL_CLASSIFICATION T) then
    Some binary_cross_entropy
  else if bool_decide (task_type = TASK_REGRESSION T) then Some mse_loss
  else None.

Module StackedRNN.

Record t : Type := {
  n_features : Z;
  n_classes : Z;
  task_type : Z;
  instance_normalize : bool;
  rnn : string;
  recurrent : list Z;
  bidirectional : bool;
  linear : list Z;
  num_directions_ : Z;
  recurrent_layers_ : list layer;
  linear_layers_ : list layer;
  final_layer_ : layer;
  added_modules : list (string * layer)
}.

(** [StackedRNN.__init__] *)
Definition init (T : task_constants) (n_features n_classes task_type : Z)
    (instance_normalize : bool) (rnn : string) (recurrent : list Z)
    (bidirectional : bool) (linear : list Z) : result t :=
  if negb (bool_decide (task_type ∈ task_types T)) then Raise ValueError
  else
    let num_directions_ := if bidirectional then 2%Z else 1%Z in
    (* create list of recurrent layers *)
    let input_dim := n_features in
    '(recurrent_layers_, modules, input_dim) ←
      recurrent_loop rnn bidirectional recurrent input_dim;
    (* create list of linear layers *)
    let '(linear_layers_, modules, input_dim) :=
      linear_loop linear modules input_dim in
    (* create final classification layer *)
    let final_layer_ := Linear input_dim n_classes in
    Ok {| n_features := n_features; n_classes := n_classes;
          task_type := task_type; instance_normalize := instance_normalize;
          rnn := rnn; recurrent := recurrent; bidirectional := bidirectional;
          linear := linear; num_directions_ := num_directions_;
          recurrent_layers_ := recurrent_layers_;
          linear_layers_ := linear_layers_; final_layer_ := final_layer_;
          added_modules := modules |}.

(** [StackedRNN.get_loss] *)
Definition get_loss (T : task_constants) (self : t) : option loss_func :=
  choose_loss T (task_type self).

End StackedRNN.

Module ConvRNN.

Record t : Type := {
  n_features : Z;
  n_classes : Z;
  task_type : Z;
  instance_normalize : bool;
  convolutionnal : list Z;
  rnn : string;
  recurrent : list Z;
  bidirectional : bool;
  linear : list Z;
  kernel_size : Z;
  num_directions_ : Z;
  convolutionnal_layer_ : layer;
  batch_norm_ : layer;
  relu_ : layer;
  maxpool_ : layer;
  recurrent_layers_ : list layer;
  linear_layers_ : list layer;
  final_layer_ : layer;
  added_modules : list (string * layer)
}.

(** [ConvRNN.__init__] *)
Definition init (T : task_constants) (n_features n_classes task_type : Z)
    (instance_normalize : bool) (convolutionnal : list Z) (rnn : string)
    (recurrent : list Z) (bidirectional : bool) (linear : list Z)
    (kernel_size : Z) : result t :=
  if negb (bool_decide (task_type ∈ task_types T)) then Raise ValueError
  else
    let num_directions_ := if bidirectional then 2%Z else 1%Z in
    let input_dim := n_features in
    (* create 1D convolutional network *)
    let convolutionnal_layer_ := Conv2d 1 input_dim (kernel_size, 1%Z) in
    let batch_norm_ := BatchNorm2d n_features in
    let relu_ := ReLU in
    let maxpool_ := MaxPool2d (1%Z, (input_dim - kernel_size + 1)%Z) in
    (* create list of recurrent layers *)
    '(recurrent_layers_, modules, input_dim) ←
      recurrent_loop rnn bidirectional recurrent input_dim;
    (* create list of linear layers *)
    let '(linear_layers_, modules, input_dim) :=
      linear_loop linear modules input_dim in
    (* create final classification layer *)
    let final_layer_ := Linear input_dim n_classes in
    Ok {| n_features := n_features; n_classes := n_classes;
          task_type := task_type; instance_normalize := instance_normalize;
          convolutionnal := convolutionnal; rnn := rnn;
          recurrent := recurrent; bidirectional := bidirectional;
          linear := linear; kernel_size := kernel_size;
          num_directions_ := num_directions_;
          convolutionnal_layer_ := convolutionnal_layer_;
          batch_norm_ := batch_norm_; relu_ := relu_; maxpool_ := maxpool_;
          recurrent_layers_ := recurrent_layers_;
          linear_layers_ := linear_layers_; final_layer_ := final_layer_;
          added_modules := modules |}.

(** [ConvRNN.get_loss] *)
Definition get_loss (T : task_constants) (self : t) : option loss_func :=
  choose_loss T (task_type self).

End ConvRNN.

(** The input and output dimension of a recurrent or linear layer. *)
Definition layer_io (l : layer) : option (Z * Z) :=
  match l with
  | LSTM i h _ | GRU i h _ | Linear i h => Some (i, h)
  | _ => None
  end.

(** The recurrent layer class named by [rnn]. *)
Definition is_rnn (rnn : string) (bidirectional : bool) (l : layer) : Prop :=
  match l with
  | LSTM _ _ b => rnn = "LSTM"%string ∧ b = bidirectional
  | GRU _ _ b => rnn = "GRU"%string ∧ b = bidirectional
  | _ => False
  end.

(** Layers created one after the other by [make], each taking the output
    dimension of the one before as its input dimension. *)
Fixpoint chain_layers (make : Z → Z → layer) (input_dim : Z) (dims : list Z)
  : list layer :=
  match dims with
  | [] => []
  | hidden_dim :: dims' =>
      make input_dim hidden_dim :: chain_layers make hidden_dim dims'
  end.

(** The constructor of the recurrent layer class named by [rnn], if any. *)
Definition rnn_class (rnn : string) (bidirectional : bool)
  : option (Z → Z → layer) :=
  if bool_decide (rnn = "LSTM"%string) then
    Some (λ i h, LSTM i h bidirectional)
  else if bool_decide (rnn = "GRU"%string) then
    Some (λ i h, GRU i h bidirectional)
  else None.

(** The value of [input_dim] after a loop over the dimensions [dims]. *)
Definition last_dim (input_dim : Z) (dims : list Z) : Z :=
  foldl (λ _ hidden_dim, hidden_dim) input_dim dims.

(** Task constants for the examples: tasks numbered 0, 1, 2. *)
Definition sample_tasks : task_constants :=
  {| TASK_CLASSIFICATION := 0; TASK_MULTI_LABEL_CLASSIFICATION := 1;
     TASK_REGRESSION := 2 |}.

(** ** Loops that append to the three lists *)

Lemma emit_columns ts a p n :
  emit (columns ts) a p n = columns (ts ++ [(a, p, n)]).
Proof. unfold emit, columns. by rewrite !fmap_app. Qed.

Lemma triplets_columns ts : triplets (columns ts) = ts.
Proof.
  unfold triplets, columns. induction ts as [|[[a p] n] ts IH]; [done|].
  simpl. f_equal. exact IH.
Qed.

(** A pure loop whose body appends [g x] on every element appends the
    concatenation of the [g x]. *)
Lemma foldl_columns {X} (body : samples → X → samples)
    (g : X → list (nat * nat * nat)) xs :
  (∀ ts x, x ∈ xs → body (columns ts) x = columns (ts ++ g x)) →
  ∀ ts, foldl body (columns ts) xs = columns (ts ++ (xs ≫= g)).
Proof.
  induction xs as [|x xs IH]; intros Hbody ts.
  - simpl. by rewrite app_nil_r.
  - rewrite bind_cons. simpl. rewrite Hbody by left. rewrite IH.
    + by rewrite <-app_assoc.
    + intros ts' x' Hx'. apply Hbody. by right.
Qed.

(** The same for a loop whose body may raise but does not. *)
Lemma for_each_columns {X} (body : samples → X → result samples)
    (g : X → list (nat * nat * nat)) xs :
  (∀ ts x, x ∈ xs → body (columns ts) x = Ok (columns (ts ++ g x))) →
  ∀ ts, for_each body (columns ts) xs = Ok (columns (ts ++ (xs ≫= g))).
Proof.
  induction xs as [|x xs IH]; intros Hbody ts.
  - simpl. by rewrite app_nil_r.
  - rewrite bind_cons. simpl. rewrite Hbody by left. simpl. rewrite IH.
    + by rewrite <-app_assoc.
    + intros ts' x' Hx'. apply Hbody. by right.
Qed.

(** Invariants of loops. *)
Lemma foldl_invariant {S X} (P : S → Prop) (body : S → X → S) xs :
  (∀ s x, x ∈ xs → P s → P (body s x)) →
  ∀ s, P s → P (foldl body s xs).
Proof.
  induction xs as [|x xs IH]; intros Hbody s Hs; [done|]. simpl.
  apply IH.
  - intros s' x' Hx'. apply Hbody. by right.
  - apply Hbody; [by left | done].
Qed.

Lemma for_each_invariant {S X} (P : S → Prop) (body : S → X → result S) xs :
  (∀ s x s', x ∈ xs → P s → body s x = Ok s' → P s') →
  ∀ s s', P s → for_each body s xs = Ok s' → P s'.
Proof.
  induction xs as [|x xs IH]; intros Hbody s s' Hs Hrun; simpl in Hrun.
  - by injection Hrun as <-.
  - destruct (body s x) as [s1|e] eqn:Hstep; [|done]. simpl in Hrun.
    eapply IH; [| |exact Hrun].
    + intros s2 x2 s3 Hx2. apply Hbody. by right.
    + eapply Hbody; [by left | exact Hs | exact Hstep].
Qed.

Lemma bind_filter {A B} (P : A → Prop) `{∀ x, Decision (P x)}
    (f : A → list B) (l : list A) :
  filter P l ≫= f = l ≫= (λ x, if decide (P x) then f x else []).
Proof.
  induction l as [|x l IH]; [done|].
  rewrite filter_cons, bind_cons.
  destruct (decide (P x)); [rewrite bind_cons|]; by rewrite IH.
Qed.

Lemma bind_ext_in {A B} (f g : A → list B) (l : list A) :
  (∀ x, x ∈ l → f x = g x) → l ≫= f = l ≫= g.
Proof.
  induction l as [|x l IH]; intros Hfg; [done|]. rewrite !bind_cons.
  rewrite (Hfg x) by left. f_equal. apply IH. intros; apply Hfg. by right.
Qed.

Lemma bind_fmap {A B C} (f : A → B) (g : B → list C) (l : list A) :
  (f <$> l) ≫= g = l ≫= (g ∘ f).
Proof.
  induction l as [|x l IH]; [done|].
  rewrite fmap_cons, !bind_cons. by rewrite IH.
Qed.

(** ** Enumeration *)

Lemma elem_of_enumerate {A} (y : list A) i x :
  (i, x) ∈ enumerate y ↔ y !! i = Some x.
Proof.
  unfold enumerate. rewrite elem_of_lookup_imap. split.
  - intros (j & z & [= -> ->] & Hz). done.
  - intros Hx. by exists i, x.
Qed.

Lemma enumerate_snoc {A} (y : list A) x :
  enumerate (y ++ [x]) = enumerate y ++ [(length y, x)].
Proof.
  unfold enumerate. rewrite imap_app. simpl. by rewrite Nat.add_0_r.
Qed.

Lemma enumerate_fmap_fst {A} (y : list A) : (enumerate y).*1 = seq 0 (length y).
Proof.
  unfold enumerate. rewrite fmap_imap.
  trans (imap (λ (j : nat) (_ : A), id j) y); [by apply imap_ext|].
  by rewrite (imap_seq_0 y id), list_fmap_id.
Qed.

(** A loop over [enumerate y] visits the indices of [y] in order. *)
Lemma bind_enumerate {A B} (f : nat * A → list B) (y : list A) :
  enumerate y ≫= f =
  seq 0 (length y) ≫= (λ i, from_option (λ x, f (i, x)) [] (y !! i)).
Proof.
  induction y as [|x y IH] using rev_ind; [done|].
  rewrite enumerate_snoc, length_app. cbn [length]. rewrite Nat.add_1_r.
  rewrite seq_S, !bind_app, IH. f_equal.
  - apply bind_ext_in. intros i [_ Hi]%elem_of_seq. simpl in Hi.
    by rewrite lookup_app_l.
  - rewrite !bind_cons. simpl. by rewrite list_lookup_middle.
Qed.

(** The indices selected from an enumeration are strictly increasing. *)
Lemma filter_enumerate_sorted {A} (P : nat * A → Prop) `{∀ x, Decision (P x)}
    (y : list A) :
  StronglySorted lt (filter P (enumerate y)).*1.
Proof.
  induction y as [|x y IH] using rev_ind; [constructor|].
  rewrite enumerate_snoc, filter_app, fmap_app.
  apply StronglySorted_app_2; [|exact IH|].
  2:{ rewrite filter_cons. destruct (decide (P (length y, x))); simpl;
      repeat constructor. }
  - intros i j ([i' xi] & -> & [_ Hi]%list_elem_of_filter)%list_elem_of_fmap
      ([j' xj] & -> & [_ Hj]%list_elem_of_filter)%list_elem_of_fmap.
    apply elem_of_enumerate, lookup_lt_Some in Hi.
    apply list_elem_of_singleton in Hj as [= -> ->]. done.
Qed.

Lemma sorted_lookup_lt (l : list nat) i j x z :
  StronglySorted lt l → l !! i = Some x → l !! j = Some z → x < z → i < j.
Proof.
  intros Hl. revert i j. induction Hl as [|w l Hl IH Hw]; intros i j Hi Hj Hlt.
  - done.
  - destruct i as [|i], j as [|j]; simpl in *.
    + simplify_eq. lia.
    + lia.
    + simplify_eq. rewrite Forall_forall in Hw.
      assert (z < x); [|lia]. apply Hw. by eapply list_elem_of_lookup_2.
    + apply ->Nat.succ_lt_mono. by apply IH.
Qed.

(** ** Comparison of distances *)

Lemma Qltb_lt x y : Qltb x y = true ↔ (x < y)%Q.
Proof.
  unfold Qltb. rewrite negb_true_iff, <-not_true_iff_false, Qle_bool_iff.
  split; [apply Qnot_le_lt | apply Qlt_not_le].
Qed.

Lemma Qltb_ge x y : Qltb x y = false ↔ (y <= x)%Q.
Proof.
  unfold Qltb. rewrite negb_false_iff. apply Qle_bool_iff.
Qed.

(** ** Index selections *)

Lemma filter_fmap {A B} (f : A → B) (P : B → Prop) `{∀ x, Decision (P x)}
    (l : list A) :
  filter P (f <$> l) = f <$> filter (P ∘ f) l.
Proof.
  induction l as [|x l IH]; [done|].
  rewrite fmap_cons, !filter_cons. simpl.
  destruct (decide (P (f x))); [rewrite fmap_cons|]; by rewrite IH.
Qed.

Lemma np_where_fmap {A} (f : A → bool) (y : list A) :
  np_where (f <$> y) = (filter (λ p, f p.2 = true) (enumerate y)).*1.
Proof.
  unfold np_where. induction y as [|x y IH] using rev_ind; [done|].
  rewrite fmap_app. change (f <$> [x]) with [f x].
  rewrite !enumerate_snoc, !filter_app, !fmap_app, IH. f_equal.
  rewrite length_fmap. simpl. rewrite !filter_cons. simpl.
  destruct (decide (f x = true)); done.
Qed.

Lemma elem_of_filter_enumerate {A} (P : nat * A → Prop) `{∀ x, Decision (P x)}
    (y : list A) i :
  i ∈ (filter P (enumerate y)).*1 ↔ ∃ x, y !! i = Some x ∧ P (i, x).
Proof.
  rewrite list_elem_of_fmap. split.
  - intros ([j x] & -> & [HP Hx]%list_elem_of_filter).
    apply elem_of_enumerate in Hx. by exists x.
  - intros (x & Hx & HP). exists (i, x). split; [done|].
    apply list_elem_of_filter. split; [done|]. by apply elem_of_enumerate.
Qed.

Section Selections.
Context {L : Type} `{EqDecision L}.
Implicit Types (y : list L).

Lemma elem_of_where_eq y l i : i ∈ where_eq y l ↔ y !! i = Some l.
Proof.
  unfold where_eq. rewrite np_where_fmap, elem_of_filter_enumerate. simpl.
  split.
  - intros (x & Hx & ->%bool_decide_eq_true). done.
  - intros Hi. exists l. split; [done|]. by apply bool_decide_eq_true.
Qed.

Lemma elem_of_where_ne y l i :
  i ∈ where_ne y l ↔ ∃ x, y !! i = Some x ∧ x ≠ l.
Proof.
  unfold where_ne. rewrite np_where_fmap, elem_of_filter_enumerate. simpl.
  by setoid_rewrite bool_decide_eq_true.
Qed.

Lemma elem_of_partners y a p :
  p ∈ partners y a ↔ p ≠ a ∧ ∃ l, y !! p = Some l ∧ y !! a = Some l.
Proof.
  unfold partners. rewrite elem_of_filter_enumerate. simpl. split.
  - intros (l & Hp & Hne & Ha). split; [done|]. by exists l.
  - intros (Hne & l & Hp & Ha). exists l. by rewrite Ha.
Qed.

Lemma elem_of_others y a n :
  n ∈ others y a ↔ ∃ l, y !! n = Some l ∧ y !! a ≠ Some l.
Proof.
  unfold others. rewrite elem_of_filter_enumerate. simpl.
  split; intros (l & Hn & Hne); exists l; split; congruence.
Qed.

Lemma where_eq_partners y a l :
  y !! a = Some l → filter (λ p, p ≠ a) (where_eq y l) = partners y a.
Proof.
  intros Ha. unfold where_eq, partners.
  rewrite np_where_fmap, filter_fmap, list_filter_filter. f_equal.
  apply list_filter_iff. intros [p x]. simpl.
  rewrite Ha, bool_decide_eq_true. split; intros [? ?]; split; congruence.
Qed.

Lemma where_ne_others y a l :
  y !! a = Some l → where_ne y l = others y a.
Proof.
  intros Ha. unfold where_ne, others. rewrite np_where_fmap. f_equal.
  apply list_filter_iff. intros [p x]. simpl.
  rewrite Ha, bool_decide_eq_true. split; congruence.
Qed.

Lemma partners_sorted y a : StronglySorted lt (partners y a).
Proof. apply filter_enumerate_sorted. Qed.

Lemma others_sorted y a : StronglySorted lt (others y a).
Proof. apply filter_enumerate_sorted. Qed.

(** *** The [all] policy *)

Lemma batch_all_spec y distances :
  batch_all y distances = Ok (columns (spec_all y)).
Proof.
  unfold batch_all, spec_all. f_equal.
  change (([], [], []) : samples) with (columns []).
  rewrite (foldl_columns _ (λ a : nat * L,
    p ← partners y a.1; n ← others y a.1; [(a.1, p, n)])).
  { rewrite bind_enumerate. simpl. f_equal. apply bind_ext_in.
    intros a [_ Ha]%elem_of_seq. simpl in Ha.
    apply lookup_lt_is_Some in Ha as [l ->]. done. }
  intros ts [a l] Ha%elem_of_enumerate. simpl.
  unfold partners. rewrite bind_fmap, bind_filter.
  apply foldl_columns. intros ts' [p lp] _. simpl. rewrite Ha.
  destruct (decide (p ≠ a ∧ Some lp = Some l)) as [[Hne [= ->]]|Hno].
  - rewrite bool_decide_eq_false_2 by congruence.
    rewrite bool_decide_eq_false_2 by (intros Hn; by apply Hn). simpl.
    unfold others. rewrite bind_fmap, bind_filter.
    apply foldl_columns. intros ts'' [n ln] _. simpl. rewrite Ha.
    destruct (decide (Some ln ≠ Some l)) as [Hln|Hln].
    + rewrite bool_decide_eq_false_2 by congruence. apply emit_columns.
    + rewrite bool_decide_eq_true_2; [by rewrite app_nil_r|].
      destruct (decide (ln = l)); [done|]. destruct Hln. congruence.
  - rewrite app_nil_r.
    destruct (decide (a = p)) as [->|Hap].
    + by rewrite bool_decide_eq_true_2.
    + rewrite (bool_decide_eq_false_2 (a = p)) by done. simpl.
      rewrite bool_decide_eq_true_2; [done|].
      intros ->. apply Hno. split; congruence.
Qed.

(** *** Soundness of the samplers: the triplet invariant *)

Lemma sound_nil y : sound y ([], [], []).
Proof. exists []. split; [done | constructor]. Qed.

Lemma sound_emit y s a p n l ln :
  sound y s → y !! a = Some l → y !! p = Some l → y !! n = Some ln →
  l ≠ ln → a ≠ p → sound y (emit s a p n).
Proof.
  intros (ts & -> & Hts) Ha Hp Hn Hl Hap. exists (ts ++ [(a, p, n)]).
  split; [apply emit_columns|].
  apply Forall_app. split; [done|]. repeat constructor. by exists l, ln.
Qed.

Lemma item_Some {A} (l : list A) i x : item l i = Ok x → l !! i = Some x.
Proof. unfold item. destruct (l !! i); [by intros [= ->] | done]. Qed.

Lemma batch_all_sound y distances s :
  batch_all y distances = Ok s → sound y s.
Proof.
  rewrite batch_all_spec. intros [= <-]. eexists. split; [done|].
  apply Forall_forall. intros [[a p] n]. unfold spec_all.
  intros (a' & (p' & (n' & Ht & Hn)%list_elem_of_bind
                 & Hp)%list_elem_of_bind & _)%list_elem_of_bind.
  apply list_elem_of_singleton in Ht as [= -> -> ->].
  apply elem_of_partners in Hp as (Hne & l & Hp & Ha).
  apply elem_of_others in Hn as (ln & Hn & Hln).
  exists l, ln. repeat split; try done. congruence.
Qed.

Lemma batch_easy_sound y distances s :
  batch_easy y distances = Ok s → sound y s.
Proof.
  unfold batch_easy. destruct (squareform distances) as [m|]; [|done]. simpl.
  apply for_each_invariant; [|apply sound_nil].
  intros s1 [a l] s1' Ha%elem_of_enumerate Hs1.
  apply for_each_invariant; [|done].
  intros s2 [p lp] s2' Hp%elem_of_enumerate Hs2.
  destruct (bool_decide (a = p)) eqn:Hap; simpl; [by intros [= <-]|].
  destruct (bool_decide (l ≠ lp)) eqn:Hl; simpl; [by intros [= <-]|].
  apply bool_decide_eq_false in Hap.
  apply bool_decide_eq_false in Hl. apply dec_stable in Hl as <-.
  destruct (item2 m a p) as [d|]; [|done]. simpl.
  apply for_each_invariant; [|done].
  intros s3 [n ln] s3' Hn%elem_of_enumerate Hs3.
  destruct (bool_decide (ln = l)) eqn:Hln; [by intros [= <-]|].
  apply bool_decide_eq_false in Hln.
  destruct (item2 m a n) as [dn|]; [|done]. simpl.
  destruct (Qltb dn d); intros [= <-]; [done|].
  eapply sound_emit; eauto.
Qed.

Lemma batch_hard_sound y distances s :
  batch_hard y distances = Ok s → sound y s.
Proof.
  unfold batch_hard. destruct (squareform distances) as [m|]; [|done]. simpl.
  apply for_each_invariant; [|apply sound_nil].
  intros s1 [a l] s1' Ha%elem_of_enumerate Hs1.
  destruct (item m a) as [d|]; [|done]. simpl.
  destruct (gather d (filter _ _)) as [d_pos|]; [|done]. simpl.
  destruct (np_argmax d_pos) as [k|]; [|done]. simpl.
  destruct (item _ k) as [p|] eqn:Hp; [|done]. simpl.
  destruct (gather d (where_ne y l)) as [d_neg|]; [|done]. simpl.
  destruct (np_argmin d_neg) as [k'|]; [|done]. simpl.
  destruct (item _ k') as [n|] eqn:Hn; [|done]. simpl.
  intros [= <-].
  apply item_Some, list_elem_of_lookup_2 in Hp, Hn.
  apply list_elem_of_filter in Hp as [Hne Hp%elem_of_where_eq].
  apply elem_of_where_ne in Hn as (ln & Hn & Hln).
  eapply sound_emit; eauto.
Qed.

Lemma batch_negative_sound y distances s :
  batch_negative y distances = Ok s → sound y s.
Proof.
  unfold batch_negative.
  destruct (squareform distances) as [m|]; [|done]. simpl.
  apply for_each_invariant; [|apply sound_nil].
  intros s1 [a l] s1' Ha%elem_of_enumerate Hs1.
  destruct (item m a) as [d|]; [|done]. simpl.
  destruct (gather d _) as [d_neg|]; [|done]. simpl.
  destruct (np_argmin d_neg) as [k'|]; [|done]. simpl.
  destruct (item _ k') as [n|] eqn:Hn; [|done]. simpl.
  intros [= <-].
  apply item_Some, list_elem_of_lookup_2 in Hn.
  apply elem_of_where_ne in Hn as (ln & Hn & Hln).
  apply foldl_invariant; [|done].
  intros s2 p Hp%elem_of_where_eq Hs2.
  destruct (bool_decide (p = a)) eqn:Hpa; [done|].
  apply bool_decide_eq_false in Hpa.
  eapply sound_emit; eauto.
Qed.

Lemma sampler_sound policy f y distances s :
  sampler policy = Ok f → f y distances = Ok s → sound y s.
Proof.
  unfold sampler. repeat case_bool_decide; intros [= <-];
    eauto using batch_all_sound, batch_hard_sound, batch_negative_sound,
      batch_easy_sound.
Qed.

End Selections.

(** ** Condensed and square form *)

Lemma double_condensed_length n : 2 * condensed_length n = n * (n - 1).
Proof.
  unfold condensed_length. symmetry. apply Nat.Div0.div_exact.
  induction n as [|n IH]; [done|].
  replace (S n * (S n - 1)) with (n * (n - 1) + n * 2) by nia.
  by rewrite Nat.Div0.mod_add.
Qed.

Lemma double_triangle i : 2 * ((i + 2) * (i + 1) / 2) = (i + 2) * (i + 1).
Proof.
  pose proof (double_condensed_length (i + 2)) as H.
  unfold condensed_length in H. by replace (i + 2 - 1) with (i + 1) in H by lia.
Qed.

Lemma condensed_index_lt m i j :
  i < j < m → condensed_index m i j < condensed_length m.
Proof.
  intros Hij. unfold condensed_index.
  pose proof (double_condensed_length m). pose proof (double_triangle i).
  nia.
Qed.

Lemma squareform_valid n v :
  1 ≤ n → length v = condensed_length n → squareform v = Ok (square n v).
Proof.
  intros Hn Hv. unfold squareform. rewrite Hv.
  pose proof (double_condensed_length n) as Hd.
  destruct (decide (n = 1)) as [->|Hn1]; [done|].
  assert (condensed_length n ≠ 0) as Hs by nia.
  rewrite (proj2 (Nat.eqb_neq _ _) Hs).
  assert (Nat.sqrt_up (condensed_length n * 2) = n) as ->.
  { apply Nat.sqrt_up_unique; [lia|]. destruct n as [|n]; simpl; nia. }
  rewrite (proj2 (Nat.eqb_eq _ _)) by lia. done.
Qed.

Lemma item_square m v i :
  i < m → item (square m v) i = Ok (square_entry m v i <$> seq 0 m).
Proof.
  intros Hi. unfold item, square.
  by rewrite list_lookup_fmap, lookup_seq_lt.
Qed.

Lemma item2_square m v i j :
  i < m → j < m → item2 (square m v) i j = Ok (square_entry m v i j).
Proof.
  intros Hi Hj. unfold item2. rewrite item_square by done. simpl.
  unfold item. by rewrite list_lookup_fmap, lookup_seq_lt.
Qed.

Lemma gather_fmap_seq {A} (f : nat → A) m idx :
  Forall (λ i, i < m) idx → gather (f <$> seq 0 m) idx = Ok (f <$> idx).
Proof.
  induction 1 as [|i idx Hi _ IH]; [done|]. simpl.
  unfold item. rewrite list_lookup_fmap, lookup_seq_lt by done. simpl.
  by rewrite IH.
Qed.

(** ** [np.argmax] and [np.argmin] *)

Section Argbest.
Variable better : Q → Q → bool.
Variable before : Q → Q → Prop.
Hypothesis better_before : ∀ x b, better x b = true ↔ before b x.
Hypothesis before_irrefl : ∀ x, ¬ before x x.
Hypothesis before_trans : ∀ x y z, before x y → before y z → before x z.
Hypothesis before_le_trans : ∀ x y z, ¬ before x y → before x z → before y z.

Lemma argbest_first l0 l pre best_i best :
  l0 = pre ++ l → l0 !! best_i = Some best →
  (∀ j z, j < length pre → l0 !! j = Some z → ¬ before best z) →
  (∀ j z, j < best_i → l0 !! j = Some z → before z best) →
  ∃ b, l0 !! argbest better best_i best (length pre) l = Some b ∧
    (∀ j z, l0 !! j = Some z → ¬ before b z) ∧
    (∀ j z, j < argbest better best_i best (length pre) l →
            l0 !! j = Some z → before z b).
Proof.
  revert pre best_i best.
  induction l as [|x l IH]; intros pre best_i best Hl0 Hbest Hmax Hfirst.
  - simpl. exists best. split_and!; [done| |done].
    intros j z Hz. apply (Hmax j); [|done].
    apply lookup_lt_Some in Hz. by rewrite Hl0, app_nil_r in Hz.
  - assert (l0 !! length pre = Some x) as Hx.
    { by rewrite Hl0, list_lookup_middle. }
    simpl. replace (S (length pre)) with (length (pre ++ [x]))
      by (rewrite length_app; simpl; lia).
    destruct (better x best) eqn:Hb.
    + apply better_before in Hb.
      apply IH; [by rewrite <-app_assoc|done| |].
      * intros j z Hj Hz Hxz. rewrite length_app in Hj. simpl in Hj.
        destruct (decide (j = length pre)) as [->|Hne].
        -- rewrite Hx in Hz. injection Hz as <-. by eapply before_irrefl.
        -- apply (Hmax j z); [lia|done|]. by eapply before_trans.
      * intros j z Hj Hz. eapply before_le_trans; [|exact Hb].
        by eapply Hmax.
    + apply IH; [by rewrite <-app_assoc|done| |done].
      intros j z Hj Hz. rewrite length_app in Hj. simpl in Hj.
      destruct (decide (j = length pre)) as [->|Hne].
      * rewrite Hx in Hz. injection Hz as <-.
        rewrite <-better_before. by rewrite Hb.
      * apply (Hmax j z); [lia|done].
Qed.
End Argbest.

Lemma np_argmax_first l :
  l ≠ [] →
  ∃ k b, np_argmax l = Ok k ∧ l !! k = Some b ∧
    (∀ j z, l !! j = Some z → (z <= b)%Q) ∧
    (∀ j z, j < k → l !! j = Some z → (z < b)%Q).
Proof.
  destruct l as [|x l]; [done|]. intros _. simpl.
  destruct (argbest_first (λ x best, Qltb best x) Qlt) with
    (l0 := x :: l) (l := l) (pre := [x]) (best_i := 0) (best := x)
    as (b & Hb & Hmax & Hfirst).
  - intros; apply Qltb_lt.
  - apply Qlt_irrefl.
  - intros ???. apply Qlt_trans.
  - intros a b c Hab Hac. apply Qnot_lt_le in Hab. by eapply Qle_lt_trans.
  - done.
  - done.
  - intros [|j] z Hj Hz; simpl in *; [|lia].
    injection Hz as <-. apply Qlt_irrefl.
  - lia.
  - eexists _, b. split_and!; [done|exact Hb| |exact Hfirst].
    intros j z Hz. apply Qnot_lt_le. by eapply Hmax.
Qed.

Lemma np_argmin_first l :
  l ≠ [] →
  ∃ k b, np_argmin l = Ok k ∧ l !! k = Some b ∧
    (∀ j z, l !! j = Some z → (b <= z)%Q) ∧
    (∀ j z, j < k → l !! j = Some z → (b < z)%Q).
Proof.
  destruct l as [|x l]; [done|]. intros _. simpl.
  destruct (argbest_first (λ x best, Qltb x best) (λ b x, (x < b)%Q)) with
    (l0 := x :: l) (l := l) (pre := [x]) (best_i := 0) (best := x)
    as (b & Hb & Hmax & Hfirst).
  - intros; apply Qltb_lt.
  - apply Qlt_irrefl.
  - intros a b c Hab Hbc. by eapply Qlt_trans.
  - intros a b c Hab Hac. apply Qnot_lt_le in Hab. by eapply Qlt_le_trans.
  - done.
  - done.
  - intros [|j] z Hj Hz; simpl in *; [|lia].
    injection Hz as <-. apply Qlt_irrefl.
  - lia.
  - eexists _, b. split_and!; [done|exact Hb| |exact Hfirst].
    intros j z Hz. apply Qnot_lt_le. by eapply Hmax.
Qed.

Lemma squareform_Ok n v :
  length v = condensed_length n →
  ∃ m, squareform v = Ok m ∧ (1 ≤ n → m = square n v).
Proof.
  intros Hv. destruct (decide (1 ≤ n)) as [Hn|Hn].
  - exists (square n v). split; [by apply squareform_valid | done].
  - exists [[0%Q]]. split; [|done].
    assert (n = 0) as -> by lia. by destruct v.
Qed.

(** ** The choice among candidates *)

Section Pick.
Variable d : nat → Q.
Variable candidates : list nat.
Hypothesis some_candidate : candidates ≠ [].
Hypothesis candidates_sorted : StronglySorted lt candidates.

Lemma fmap_candidates_ne : d <$> candidates ≠ [].
Proof. by destruct candidates. Qed.

Lemma argmax_pick :
  ∃ k p, np_argmax (d <$> candidates) = Ok k ∧ candidates !! k = Some p ∧
    pick np_argmax d candidates = p ∧
    (∀ q, q ∈ candidates → (d q <= d p)%Q) ∧
    (∀ q, q ∈ candidates → q < p → (d q < d p)%Q).
Proof.
  destruct (np_argmax_first _ fmap_candidates_ne)
    as (k & b & Hk & Hb & Hmax & Hfirst).
  rewrite list_lookup_fmap in Hb.
  destruct (candidates !! k) as [p|] eqn:Hp; [|done].
  injection Hb as <-. exists k, p. unfold pick. rewrite Hk, Hp.
  split_and!; try done.
  - intros q [j Hj]%list_elem_of_lookup. apply (Hmax j).
    by rewrite list_lookup_fmap, Hj.
  - intros q [j Hj]%list_elem_of_lookup Hqp. apply (Hfirst j).
    + by eapply sorted_lookup_lt.
    + by rewrite list_lookup_fmap, Hj.
Qed.

Lemma argmin_pick :
  ∃ k p, np_argmin (d <$> candidates) = Ok k ∧ candidates !! k = Some p ∧
    pick np_argmin d candidates = p ∧
    (∀ q, q ∈ candidates → (d p <= d q)%Q) ∧
    (∀ q, q ∈ candidates → q < p → (d p < d q)%Q).
Proof.
  destruct (np_argmin_first _ fmap_candidates_ne)
    as (k & b & Hk & Hb & Hmin & Hfirst).
  rewrite list_lookup_fmap in Hb.
  destruct (candidates !! k) as [p|] eqn:Hp; [|done].
  injection Hb as <-. exists k, p. unfold pick. rewrite Hk, Hp.
  split_and!; try done.
  - intros q [j Hj]%list_elem_of_lookup. apply (Hmin j).
    by rewrite list_lookup_fmap, Hj.
  - intros q [j Hj]%list_elem_of_lookup Hqp. apply (Hfirst j).
    + by eapply sorted_lookup_lt.
    + by rewrite list_lookup_fmap, Hj.
Qed.
End Pick.

Lemma columns_bind_singleton (f g : nat → nat) (l : list nat) :
  columns (a ← l; [(a, f a, g a)]) = (l, f <$> l, g <$> l).
Proof.
  induction l as [|a l IH]; [done|].
  rewrite bind_cons. change ([(a, f a, g a)] ++ ?k) with ((a, f a, g a) :: k).
  unfold columns in *. rewrite !fmap_cons. simpl.
  injection IH as -> -> ->. done.
Qed.

(** ** The policies on a valid batch *)

Section Policies.
Context {L : Type} `{EqDecision L}.
Variable y : list L.
Variable distances : list Q.
Hypothesis valid : length distances = condensed_length (length y).

Local Abbreviation d := (square_entry (length y) distances).

Lemma partners_lt a : Forall (λ i, i < length y) (partners y a).
Proof.
  apply Forall_forall. intros p (_ & l & Hp & _)%elem_of_partners.
  by eapply lookup_lt_Some.
Qed.

Lemma others_lt a : Forall (λ i, i < length y) (others y a).
Proof.
  apply Forall_forall. intros p (l & Hp & _)%elem_of_others.
  by eapply lookup_lt_Some.
Qed.

(** The hardest negative of an anchor that has one. *)
Lemma hardest_negative_run {B} a l (k : nat → result B) :
  y !! a = Some l → others y a ≠ [] →
  (d_neg ← gather (d a <$> seq 0 (length y)) (where_ne y l);
   i ← np_argmin d_neg; negative ← item (where_ne y l) i; k negative)
  = k (pick np_argmin (d a) (others y a)).
Proof.
  intros Ha Hne. rewrite (where_ne_others y a l Ha).
  rewrite gather_fmap_seq by apply others_lt. simpl.
  destruct (argmin_pick (d a) (others y a) Hne (others_sorted y a))
    as (i & n & -> & Hi & -> & _). simpl.
  unfold item. by rewrite Hi.
Qed.

Lemma hardest_positive_run {B} a l (k : nat → result B) :
  y !! a = Some l → partners y a ≠ [] →
  (d_pos ← gather (d a <$> seq 0 (length y))
             (filter (λ p, p ≠ a) (where_eq y l));
   i ← np_argmax d_pos;
   positive ← item (filter (λ p, p ≠ a) (where_eq y l)) i; k positive)
  = k (pick np_argmax (d a) (partners y a)).
Proof.
  intros Ha Hne. rewrite (where_eq_partners y a l Ha).
  rewrite gather_fmap_seq by apply partners_lt. simpl.
  destruct (argmax_pick (d a) (partners y a) Hne (partners_sorted y a))
    as (i & n & -> & Hi & -> & _). simpl.
  unfold item. by rewrite Hi.
Qed.

Lemma batch_hard_spec :
  (∀ a, a < length y → partners y a ≠ [] ∧ others y a ≠ []) →
  batch_hard y distances =
  Ok (columns (a ← seq 0 (length y);
               [(a, pick np_argmax (d a) (partners y a),
                    pick np_argmin (d a) (others y a))])).
Proof.
  intros Hcand. unfold batch_hard.
  destruct (squareform_Ok _ _ valid) as (m & -> & Hm). simpl.
  change (([], [], []) : samples) with (columns []).
  rewrite (for_each_columns _ (λ a : nat * L,
    [(a.1, pick np_argmax (d a.1) (partners y a.1),
           pick np_argmin (d a.1) (others y a.1))])).
  { rewrite bind_enumerate. simpl. do 2 f_equal. apply bind_ext_in.
    intros a [_ Ha]%elem_of_seq. simpl in Ha.
    apply lookup_lt_is_Some in Ha as [l ->]. done. }
  intros ts [a l] Ha%elem_of_enumerate. simpl.
  pose proof (lookup_lt_Some _ _ _ Ha) as Hlt.
  destruct (Hcand a Hlt) as [Hpos Hneg].
  rewrite Hm by lia. rewrite item_square by done. simpl.
  rewrite (hardest_positive_run a l) by done.
  rewrite (hardest_negative_run a l) by done.
  by rewrite <-emit_columns.
Qed.

Lemma batch_negative_spec :
  (∀ a, a < length y → others y a ≠ []) →
  batch_negative y distances =
  Ok (columns (a ← seq 0 (length y); p ← partners y a;
               [(a, p, pick np_argmin (d a) (others y a))])).
Proof.
  intros Hcand. unfold batch_negative.
  destruct (squareform_Ok _ _ valid) as (m & -> & Hm). simpl.
  change (([], [], []) : samples) with (columns []).
  rewrite (for_each_columns _ (λ a : nat * L,
    p ← partners y a.1;
    [(a.1, p, pick np_argmin (d a.1) (others y a.1))])).
  { rewrite bind_enumerate. simpl. do 2 f_equal. apply bind_ext_in.
    intros a [_ Ha]%elem_of_seq. simpl in Ha.
    apply lookup_lt_is_Some in Ha as [l ->]. done. }
  intros ts [a l] Ha%elem_of_enumerate. simpl.
  pose proof (lookup_lt_Some _ _ _ Ha) as Hlt.
  rewrite Hm by lia. rewrite item_square by done. simpl.
  rewrite (hardest_negative_run a l) by auto. f_equal.
  rewrite <-(where_eq_partners y a l Ha), bind_filter.
  apply foldl_columns. intros ts' p _.
  destruct (decide (p ≠ a)) as [Hpa|Hpa].
  - rewrite bool_decide_eq_false_2 by done. apply emit_columns.
  - rewrite bool_decide_eq_true_2 by (by apply dec_stable).
    by rewrite app_nil_r.
Qed.

Lemma batch_easy_spec :
  batch_easy y distances = Ok (columns (spec_easy y d)).
Proof.
  unfold batch_easy, spec_easy.
  destruct (squareform_Ok _ _ valid) as (m & -> & Hm). simpl.
  change (([], [], []) : samples) with (columns []).
  rewrite (for_each_columns _ (λ a : nat * L,
    p ← partners y a.1;
    n ← filter (λ n, (d a.1 p <= d a.1 n)%Q) (others y a.1);
    [(a.1, p, n)])).
  { rewrite bind_enumerate. simpl. do 2 f_equal. apply bind_ext_in.
    intros a [_ Ha]%elem_of_seq. simpl in Ha.
    apply lookup_lt_is_Some in Ha as [l ->]. done. }
  intros ts [a l] Ha%elem_of_enumerate. simpl.
  pose proof (lookup_lt_Some _ _ _ Ha) as Hlt.
  unfold partners. rewrite bind_fmap, bind_filter.
  apply for_each_columns. intros ts' [p lp] Hp%elem_of_enumerate. simpl.
  pose proof (lookup_lt_Some _ _ _ Hp) as Hplt.
  rewrite Ha.
  destruct (decide (p ≠ a ∧ Some lp = Some l)) as [[Hne [= ->]]|Hno].
  - rewrite bool_decide_eq_false_2 by congruence.
    rewrite bool_decide_eq_false_2 by (intros Hn; by apply Hn). simpl.
    rewrite Hm by lia. rewrite item2_square by done. simpl.
    rewrite bind_filter. unfold others. rewrite bind_fmap, bind_filter.
    apply for_each_columns. intros ts'' [n ln] Hn%elem_of_enumerate. simpl.
    pose proof (lookup_lt_Some _ _ _ Hn) as Hnlt.
    rewrite Ha.
    destruct (decide (Some ln ≠ Some l)) as [Hln|Hln].
    + rewrite bool_decide_eq_false_2 by congruence.
      rewrite item2_square by done. simpl.
      destruct (decide (d a p <= d a n)%Q) as [Hle|Hle].
      * rewrite (proj2 (Qltb_ge _ _) Hle). by rewrite <-emit_columns.
      * destruct (Qltb (d a n) (d a p)) eqn:Hlt'; [by rewrite app_nil_r|].
        by apply Qltb_ge in Hlt'.
    + rewrite bool_decide_eq_true_2; [by rewrite app_nil_r|].
      destruct (decide (ln = l)); [done|]. destruct Hln. congruence.
  - rewrite app_nil_r.
    destruct (decide (a = p)) as [->|Hap].
    + by rewrite bool_decide_eq_true_2.
    + rewrite (bool_decide_eq_false_2 (a = p)) by done. simpl.
      rewrite bool_decide_eq_true_2; [done|].
      intros ->. apply Hno. split; congruence.
Qed.

End Policies.

(** ** Membership in the specified triplet lists *)

Section Membership.
Context {L : Type} `{EqDecision L}.
Implicit Types (y : list L).

Lemma elem_of_spec_all y a p n :
  (a, p, n) ∈ spec_all y ↔ p ∈ partners y a ∧ n ∈ others y a.
Proof.
  unfold spec_all. rewrite list_elem_of_bind. split.
  - intros (a' & (p' & (n' & Ht & Hn)%list_elem_of_bind
                   & Hp)%list_elem_of_bind & _).
    by apply list_elem_of_singleton in Ht as [= -> -> ->].
  - intros [Hp Hn]. exists a. split.
    + apply list_elem_of_bind. exists p. split; [|done].
      apply list_elem_of_bind. exists n. split; [|done].
      by apply list_elem_of_singleton.
    + apply elem_of_partners in Hp as (_ & l & _ & Ha).
      apply elem_of_seq. apply lookup_lt_Some in Ha. lia.
Qed.

Lemma elem_of_spec_easy y d a p n :
  (a, p, n) ∈ spec_easy y d ↔
  p ∈ partners y a ∧ n ∈ others y a ∧ (d a p <= d a n)%Q.
Proof.
  unfold spec_easy. rewrite list_elem_of_bind. split.
  - intros (a' & (p' & (n' & Ht & Hn)%list_elem_of_bind
                   & Hp)%list_elem_of_bind & _).
    apply list_elem_of_singleton in Ht as [= -> -> ->].
    by apply list_elem_of_filter in Hn as [Hle Hn].
  - intros (Hp & Hn & Hle). exists a. split.
    + apply list_elem_of_bind. exists p. split; [|done].
      apply list_elem_of_bind. exists n. split.
      * by apply list_elem_of_singleton.
      * by apply list_elem_of_filter.
    + apply elem_of_partners in Hp as (_ & l & _ & Ha).
      apply elem_of_seq. apply lookup_lt_Some in Ha. lia.
Qed.

Lemma single_label_others y a :
  (∀ i j li lj, y !! i = Some li → y !! j = Some lj → li = lj) →
  a < length y → others y a = [].
Proof.
  intros Hone [l Ha]%lookup_lt_is_Some. apply elem_of_nil_inv.
  intros n (ln & Hn & Hne)%elem_of_others.
  rewrite (Hone _ _ _ _ Hn Ha) in Hne. by rewrite Ha in Hne.
Qed.

Lemma sound_lookup y s k a p n :
  sound y s → s.1.1 !! k = Some a → s.1.2 !! k = Some p →
  s.2 !! k = Some n → triplet_ok y (a, p, n).
Proof.
  intros (ts & -> & Hts). unfold columns. simpl.
  rewrite !list_lookup_fmap. intros Ha Hp Hn.
  destruct (ts !! k) as [[[a' p'] n']|] eqn:Hk; simplify_eq/=.
  rewrite Forall_lookup in Hts. exact (Hts k _ Hk).
Qed.

Lemma sound_lengths y s :
  sound y s → length s.1.1 = length s.1.2 ∧ length s.1.2 = length s.2.
Proof. intros (ts & -> & _). unfold columns. simpl. by rewrite !length_fmap. Qed.
End Membership.

(** ** The loss transform *)

Lemma estimate_n_condensed_length n :
  1 ≤ n → estimate_n (condensed_length n) = n.
Proof.
  intros Hn. unfold estimate_n.
  pose proof (double_condensed_length n) as Hd.
  replace (1 + 8 * condensed_length n) with ((2 * n - 1) * (2 * n - 1)) by nia.
  rewrite Nat.sqrt_square.
  replace (1 + (2 * n - 1)) with (n * 2) by lia. by rewrite Nat.div_mul.
Qed.

Lemma condensed_offset_index n i j :
  i < n → j < n → i ≠ j →
  condensed_offset (Z.of_nat n) (Z.of_nat i) (Z.of_nat j) =
  Z.of_nat (condensed_index n (i `min` j) (i `max` j)).
Proof.
  intros Hi Hj Hij. unfold condensed_offset, condensed_index.
  rewrite <-Nat2Z.inj_min, <-Nat2Z.inj_max.
  set (a := i `min` j). set (b := i `max` j).
  assert (a < b < n) as Hab by (subst a b; lia). clearbody a b.
  pose proof (double_triangle a) as Ht.
  assert (Z.of_nat a * (Z.of_nat a + 1) / 2 * 2 =
          Z.of_nat a * (Z.of_nat a + 1))%Z as Hz.
  { destruct (Z.even (Z.of_nat a)) eqn:He.
    - apply Z.even_spec in He as [c ->].
      replace (2 * c * (2 * c + 1))%Z with (c * (2 * c + 1) * 2)%Z by lia.
      by rewrite Z.div_mul.
    - rewrite <-Z.negb_odd in He. apply negb_false_iff in He.
      apply Z.odd_spec in He as [c ->].
      replace ((2 * c + 1) * (2 * c + 1 + 1))%Z
        with ((2 * c + 1) * (c + 1) * 2)%Z by lia.
      by rewrite Z.div_mul. }
  nia.
Qed.

Lemma tensor_item_nat v k x :
  v !! k = Some x → tensor_item v (Z.of_nat k) = Ok x.
Proof.
  intros Hk. pose proof (lookup_lt_Some _ _ _ Hk).
  unfold tensor_item. rewrite bool_decide_eq_true_2 by lia.
  unfold item. by rewrite Nat2Z.id, Hk.
Qed.

Section Offsets.
Variable n : nat.
Variable distances : list Q.
Hypothesis valid : length distances = condensed_length n.
Context {A : Type}.
Variables f g : A → nat.

Lemma to_condensed_fmap (l : list A) :
  Forall (λ x, distinct_pair n (f x, g x)) l →
  to_condensed n (f <$> l) (g <$> l) =
  Ok ((λ x, condensed_offset (Z.of_nat n) (Z.of_nat (f x)) (Z.of_nat (g x)))
        <$> l).
Proof.
  intros Hl. unfold to_condensed.
  assert (existsb (λ ij : nat * nat, ij.1 =? ij.2) (zip (f <$> l) (g <$> l))
          = false) as ->.
  { induction Hl as [|x l [Hij _] _ IH]; [done|]. simpl in Hij.
    rewrite !fmap_cons. cbn [zip_with existsb fst snd].
    by rewrite (proj2 (Nat.eqb_neq _ _) Hij). }
  f_equal. clear Hl. induction l as [|x l IH]; [done|].
  rewrite !fmap_cons. cbn [zip_with]. by rewrite IH.
Qed.

Lemma tensor_gather_fmap (l : list A) :
  Forall (λ x, distinct_pair n (f x, g x)) l →
  tensor_gather distances
    ((λ x, condensed_offset (Z.of_nat n) (Z.of_nat (f x)) (Z.of_nat (g x)))
       <$> l) =
  Ok ((λ x, square_entry n distances (f x) (g x)) <$> l).
Proof.
  induction 1 as [|x l (Hij & Hi & Hj) _ IH]; [done|].
  simpl in Hij, Hi, Hj. rewrite !fmap_cons. cbn [tensor_gather].
  rewrite condensed_offset_index by done.
  assert (condensed_index n (f x `min` g x) (f x `max` g x)
          < length distances) as [q Hq]%lookup_lt_is_Some.
  { rewrite valid. apply condensed_index_lt. lia. }
  rewrite (tensor_item_nat _ _ _ Hq), IH. simpl. do 2 f_equal.
  unfold square_entry. by rewrite (proj2 (Nat.eqb_neq _ _) Hij), Hq.
Qed.
End Offsets.

Lemma zip_with_fmap_same {A B C D} (h : B → C → D) (f : A → B) (g : A → C)
    (l : list A) :
  zip_with h (f <$> l) (g <$> l) = (λ x, h (f x) (g x)) <$> l.
Proof.
  induction l as [|x l IH]; [done|].
  rewrite !fmap_cons. cbn [zip_with]. by rewrite IH.
Qed.

Section LossRun.
Variables log1p_exp sigmoid : Q → Q.
Context {L : Type} `{EqDecision L}.

Lemma triplet_ok_pairs (y : list L) t :
  triplet_ok y t →
  distinct_pair (length y) (t.1.1, t.1.2) ∧
  distinct_pair (length y) (t.1.1, t.2).
Proof.
  destruct t as [[a p] n]. intros (la & ln & Ha & Hp & Hn & Hl & Hap).
  pose proof (lookup_lt_Some _ _ _ Ha). pose proof (lookup_lt_Some _ _ _ Hp).
  pose proof (lookup_lt_Some _ _ _ Hn).
  unfold distinct_pair. simpl. split_and!; try done. intros ->. congruence.
Qed.

Lemma clamp_triplet_loss_run self delta :
  clamp self ∈ clamp_names →
  ∃ losses, clamp_triplet_loss log1p_exp sigmoid self delta = Ok losses ∧
            length losses = length delta.
Proof.
  intros Hclamp. unfold clamp_triplet_loss.
  repeat case_bool_decide; try (eexists; split; [done|];
    by rewrite !length_fmap).
  unfold clamp_names in Hclamp. rewrite !elem_of_cons in Hclamp.
  destruct Hclamp as [?|[?|[?|?%elem_of_nil]]]; done.
Qed.

Lemma triplet_loss_run self (y : list L) distances ts :
  length distances = condensed_length (length y) →
  Forall (triplet_ok y) ts → clamp self ∈ clamp_names →
  ∃ losses pos neg,
    triplet_loss log1p_exp sigmoid self distances
      (columns ts).1.1 (columns ts).1.2 (columns ts).2 =
    Ok (losses, triplet_delta (square_entry (length y) distances) <$> ts,
        pos, neg) ∧
    length losses = length ts.
Proof.
  intros valid Hts Hclamp. unfold triplet_loss, columns. simpl.
  rewrite <-!list_fmap_compose.
  assert (estimate_n (length distances) = length y ∨ ts = []) as [->| ->].
  { destruct ts as [|t ts]; [by right|left].
    apply Forall_cons in Hts as [([_ [Ha _]] & _)%triplet_ok_pairs _].
    rewrite valid. apply estimate_n_condensed_length. simpl in Ha. lia. }
  - rewrite to_condensed_fmap
      by (eapply Forall_impl; [done|]; by intros t [? ?]%triplet_ok_pairs).
    simpl.
    rewrite to_condensed_fmap
      by (eapply Forall_impl; [done|]; by intros t [? ?]%triplet_ok_pairs).
    simpl.
    rewrite tensor_gather_fmap; [|done|
      eapply Forall_impl; [done|]; by intros t [? ?]%triplet_ok_pairs].
    simpl.
    rewrite tensor_gather_fmap; [|done|
      eapply Forall_impl; [done|]; by intros t [? ?]%triplet_ok_pairs].
    simpl. rewrite zip_with_fmap_same.
    match goal with
    | |- context [clamp_triplet_loss _ _ _ ?delta] =>
        destruct (clamp_triplet_loss_run self delta Hclamp)
          as (losses & Hrun & Hlen); rewrite Hrun
    end.
    simpl. eexists losses, _, _. split; [reflexivity|].
    by rewrite Hlen, length_fmap.
  - simpl. destruct (clamp_triplet_loss_run self [] Hclamp)
      as (losses & -> & Hlen).
    simpl. by eexists losses, _, _.
Qed.

Lemma init_inv metric0 margin0 clamp0 sampling0 self :
  init metric0 margin0 clamp0 sampling0 = Ok self →
  ∃ D, max_distance metric0 = Ok D ∧
    self = {| metric := metric0; margin := margin0;
              margin_ := (margin0 * D)%Q;
              clamp := clamp0; sampling := sampling0 |} ∧
    metric0 ∈ metric_names ∧ clamp0 ∈ clamp_names ∧
    sampling0 ∈ sampling_names.
Proof.
  unfold init. destruct (max_distance metric0) as [D|] eqn:HD; [|done].
  simpl. repeat case_bool_decide; simpl; try done.
  intros [= <-]. exists D. split_and!; try done.
  unfold max_distance in HD. unfold metric_names.
  repeat case_bool_decide; subst; try done; rewrite !elem_of_cons; auto.
Qed.

Lemma sampler_names policy :
  policy ∈ sampling_names →
  ∃ f : list L → list Q → result samples, sampler policy = Ok f.
Proof.
  unfold sampling_names, sampler. rewrite !elem_of_cons.
  intros [->|[->|[->|[->|?%elem_of_nil]]]]; [..|done]; by eexists.
Qed.
End LossRun.

Lemma clamp_min_zero x : (x <= 0)%Q → (clamp_min 0 x == 0)%Q.
Proof.
  intros Hx. unfold clamp_min. destruct (Qltb x 0) eqn:Hlt; [reflexivity|].
  apply Qltb_ge in Hlt. by apply Qle_antisym.
Qed.

Lemma clamp_min_mono x1 x2 :
  (x1 <= x2)%Q → (clamp_min 0 x1 <= clamp_min 0 x2)%Q.
Proof.
  intros Hx. unfold clamp_min.
  destruct (Qltb x1 0) eqn:H1, (Qltb x2 0) eqn:H2;
    rewrite ?Qltb_lt, ?Qltb_ge in *; lra.
Qed.

(** ** Evaluation on the sample batches *)

Example squareform_scenario :
  squareform scenario_distances =
  Ok [[0; 1 # 10; 9 # 10; 7 # 10]; [1 # 10; 0; 8 # 10; 6 # 10];
      [9 # 10; 8 # 10; 0; 2 # 10]; [7 # 10; 6 # 10; 2 # 10; 0]]%Q.
Proof. reflexivity. Qed.

Example squareform_bad_length : squareform [1 # 2; 1 # 3]%Q = Raise ValueError.
Proof. reflexivity. Qed.

Example batch_hard_scenario :
  batch_hard scenario_y scenario_distances =
  Ok ([0; 1; 2; 3], [1; 0; 3; 2], [3; 3; 1; 1]).
Proof. vm_compute. reflexivity. Qed.

Example batch_negative_scenario :
  batch_negative scenario_y scenario_distances =
  Ok ([0; 1; 2; 3], [1; 0; 3; 2], [3; 3; 1; 1]).
Proof. vm_compute. reflexivity. Qed.

Example batch_easy_scenario :
  batch_easy scenario_y scenario_distances =
  Ok ([0; 0; 1; 1; 2; 2; 3; 3], [1; 1; 0; 0; 3; 3; 2; 2],
      [2; 3; 2; 3; 0; 1; 0; 1]).
Proof. vm_compute. reflexivity. Qed.

Example batch_hard_tie :
  batch_hard ["A"; "A"; "B"; "B"]%string [1 # 2; 1 # 3; 1 # 3; 1; 1; 1]%Q =
  Ok ([0; 1; 2; 3], [1; 0; 3; 2], [2; 2; 0; 0]).
Proof. vm_compute. reflexivity. Qed.

Example triplet_loss_scenario :
  ∃ losses deltas,
    triplet_loss id id
      {| metric := "cosine"; margin := 4 # 10; margin_ := 8 # 10;
         clamp := "positive"; sampling := "hard" |}
      scenario_distances [0; 1; 2; 3] [1; 0; 3; 2] [3; 3; 1; 1] =
    Ok (losses, deltas, [0; 0; 5; 5]%Z, [2; 4; 3; 4]%Z) ∧
    Forall2 Qeq deltas [-(6 # 10); -(5 # 10); -(6 # 10); -(4 # 10)]%Q ∧
    Forall2 Qeq losses [2 # 10; 3 # 10; 2 # 10; 4 # 10]%Q.
Proof.
  eexists _, _. split; [vm_compute; reflexivity|].
  split; repeat (constructor; [by vm_compute|]); constructor.
Qed.

Example estimate_n_scenario : estimate_n (length scenario_distances) = 4.
Proof. reflexivity. Qed.
(** ** The batch size estimate in binary64

    [int(.5 * (1 + np.sqrt(1 + 8 * m)))] is evaluated by numpy on binary64
    numbers. The primitive floats are related to the functions of
    [SpecFloat] by the axioms of [FloatAxioms]; what follows are the facts
    on these functions needed to show that no rounding error survives when
    [1 + 8 * m] is the square of an odd integer: the conversion of an
    integer, the root, the sum with one and the halving. *)
Section Binary64.
Import SpecFloat FloatOps.
Local Open Scope Z_scope.

Lemma iter_pos_nat {A} (f : A → A) p x :
  iter_pos f p x = Nat.iter (Pos.to_nat p) f x.
Proof.
  revert x. induction p as [p IH|p IH|]; intros x.
  - rewrite Pos2Nat.inj_xI, Nat.iter_succ_r. cbn [iter_pos]. rewrite !IH.
    replace (2 * Pos.to_nat p)%nat with (Pos.to_nat p + Pos.to_nat p)%nat
      by lia.
    by rewrite Nat.iter_add.
  - rewrite Pos2Nat.inj_xO. cbn [iter_pos]. rewrite !IH.
    replace (2 * Pos.to_nat p)%nat with (Pos.to_nat p + Pos.to_nat p)%nat
      by lia.
    by rewrite Nat.iter_add.
  - done.
Qed.

Lemma shr_1_spec m r s :
  0 ≤ m →
  shr_1 {| shr_m := m; shr_r := r; shr_s := s |} =
  {| shr_m := m / 2; shr_r := Z.odd m; shr_s := r || s |}.
Proof.
  intros Hm. rewrite <-Z.div2_div.
  destruct m as [|[p|p|]|]; try done; lia.
Qed.

Lemma pow2_pos k : 0 ≤ k → 0 < 2 ^ k.
Proof. intros. by apply Z.pow_pos_nonneg. Qed.

Lemma mod_pow2_succ m k :
  0 ≤ k →
  m mod 2 ^ (k + 1) =
  m mod 2 ^ k + 2 ^ k * (if Z.odd (m / 2 ^ k) then 1 else 0).
Proof.
  intros Hk. pose proof (pow2_pos k Hk).
  rewrite Z.pow_add_r, Z.pow_1_r by lia.
  rewrite Z.rem_mul_r by lia. by rewrite Zmod_odd.
Qed.

Lemma shr_iter k m :
  0 ≤ m → (1 ≤ k)%nat →
  Nat.iter k shr_1 {| shr_m := m; shr_r := false; shr_s := false |} =
  {| shr_m := m / 2 ^ Z.of_nat k;
     shr_r := Z.odd (m / 2 ^ (Z.of_nat k - 1));
     shr_s := negb (m mod 2 ^ (Z.of_nat k - 1) =? 0) |}.
Proof.
  intros Hm Hk. induction k as [|k IH]; [lia|].
  destruct (decide (k = 0%nat)) as [->|Hk0].
  { cbn [Nat.iter nat_rect]. rewrite shr_1_spec by done.
    change (Z.of_nat 1) with 1. change (1 - 1) with 0.
    by rewrite Z.pow_1_r, Z.pow_0_r, Z.div_1_r, Z.mod_1_r. }
  pose proof (pow2_pos (Z.of_nat k) ltac:(lia)).
  pose proof (pow2_pos (Z.of_nat k - 1) ltac:(lia)).
  rewrite Nat.iter_succ, IH by lia.
  rewrite shr_1_spec by (apply Z.div_pos; lia).
  replace (Z.of_nat (S k) - 1) with (Z.of_nat k) by lia.
  f_equal.
  - rewrite Z.div_div by lia. f_equal.
    rewrite Nat2Z.inj_succ, Z.pow_succ_r; lia.
  - pose proof (mod_pow2_succ m (Z.of_nat k - 1) ltac:(lia)) as Hmod.
    replace (Z.of_nat k - 1 + 1) with (Z.of_nat k) in Hmod by lia.
    rewrite Hmod.
    pose proof (Z.mod_pos_bound m (2 ^ (Z.of_nat k - 1)) ltac:(lia)).
    destruct (Z.odd _); simpl.
    + symmetry. apply negb_true_iff, Z.eqb_neq. lia.
    + by rewrite Z.mul_0_r, Z.add_0_r.
Qed.

Lemma round_shr m j :
  0 ≤ m → 1 ≤ j →
  let R := Nat.iter (Z.to_nat j) shr_1
             {| shr_m := m; shr_r := false; shr_s := false |} in
  let m1 := round_nearest_even (shr_m R) (loc_of_shr_record R) in
  shr_m R = m / 2 ^ j ∧
  m / 2 ^ j ≤ m1 ≤ m / 2 ^ j + 1 ∧
  2 * Z.abs (m1 * 2 ^ j - m) ≤ 2 ^ j ∧
  (m mod 2 ^ j = 0 → R = {| shr_m := m / 2 ^ j; shr_r := false;
                            shr_s := false |}).
Proof.
  intros Hm Hj. rewrite shr_iter by lia. rewrite Z2Nat.id by lia.
  cbn [shr_m].
  pose proof (pow2_pos (j - 1) ltac:(lia)) as HP.
  pose proof (mod_pow2_succ m (j - 1) ltac:(lia)) as Hmod.
  replace (j - 1 + 1) with j in Hmod by lia.
  assert (2 ^ j = 2 * 2 ^ (j - 1)) as Hj2.
  { rewrite <-Z.pow_succ_r by lia. f_equal. lia. }
  pose proof (Z.div_mod m (2 ^ j) ltac:(lia)) as Hdiv.
  pose proof (Z.mod_pos_bound m (2 ^ (j - 1)) ltac:(lia)) as Hb.
  rewrite Hmod in Hdiv. rewrite Hmod. rewrite Hj2 in Hdiv at 1.
  revert Hdiv. generalize (m / 2 ^ j). intros q Hdiv.
  rewrite Hj2. clear Hmod Hj2. revert HP Hb Hdiv.
  generalize (m mod 2 ^ (j - 1)). generalize (2 ^ (j - 1)).
  intros P b HP Hb Hdiv.
  unfold loc_of_shr_record, round_nearest_even.
  destruct (Z.odd (m / P)); destruct (Z.eqb_spec b 0) as [Hb0|Hb0]; simpl;
    try destruct (Z.even q); split_and!; try done; try nia.
Qed.

Lemma digits2_pos_spec p :
  2 ^ (Zpos (digits2_pos p) - 1) ≤ Zpos p < 2 ^ Zpos (digits2_pos p).
Proof.
  induction p as [p IH|p IH|]; cbn [digits2_pos];
    rewrite ?Pos2Z.inj_succ; [| |done].
  - replace (Z.succ (Zpos (digits2_pos p)) - 1)
      with (Z.succ (Zpos (digits2_pos p) - 1)) by lia.
    rewrite !Z.pow_succ_r by lia. lia.
  - replace (Z.succ (Zpos (digits2_pos p)) - 1)
      with (Z.succ (Zpos (digits2_pos p) - 1)) by lia.
    rewrite !Z.pow_succ_r by lia. lia.
Qed.

Lemma Zdigits2_unique z d :
  0 < d → 2 ^ (d - 1) ≤ z < 2 ^ d → Zdigits2 z = d.
Proof.
  intros Hd [Hlo Hhi]. pose proof (pow2_pos (d - 1) ltac:(lia)).
  destruct z as [|p|p]; [lia| |lia]. cbn [Zdigits2].
  pose proof (digits2_pos_spec p) as [Hlo' Hhi'].
  destruct (Z.lt_trichotomy (Zpos (digits2_pos p)) d) as [Hlt|[Heq|Hgt]];
    [|done|].
  - pose proof (Z.pow_le_mono_r 2 (Zpos (digits2_pos p)) (d - 1)
                  ltac:(lia) ltac:(lia)). lia.
  - pose proof (Z.pow_le_mono_r 2 d (Zpos (digits2_pos p) - 1)
                  ltac:(lia) ltac:(lia)). lia.
Qed.

Lemma Zdigits2_spec z :
  0 < z → 0 < Zdigits2 z ∧ 2 ^ (Zdigits2 z - 1) ≤ z < 2 ^ Zdigits2 z.
Proof.
  destruct z as [|p|p]; [lia| |lia]. intros _. cbn [Zdigits2].
  split; [lia|apply digits2_pos_spec].
Qed.

Lemma fexp_normal e : -1021 ≤ e → fexp prec emax e = e - 53.
Proof. unfold fexp, SpecFloat.emin, prec, emax. lia. Qed.

Lemma pos_iter_xO p k : Zpos (Pos.iter xO p k) = Zpos p * 2 ^ Zpos k.
Proof.
  induction k as [|k IH] using Pos.peano_ind.
  - simpl. lia.
  - rewrite Pos.iter_succ, Pos2Z.inj_xO, IH, Pos2Z.inj_succ, Z.pow_succ_r; lia.
Qed.

Lemma loc_of_shr_record_of_loc m l :
  loc_of_shr_record (shr_record_of_loc m l) = l ∧
  shr_m (shr_record_of_loc m l) = m.
Proof. by destruct l as [|[]]. Qed.

Lemma shr_fexp_shift m e l d :
  Zdigits2 m = d → -1021 ≤ d + e →
  shr_fexp prec emax m e l = shr (shr_record_of_loc m l) e (d - 53).
Proof.
  intros Hd He. unfold shr_fexp. rewrite Hd, fexp_normal by done.
  f_equal. lia.
Qed.

(** The second half of [binary_round_aux]: what the first shift leaves,
    rounded to the nearest even, has 53 bits and is the mantissa. *)
Lemma binary_round_aux_shr sx mx ex lx R e1 :
  shr_fexp prec emax mx ex lx = (R, e1) →
  2 ^ 52 ≤ round_nearest_even (shr_m R) (loc_of_shr_record R) < 2 ^ 53 →
  -1074 ≤ e1 ≤ 971 →
  binary_round_aux prec emax sx mx ex lx =
  S754_finite sx
    (Z.to_pos (round_nearest_even (shr_m R) (loc_of_shr_record R))) e1.
Proof.
  intros Hshr Hm1 He. unfold binary_round_aux. rewrite Hshr.
  rewrite (shr_fexp_shift _ _ _ 53)
    by (try apply Zdigits2_unique; try done; lia).
  cbn [Z.sub Z.opp Z.add Z.pos_sub Pos.pred_double shr shr_record_of_loc shr_m].
  change (53 - 53) with 0. cbn [shr shr_m].
  destruct (round_nearest_even _ _) as [|m1|m1]; [lia| |lia].
  replace (e1 <=? emax - prec) with true; [done|].
  symmetry. apply Z.leb_le. unfold emax, prec. lia.
Qed.

(** The same when rounding carries into a 54th bit. *)
Lemma binary_round_aux_shr_carry sx mx ex lx R e1 :
  shr_fexp prec emax mx ex lx = (R, e1) →
  round_nearest_even (shr_m R) (loc_of_shr_record R) = 2 ^ 53 →
  -1074 ≤ e1 ≤ 970 →
  binary_round_aux prec emax sx mx ex lx =
  S754_finite sx (Z.to_pos (2 ^ 52)) (e1 + 1).
Proof.
  intros Hshr Hm1 He. unfold binary_round_aux. rewrite Hshr, Hm1.
  rewrite (shr_fexp_shift _ _ _ 54) by (done || lia).
  change (54 - 53) with 1. cbn [shr iter_pos shr_record_of_loc].
  rewrite shr_1_spec by done. cbn [shr_m].
  change (2 ^ 53 / 2) with (2 ^ 52).
  change (2 ^ 52) with (Zpos (Z.to_pos (2 ^ 52))) at 1. cbv iota.
  replace (e1 + 1 <=? emax - prec) with true; [done|].
  symmetry. apply Z.leb_le. unfold emax, prec. lia.
Qed.

(** Rounding a 53-bit integer with the location of what was cut off. *)
Lemma binary_round_aux_53 sx q e l :
  2 ^ 52 ≤ q < 2 ^ 53 → -1074 ≤ e ≤ 971 →
  2 ^ 52 ≤ round_nearest_even q l < 2 ^ 53 →
  binary_round_aux prec emax sx q e l =
  S754_finite sx (Z.to_pos (round_nearest_even q l)) e.
Proof.
  intros Hq He Hm1.
  destruct (loc_of_shr_record_of_loc q l) as [Hl Hm].
  rewrite (binary_round_aux_shr sx q e l (shr_record_of_loc q l) e).
  - by rewrite Hl, Hm.
  - rewrite (shr_fexp_shift _ _ _ 53); [done| |lia].
    by apply Zdigits2_unique.
  - by rewrite Hl, Hm.
  - done.
Qed.

(** A 53-bit integer followed by [j] zero bits is rounded to itself. *)
Lemma binary_round_aux_exact sx m0 j e :
  2 ^ 52 ≤ m0 < 2 ^ 53 → 0 ≤ j → -1074 ≤ e → e + j ≤ 971 →
  binary_round_aux prec emax sx (m0 * 2 ^ j) e loc_Exact =
  S754_finite sx (Z.to_pos m0) (e + j).
Proof.
  intros Hm0 Hj He Hej.
  destruct (decide (j = 0)) as [->|Hj0].
  { rewrite Z.pow_0_r, Z.mul_1_r, Z.add_0_r.
    by rewrite binary_round_aux_53 by (done || lia). }
  pose proof (pow2_pos j Hj) as Hpos.
  assert (Zdigits2 (m0 * 2 ^ j) = 53 + j) as Hd.
  { apply Zdigits2_unique; [lia|].
    replace (53 + j - 1) with (52 + j) by lia.
    rewrite !Z.pow_add_r by lia. nia. }
  pose proof (round_shr (m0 * 2 ^ j) j ltac:(nia) ltac:(lia)) as Hround.
  cbv zeta in Hround. destruct Hround as (_ & _ & _ & HR).
  rewrite Z.mod_mul, Z.div_mul in HR by lia. specialize (HR eq_refl).
  replace (Z.to_pos m0)
    with (Z.to_pos (round_nearest_even
            (shr_m {| shr_m := m0; shr_r := false; shr_s := false |})
            (loc_of_shr_record
               {| shr_m := m0; shr_r := false; shr_s := false |})))
    by done.
  apply binary_round_aux_shr; [|done|lia].
  rewrite (shr_fexp_shift _ _ _ _ Hd) by lia.
  replace (53 + j - 53) with j by lia.
  destruct j as [|pj|pj]; [done| |lia].
  cbn [shr shr_record_of_loc]. rewrite iter_pos_nat.
  by rewrite <-HR.
Qed.

(** Rounding an integer of more than 53 bits: the result is within half a
    unit of the last kept bit. *)
Lemma binary_round_aux_round sx M j e :
  1 ≤ j → 2 ^ (52 + j) ≤ M < 2 ^ (53 + j) → -1074 ≤ e → e + j ≤ 970 →
  ∃ m0 E,
    binary_round_aux prec emax sx M e loc_Exact = S754_finite sx m0 E ∧
    2 ^ 52 ≤ Zpos m0 < 2 ^ 53 ∧ e + j ≤ E ≤ e + j + 1 ∧
    2 * Z.abs (Zpos m0 * 2 ^ (E - e) - M) ≤ 2 ^ (E - e).
Proof.
  intros Hj HM He Hej.
  pose proof (pow2_pos j ltac:(lia)) as Hpos.
  pose proof (pow2_pos (52 + j) ltac:(lia)) as Hpos'.
  assert (Zdigits2 M = 53 + j) as Hd.
  { apply Zdigits2_unique; [lia|].
    by replace (53 + j - 1) with (52 + j) by lia. }
  pose proof (round_shr M j ltac:(lia) ltac:(lia)) as Hround.
  cbv zeta in Hround. destruct Hround as (Hq & Hm1 & Herr & _).
  set (R := Nat.iter (Z.to_nat j) shr_1
              {| shr_m := M; shr_r := false; shr_s := false |}) in *.
  assert (shr_fexp prec emax M e loc_Exact = (R, e + j)) as Hshr.
  { rewrite (shr_fexp_shift _ _ _ _ Hd) by lia.
    replace (53 + j - 53) with j by lia.
    destruct j as [|pj|pj]; [lia| |lia].
    cbn [shr shr_record_of_loc]. by rewrite iter_pos_nat. }
  assert (2 ^ 52 ≤ M / 2 ^ j < 2 ^ 53) as Hquot.
  { rewrite !Z.pow_add_r in HM by lia. split.
    - apply Z.div_le_lower_bound; lia.
    - apply Z.div_lt_upper_bound; lia. }
  set (m1 := round_nearest_even (shr_m R) (loc_of_shr_record R)) in *.
  destruct (decide (m1 = 2 ^ 53)) as [Hcarry|Hcarry].
  - exists (Z.to_pos (2 ^ 52)), (e + j + 1).
    split; [by apply (binary_round_aux_shr_carry _ _ _ _ R); [..|lia]|].
    split; [done|]. split; [lia|].
    replace (e + j + 1 - e) with (j + 1) by lia.
    rewrite Z.pow_add_r, Z.pow_1_r by lia.
    rewrite Hcarry in Herr. change (Zpos (Z.to_pos (2 ^ 52))) with (2 ^ 52).
    change (2 ^ 53) with (2 ^ 52 * 2) in Herr. lia.
  - exists (Z.to_pos m1), (e + j).
    assert (2 ^ 52 ≤ m1 < 2 ^ 53) as Hm1' by lia.
    split; [by apply (binary_round_aux_shr _ _ _ _ R); [..|lia]|].
    rewrite Z2Pos.id by lia. split; [done|]. split; [lia|].
    by replace (e + j - e) with j by lia.
Qed.
Lemma sqrtrem_near_square m' root :
  2 ^ 52 < root < 2 ^ 53 → 2 * Z.abs (m' - root * root) ≤ 2 ^ 53 →
  ∃ q r, Z.sqrtrem m' = (q, r) ∧ 2 ^ 52 ≤ q < 2 ^ 53 ∧
  round_nearest_even q
    (if r =? 0 then loc_Exact
     else loc_Inexact (if r <=? q then Lt else Gt)) = root.
Proof.
  intros HS Herr. assert (0 ≤ m') as Hm' by nia.
  pose proof (Z.sqrtrem_spec m' Hm') as Hspec.
  destruct (Z.sqrtrem m') as [q r]. destruct Hspec as [Hm Hr].
  exists q, r. split; [done|].
  assert (q = root ∧ r ≤ q ∨ q = root - 1 ∧ q < r) as Hq.
  { destruct (Z.le_gt_cases (root * root) m').
    - left. assert (q < root + 1) by nia. assert (root - 1 < q) by nia.
      split; [lia|]. nia.
    - right. assert (q < root) by nia. assert (root - 2 < q) by nia.
      split; [lia|]. nia. }
  destruct Hq as [[-> Hrq]|[-> Hrq]].
  - split; [lia|]. destruct (Z.eqb_spec r 0); [done|].
    destruct (Z.leb_spec r root); [done|lia].
  - split; [lia|]. destruct (Z.eqb_spec r 0); [lia|].
    destruct (Z.leb_spec r (root - 1)); [lia|]. simpl. lia.
Qed.

(** The conversion of a positive integer below 2^63: exact up to 53 bits,
    within half a unit of the last kept bit above. *)
Lemma binary_normalize_int z :
  0 < z < 2 ^ 63 →
  ∃ m0 E,
    binary_normalize prec emax z 0 false = S754_finite false m0 E ∧
    2 ^ 52 ≤ Zpos m0 < 2 ^ 53 ∧ -52 ≤ E ≤ 11 ∧
    (E ≤ 0 → Zpos m0 = z * 2 ^ (- E)) ∧
    (0 < E → 2 * Z.abs (Zpos m0 * 2 ^ E - z) ≤ 2 ^ E).
Proof.
  intros [Hz0 Hz]. destruct z as [|p|p]; [lia| |lia].
  cbn [binary_normalize]. unfold binary_round, shl_align.
  pose proof (digits2_pos_spec p) as Hd.
  set (d := Zpos (digits2_pos p)) in *.
  assert (1 ≤ d ≤ 63) as Hd63.
  { split; [lia|]. destruct (Z.le_gt_cases d 63) as [|Hgt]; [done|].
    pose proof (Z.pow_le_mono_r 2 63 (d - 1) ltac:(lia) ltac:(lia)). lia. }
  rewrite Z.add_0_r, fexp_normal by lia.
  destruct (d - 53 - 0) as [|k|k] eqn:Hk.
  - exists p, 0. assert (d = 53) as Hd53 by lia. rewrite Hd53 in Hd.
    split.
    { rewrite binary_round_aux_53 by (done || lia). done. }
    split; [done|]. split; [lia|]. split; [|lia].
    intros _. simpl. lia.
  - destruct (binary_round_aux_round false (Zpos p) (d - 53) 0)
      as (m0 & E & Hround & Hm0 & HE & Herr); [lia| |lia|lia|].
    { replace (52 + (d - 53)) with (d - 1) by lia.
      by replace (53 + (d - 53)) with d by lia. }
    exists m0, E. split; [done|]. split; [done|]. split; [lia|].
    split; [lia|]. intros _. by rewrite Z.sub_0_r in Herr.
  - exists (Pos.iter xO p k), (d - 53).
    assert (Zpos k = 53 - d) as Hk' by lia.
    pose proof (pos_iter_xO p k) as Hshl. rewrite Hk' in Hshl.
    assert (2 ^ 52 ≤ Zpos (Pos.iter xO p k) < 2 ^ 53) as Hm0.
    { rewrite Hshl. pose proof (pow2_pos (53 - d) ltac:(lia)).
      pose proof (pow2_pos (d - 1) ltac:(lia)).
      replace (2 ^ 52) with (2 ^ (d - 1) * 2 ^ (53 - d))
        by (rewrite <-Z.pow_add_r by lia; f_equal; lia).
      replace (2 ^ 53) with (2 ^ d * 2 ^ (53 - d))
        by (rewrite <-Z.pow_add_r by lia; f_equal; lia).
      nia. }
    split.
    { rewrite binary_round_aux_53 by (done || lia). done. }
    split; [done|]. split; [lia|]. split; [|lia].
    intros _. rewrite Hshl. do 2 f_equal. lia.
Qed.

Lemma SFsqrt_core_binary_53 m0 E :
  2 ^ 52 ≤ Zpos m0 < 2 ^ 53 → -52 ≤ E ≤ 11 →
  SFsqrt_core_binary prec emax (Zpos m0) E =
  let (q, r) := Z.sqrtrem (Zpos m0 * 2 ^ (E - 2 * (E / 2 - 26))) in
  (q, E / 2 - 26,
   if r =? 0 then loc_Exact else loc_Inexact (if r <=? q then Lt else Gt)).
Proof.
  intros Hm0 HE. unfold SFsqrt_core_binary.
  rewrite (Zdigits2_unique (Zpos m0) 53) by done.
  rewrite !Z.div2_div.
  replace ((53 + E + 1) / 2) with (E / 2 + 27)
    by (Z.div_mod_to_equations; lia).
  rewrite fexp_normal by (Z.div_mod_to_equations; lia).
  rewrite Z.min_l by lia.
  replace (E / 2 + 27 - 53) with (E / 2 - 26) by lia.
  destruct (E - 2 * (E / 2 - 26)) as [|k|k] eqn:Hk;
    [Z.div_mod_to_equations; lia| |Z.div_mod_to_equations; lia].
  by rewrite Z.shiftl_mul_pow2 by lia.
Qed.

(** The root of a float within half a unit in the last place of the square
    of an odd integer [s] is [s], exactly. *)
Lemma SFsqrt_square m0 E s :
  2 ^ 52 ≤ Zpos m0 < 2 ^ 53 → -52 ≤ E ≤ 11 →
  3 ≤ s → Z.odd s = true →
  (E ≤ 0 → Zpos m0 = s * s * 2 ^ (- E)) →
  (0 < E → 2 * Z.abs (Zpos m0 * 2 ^ E - s * s) ≤ 2 ^ E) →
  ∃ K, 0 ≤ K ≤ 51 ∧ 2 ^ 52 ≤ s * 2 ^ K < 2 ^ 53 ∧
    SFsqrt prec emax (S754_finite false m0 E) =
    S754_finite false (Z.to_pos (s * 2 ^ K)) (- K).
Proof.
  intros Hm0 HE Hs Hodd Hexact Hround.
  set (K := 26 - E / 2). set (shift := E - 2 * (E / 2 - 26)).
  assert (21 ≤ K ≤ 52) as HK by (unfold K; Z.div_mod_to_equations; lia).
  assert (shift = 52 ∨ shift = 53) as Hshift
    by (unfold shift; Z.div_mod_to_equations; lia).
  assert (shift = E + 2 * K) as HshiftK by (unfold shift, K; lia).
  pose proof (pow2_pos K ltac:(lia)) as HpK.
  pose proof (pow2_pos (2 * K) ltac:(lia)) as HpKK.
  assert (2 ^ (2 * K) = 2 ^ K * 2 ^ K) as HKK
    by (rewrite <-Z.pow_add_r by lia; f_equal; lia).
  set (root := s * 2 ^ K).
  set (m' := Zpos m0 * 2 ^ shift).
  assert (2 * Z.abs (m' - root * root) ≤ 2 ^ 53) as Herr.
  { unfold m', root. destruct (Z.le_gt_cases E 0) as [HE0|HE0].
    - rewrite (Hexact HE0).
      replace (s * s * 2 ^ (- E) * 2 ^ shift) with (s * 2 ^ K * (s * 2 ^ K));
        [rewrite Z.sub_diag; simpl; lia|].
      assert (2 ^ (- E) * 2 ^ shift = 2 ^ K * 2 ^ K) as Hp.
      { rewrite <-!Z.pow_add_r by lia. f_equal. lia. }
      rewrite <-(Z.mul_assoc (s * s)), Hp. ring.
    - specialize (Hround HE0).
      pose proof (pow2_pos E ltac:(lia)) as HpE.
      replace (Zpos m0 * 2 ^ shift - s * 2 ^ K * (s * 2 ^ K))
        with ((Zpos m0 * 2 ^ E - s * s) * 2 ^ (2 * K))
        by (rewrite HshiftK, Z.pow_add_r, HKK by lia; ring).
      rewrite Z.abs_mul, (Z.abs_eq (2 ^ (2 * K))) by lia.
      assert (2 ^ E * 2 ^ (2 * K) ≤ 2 ^ 53) as Hle.
      { rewrite <-Z.pow_add_r by lia. apply Z.pow_le_mono_r; lia. }
      nia. }
  assert (2 ^ 104 ≤ m' ≤ 2 ^ 106 - 2 ^ 53) as Hm'.
  { unfold m'. destruct Hshift as [-> | ->]; lia. }
  assert (0 < root) as HS0 by (unfold root; nia).
  assert (2 ^ 52 ≤ root < 2 ^ 53) as HS.
  { clearbody m' root. split; nia. }
  assert (root ≠ 2 ^ 52) as HSne.
  { unfold root. intros Heq.
    assert (s * 2 ^ K = 2 ^ (52 - K) * 2 ^ K) as Heq'.
    { rewrite Heq, <-Z.pow_add_r by lia. f_equal. lia. }
    apply Z.mul_cancel_r in Heq'; [|lia].
    destruct (decide (K = 52)) as [->|HK52].
    - change (2 ^ (52 - 52)) with 1 in Heq'. lia.
    - rewrite Heq', Z.odd_pow in Hodd by lia. done. }
  assert (0 ≤ K ≤ 51) as HK51.
  { split; [lia|]. destruct (decide (K = 52)) as [HK52|]; [|lia].
    unfold root in HS. rewrite HK52 in HS. lia. }
  exists K. split; [done|]. split; [done|].
  unfold SFsqrt. rewrite SFsqrt_core_binary_53 by done.
  fold shift. fold m'.
  destruct (sqrtrem_near_square m' root ltac:(lia) Herr)
    as (q & r & -> & Hq & Hrne).
  rewrite binary_round_aux_53; [|done|unfold K in HK; lia|by rewrite Hrne].
  rewrite Hrne. f_equal. unfold K. lia.
Qed.

Lemma Prim2SF_one : Prim2SF 1%float = S754_finite false (Z.to_pos (2 ^ 52)) (-52).
Proof. reflexivity. Qed.

Lemma Prim2SF_half :
  Prim2SF 0.5%float = S754_finite false (Z.to_pos (2 ^ 52)) (-53).
Proof. reflexivity. Qed.

(** Adding one to the odd integer [2 n - 1] gives [2 n], exactly. *)
Lemma SFadd_one_odd n K :
  2 ≤ n < 2 ^ 52 → 0 ≤ K ≤ 51 →
  2 ^ 52 ≤ (2 * n - 1) * 2 ^ K < 2 ^ 53 →
  ∃ t, 1 ≤ t ≤ 51 ∧ 2 ^ 52 ≤ n * 2 ^ t < 2 ^ 53 ∧
    SFadd prec emax (S754_finite false (Z.to_pos (2 ^ 52)) (-52))
      (S754_finite false (Z.to_pos ((2 * n - 1) * 2 ^ K)) (- K)) =
    S754_finite false (Z.to_pos (n * 2 ^ t)) (1 - t).
Proof.
  intros Hn HK Hroot.
  destruct (Zdigits2_spec n ltac:(lia)) as [Hd0 Hd].
  set (d := Zdigits2 n) in *.
  assert (2 ≤ d ≤ 52) as Hd52.
  { split.
    - destruct (decide (d = 1)) as [Hd1|]; [|lia]. rewrite Hd1 in Hd. lia.
    - destruct (Z.le_gt_cases d 52) as [|Hgt]; [done|].
      pose proof (Z.pow_le_mono_r 2 52 (d - 1) ltac:(lia) ltac:(lia)). lia. }
  pose proof (pow2_pos (53 - d) ltac:(lia)) as Hpt.
  pose proof (pow2_pos (d - 1) ltac:(lia)) as Hpd.
  pose proof (pow2_pos K ltac:(lia)) as HpK.
  assert (2 ^ 52 ≤ n * 2 ^ (53 - d) < 2 ^ 53) as Hnt.
  { replace (2 ^ 52) with (2 ^ (d - 1) * 2 ^ (53 - d))
      by (rewrite <-Z.pow_add_r by lia; f_equal; lia).
    replace (2 ^ 53) with (2 ^ d * 2 ^ (53 - d))
      by (rewrite <-Z.pow_add_r by lia; f_equal; lia).
    nia. }
  exists (53 - d). split; [lia|]. split; [done|].
  unfold SFadd. rewrite Z.min_l by lia. unfold shl_align.
  change (-52 - -52) with 0. cbn [fst cond_Zopp].
  destruct (-52 - - K) as [|k|k] eqn:Hk; [lia|lia|]. cbn [fst].
  assert (Zpos (Z.to_pos (2 ^ 52)) +
          Zpos (Pos.iter xO (Z.to_pos ((2 * n - 1) * 2 ^ K)) k) =
          n * 2 ^ (53 - d) * 2 ^ d) as Hsum.
  { rewrite pos_iter_xO, !Z2Pos.id by lia.
    replace (Zpos k) with (52 - K) by lia.
    assert (2 ^ K * 2 ^ (52 - K) = 2 ^ 52) as Hp1
      by (rewrite <-Z.pow_add_r by lia; f_equal; lia).
    assert (2 ^ (53 - d) * 2 ^ d = 2 * 2 ^ 52) as Hp2.
    { rewrite <-Z.pow_add_r by lia. by replace (53 - d + d) with 53 by lia. }
    rewrite <-!Z.mul_assoc, Hp1, Hp2. lia. }
  rewrite <-Pos2Z.inj_add. rewrite <-Pos2Z.inj_add in Hsum.
  cbn [binary_normalize]. unfold binary_round, shl_align.
  pose proof (pow2_pos d ltac:(lia)) as Hpd'.
  assert (Zdigits2 (n * 2 ^ (53 - d) * 2 ^ d) = 53 + d) as Hdig.
  { apply Zdigits2_unique; [lia|].
    replace (53 + d - 1) with (52 + d) by lia.
    rewrite !Z.pow_add_r by lia. nia. }
  rewrite <-Hsum in Hdig. cbn [Zdigits2] in Hdig. rewrite Hdig.
  rewrite fexp_normal by lia.
  destruct (53 + d + -52 - 53 - -52) as [|j|j] eqn:Hj; [lia| |lia].
  rewrite Hsum, binary_round_aux_exact by (done || lia).
  f_equal. lia.
Qed.

(** Halving an even 53-bit float is exact. *)
Lemma SFmul_half m0 e :
  2 ^ 52 ≤ Zpos m0 < 2 ^ 53 → -1000 ≤ e ≤ 900 →
  SFmul prec emax (S754_finite false (Z.to_pos (2 ^ 52)) (-53))
    (S754_finite false m0 e) = S754_finite false m0 (e - 1).
Proof.
  intros Hm0 He. unfold SFmul. cbn [xorb].
  rewrite Pos2Z.inj_mul, Z.mul_comm.
  change (Zpos (Z.to_pos (2 ^ 52))) with (2 ^ 52).
  rewrite binary_round_aux_exact by (done || lia).
  rewrite Pos2Z.id. f_equal. lia.
Qed.

(** The binary64 evaluation of [int(.5 * (1 + sqrt(1 + 8 m)))] when
    [1 + 8 m] is the square of [2 n - 1] and fits 63 bits. *)
Lemma estimate_n_binary64_square m n :
  2 ≤ n → 1 + 8 * m = (2 * n - 1) * (2 * n - 1) → 1 + 8 * m < 2 ^ 63 →
  estimate_n_binary64 m = Some n.
Proof.
  intros Hn Hm Hlt.
  assert (n < 2 ^ 32) as Hn32 by nia.
  assert (0 < 1 + 8 * m) as Hpos by nia.
  unfold estimate_n_binary64, float_to_Z.
  rewrite FloatAxioms.mul_spec, FloatAxioms.add_spec, FloatAxioms.sqrt_spec,
    FloatAxioms.of_uint63_spec, Uint63.of_Z_spec, Prim2SF_one, Prim2SF_half.
  rewrite Z.mod_small by (change Uint63Axioms.wB with (2 ^ 63); lia).
  destruct (binary_normalize_int (1 + 8 * m) ltac:(lia))
    as (m0 & E & -> & Hm0 & HE & Hexact & Hround).
  rewrite Hm in Hexact, Hround.
  destruct (SFsqrt_square m0 E (2 * n - 1) Hm0 HE ltac:(lia)
              ltac:(by rewrite Z.odd_sub, Z.odd_mul) Hexact Hround)
    as (K & HK & HS & Hsqrt).
  unfold FloatAxioms.SF64mul, FloatAxioms.SF64add, FloatAxioms.SF64sqrt.
  rewrite Hsqrt.
  destruct (SFadd_one_odd n K ltac:(lia) HK HS) as (t & Ht & Hnt & ->).
  rewrite SFmul_half by (rewrite ?Z2Pos.id; lia).
  replace (1 - t - 1) with (- t) by lia.
  destruct (- t) as [|k|k] eqn:Hk; [lia|lia|].
  rewrite Z2Pos.id by lia. rewrite Z.shiftr_div_pow2 by lia.
  replace (Zpos k) with t by lia.
  by rewrite Z.div_mul by (pose proof (pow2_pos t); lia).
Qed.
(** The largest batch in range, 1518500250 items: here [1 + 8 * m] has 63
    bits and its conversion to a float is rounded. The value proved is the
    value computed. *)
Example estimate_n_binary64_largest :
  estimate_n_binary64 (1518500250 * 1518500249 / 2) = Some 1518500250.
Proof. by apply estimate_n_binary64_square. Qed.

Example estimate_n_binary64_largest_computed :
  estimate_n_binary64 (1518500250 * 1518500249 / 2) = Some 1518500250.
Proof. vm_compute. reflexivity. Qed.
End Binary64.

(** * The properties *)

(** C1: constructing a [TripletLoss] with an invalid [metric], [clamp] or
    [sampling] string raises at construction, so that no object exists; for
    every object that was constructed, the three strings are members of
    their allowed sets {euclidean, cosine, angular},
    {positive, sigmoid, softmargin} and {all, hard, negative, easy}. *)
Theorem init_validates (metric0 : string) (margin0 : Q)
    (clamp0 sampling0 : string) :
  (metric0 ∉ metric_names ∨ clamp0 ∉ clamp_names ∨
   sampling0 ∉ sampling_names →
   init metric0 margin0 clamp0 sampling0 = Raise ValueError) ∧
  (∀ self, init metric0 margin0 clamp0 sampling0 = Ok self →
     metric self ∈ metric_names ∧ clamp self ∈ clamp_names ∧
     sampling self ∈ sampling_names).
Proof.
  split.
  - intros Hbad. unfold init, max_distance, metric_names in *.
    repeat case_bool_decide; simpl; repeat case_bool_decide; simpl;
      try done; exfalso; subst;
      destruct Hbad as [Hbad|[Hbad|Hbad]]; try done;
      apply Hbad; rewrite !elem_of_cons; auto.
  - intros self (D & _ & -> & Hm & Hc & Hs)%init_inv. done.
Qed.

Lemma init_validates_witness :
  init "manhattan" (2 # 10) "positive" "all" = Raise ValueError ∧
  init "cosine" (2 # 10) "relu" "all" = Raise ValueError ∧
  init "cosine" (2 # 10) "positive" "semihard" = Raise ValueError ∧
  ∃ self, init "cosine" (2 # 10) "positive" "all" = Ok self ∧
          metric self ∈ metric_names ∧ clamp self ∈ clamp_names ∧
          sampling self ∈ sampling_names.
Proof.
  split_and!.
  - apply (proj1 (init_validates "manhattan" (2 # 10) "positive" "all")).
    left. apply (bool_decide_unpack _). vm_compute. exact I.
  - apply (proj1 (init_validates "cosine" (2 # 10) "relu" "all")).
    right; left. apply (bool_decide_unpack _). vm_compute. exact I.
  - apply (proj1 (init_validates "cosine" (2 # 10) "positive" "semihard")).
    right; right. apply (bool_decide_unpack _). vm_compute. exact I.
  - eexists. split; [reflexivity|].
    apply (proj2 (init_validates "cosine" (2 # 10) "positive" "all")).
    reflexivity.
Defined.

(** C2, as the code has it: a batch of one label makes the [hard] and the
    [negative] sampler raise ([np.argmin] of an empty selection). *)
Lemma single_label_hard_negative_raise :
  batch_hard single_label_y single_label_distances = Raise ValueError ∧
  batch_negative single_label_y single_label_distances = Raise ValueError.
Proof. split; vm_compute; reflexivity. Qed.

(** C2, amended: on a valid batch the [all] and the [easy] sampler do not
    raise, an anchor with no same-label partner or no different-label
    example contributes none of their triplets, and a batch of one label
    gives three empty lists; the [negative] sampler does the same for an
    anchor with no same-label partner when every anchor has an example of
    another label. *)
Theorem degenerate_anchor_skipped {L : Type} `{EqDecision L} (y : list L)
    (distances : list Q) :
  length distances = condensed_length (length y) →
  (∀ policy, policy = "all"%string ∨ policy = "easy"%string →
     ∃ f s, sampler policy = Ok f ∧ f y distances = Ok s ∧
       (∀ a, partners y a = [] ∨ others y a = [] →
             ∀ t, t ∈ triplets s → t.1.1 ≠ a) ∧
       ((∀ i j li lj, y !! i = Some li → y !! j = Some lj → li = lj) →
        s = ([], [], []))) ∧
  ((∀ a, a < length y → others y a ≠ []) →
   ∃ s, batch_negative y distances = Ok s ∧
     ∀ a, partners y a = [] → ∀ t, t ∈ triplets s → t.1.1 ≠ a).
Proof.
  intros valid. split.
  - assert (∀ ts : list (nat * nat * nat),
      (∀ a p n, (a, p, n) ∈ ts → p ∈ partners y a ∧ n ∈ others y a) →
      (∀ a, partners y a = [] ∨ others y a = [] →
            ∀ t, t ∈ triplets (columns ts) → t.1.1 ≠ a) ∧
      ((∀ i j li lj, y !! i = Some li → y !! j = Some lj → li = lj) →
       columns ts = ([], [], []))) as Hskip.
    { intros ts Hts. split.
      - intros a Hdeg [[a' p] n]. rewrite triplets_columns.
        intros [Hp Hn]%Hts. simpl. intros ->.
        destruct Hdeg as [Hdeg|Hdeg]; rewrite Hdeg in *;
          by eapply not_elem_of_nil.
      - intros Hone. rewrite (elem_of_nil_inv ts); [done|].
        intros [[a p] n] [Hp Hn]%Hts.
        apply elem_of_partners in Hp as (_ & l & _ & Ha).
        rewrite single_label_others in Hn; [by eapply not_elem_of_nil|done|].
        by eapply lookup_lt_Some. }
    intros policy [->| ->].
    + exists batch_all, (columns (spec_all y)).
      split_and!; [done|apply batch_all_spec|..]; apply Hskip;
        intros a p n; by rewrite elem_of_spec_all.
    + exists batch_easy,
        (columns (spec_easy y (square_entry (length y) distances))).
      split_and!; [done|by apply batch_easy_spec|..]; apply Hskip;
        intros a p n; rewrite elem_of_spec_easy; tauto.
  - intros Hneg. eexists. split; [by apply batch_negative_spec|].
    intros a Ha [[a' p] n]. rewrite triplets_columns.
    intros (a'' & (p' & Ht & Hp)%list_elem_of_bind & _)%list_elem_of_bind.
    apply list_elem_of_singleton in Ht as [= -> -> ->]. simpl. intros ->.
    rewrite Ha in Hp. by eapply not_elem_of_nil.
Qed.

Lemma degenerate_anchor_skipped_witness :
  (∀ policy, policy = "all"%string ∨ policy = "easy"%string →
     ∃ f s, sampler policy = Ok f ∧
       f single_label_y single_label_distances = Ok s ∧
       (∀ a, partners single_label_y a = [] ∨ others single_label_y a = [] →
             ∀ t, t ∈ triplets s → t.1.1 ≠ a) ∧
       ((∀ i j li lj, single_label_y !! i = Some li →
           single_label_y !! j = Some lj → li = lj) →
        s = ([], [], []))) ∧
  ((∀ a, a < length single_label_y → others single_label_y a ≠ []) →
   ∃ s, batch_negative single_label_y single_label_distances = Ok s ∧
     ∀ a, partners single_label_y a = [] →
          ∀ t, t ∈ triplets s → t.1.1 ≠ a).
Proof.
  apply (degenerate_anchor_skipped single_label_y single_label_distances).
  reflexivity.
Defined.

(** C3: every triplet (anchor, positive, negative) returned by any of the
    four sampling policies satisfies label[anchor] = label[positive],
    label[anchor] ≠ label[negative] and anchor ≠ positive; the three lists
    have one length. *)
Theorem sampled_triplets_invariant {L : Type} `{EqDecision L}
    (policy : string) (f : list L → list Q → result samples) (y : list L)
    (distances : list Q) (anchors positives negatives : list nat) :
  sampler policy = Ok f →
  f y distances = Ok (anchors, positives, negatives) →
  length anchors = length positives ∧ length positives = length negatives ∧
  ∀ k anchor positive negative,
    anchors !! k = Some anchor → positives !! k = Some positive →
    negatives !! k = Some negative →
    ∃ l_anchor l_negative,
      y !! anchor = Some l_anchor ∧ y !! positive = Some l_anchor ∧
      y !! negative = Some l_negative ∧ l_anchor ≠ l_negative ∧
      anchor ≠ positive.
Proof.
  intros Hf Hrun. pose proof (sampler_sound _ _ _ _ _ Hf Hrun) as Hs.
  destruct (sound_lengths _ _ Hs) as [H1 H2]. split_and!; [done..|].
  intros k a p n Ha Hp Hn. exact (sound_lookup y _ k a p n Hs Ha Hp Hn).
Qed.

Lemma sampled_triplets_invariant_witness :
  length [0; 1; 2; 3] = length [1; 0; 3; 2] ∧
  length [1; 0; 3; 2] = length [3; 3; 1; 1] ∧
  ∀ k anchor positive negative,
    [0; 1; 2; 3] !! k = Some anchor → [1; 0; 3; 2] !! k = Some positive →
    [3; 3; 1; 1] !! k = Some negative →
    ∃ l_anchor l_negative,
      scenario_y !! anchor = Some l_anchor ∧
      scenario_y !! positive = Some l_anchor ∧
      scenario_y !! negative = Some l_negative ∧ l_anchor ≠ l_negative ∧
      anchor ≠ positive.
Proof.
  apply (sampled_triplets_invariant "hard" batch_hard scenario_y
           scenario_distances).
  - reflexivity.
  - vm_compute. reflexivity.
Defined.

(** C4: the [all] policy returns, for every anchor in batch order, every
    other index with the same label combined with every index with a
    different label (anchor-major, then positive, then negative); on
    y = [A, A, B, B] these are the eight triplets
    (0,1,2),(0,1,3),(1,0,2),(1,0,3),(2,3,0),(2,3,1),(3,2,0),(3,2,1). *)
Theorem batch_all_enumerates :
  (∀ (L : Type) (eqL : EqDecision L) (y : list L) (distances : list Q),
     ∃ s, batch_all y distances = Ok s ∧ s = columns (spec_all y) ∧
          triplets s = spec_all y) ∧
  (∃ s, batch_all scenario_y scenario_distances = Ok s ∧
        triplets s = [(0,1,2); (0,1,3); (1,0,2); (1,0,3);
                      (2,3,0); (2,3,1); (3,2,0); (3,2,1)]).
Proof.
  split.
  - intros L eqL y distances. exists (columns (spec_all y)).
    split_and!; [apply batch_all_spec | done | apply triplets_columns].
  - eexists. split; [vm_compute; reflexivity | reflexivity].
Qed.

(** C5: when every anchor has a same-label partner and an example of another
    label, the [hard] policy returns exactly one triplet per anchor, in
    batch order; its positive is the partner at maximum distance from the
    anchor, its negative the index of another label at minimum distance,
    and among tied candidates the first in batch order is taken. *)
Theorem batch_hard_selects {L : Type} `{EqDecision L} (y : list L)
    (distances : list Q) :
  length distances = condensed_length (length y) →
  (∀ a, a < length y → partners y a ≠ [] ∧ others y a ≠ []) →
  ∃ positives negatives,
    batch_hard y distances = Ok (seq 0 (length y), positives, negatives) ∧
    length positives = length y ∧ length negatives = length y ∧
    ∀ a, a < length y →
      ∃ p n, positives !! a = Some p ∧ negatives !! a = Some n ∧
        hardest_positive y (square_entry (length y) distances) a p ∧
        hardest_negative y (square_entry (length y) distances) a n.
Proof.
  intros valid Hcand. rewrite (batch_hard_spec y distances valid Hcand).
  rewrite columns_bind_singleton. eexists _, _. split; [done|].
  rewrite !length_fmap, !length_seq. split_and!; [done..|].
  intros a Ha. destruct (Hcand a Ha) as [Hpos Hneg].
  eexists _, _. rewrite !list_lookup_fmap, !lookup_seq_lt by done. simpl.
  split_and!; [done..| |].
  - destruct (argmax_pick (square_entry (length y) distances a)
      (partners y a) Hpos (partners_sorted y a))
      as (k & p & _ & Hk & -> & Hmax & Hfirst).
    split_and!; [by eapply list_elem_of_lookup_2|done..].
  - destruct (argmin_pick (square_entry (length y) distances a)
      (others y a) Hneg (others_sorted y a))
      as (k & n & _ & Hk & -> & Hmin & Hfirst).
    split_and!; [by eapply list_elem_of_lookup_2|done..].
Qed.

Lemma scenario_candidates a :
  a < length scenario_y →
  partners scenario_y a ≠ [] ∧ others scenario_y a ≠ [].
Proof.
  intros Ha. do 4 (destruct a as [|a]; [by vm_compute|]).
  simpl in Ha. lia.
Defined.

Lemma batch_hard_selects_witness :
  ∃ positives negatives,
    batch_hard scenario_y scenario_distances =
      Ok (seq 0 (length scenario_y), positives, negatives) ∧
    length positives = length scenario_y ∧
    length negatives = length scenario_y ∧
    ∀ a, a < length scenario_y →
      ∃ p n, positives !! a = Some p ∧ negatives !! a = Some n ∧
        hardest_positive scenario_y
          (square_entry (length scenario_y) scenario_distances) a p ∧
        hardest_negative scenario_y
          (square_entry (length scenario_y) scenario_distances) a n.
Proof.
  apply (batch_hard_selects scenario_y scenario_distances).
  - reflexivity.
  - exact scenario_candidates.
Defined.

(** C6: when every anchor has an example of another label, the [negative]
    policy returns one triplet per (anchor, same-label partner) pair, in
    batch order, and the negative of each is the index of another label at
    minimum distance from the anchor, one and the same for all the triplets
    of that anchor. *)
Theorem batch_negative_selects {L : Type} `{EqDecision L} (y : list L)
    (distances : list Q) :
  length distances = condensed_length (length y) →
  (∀ a, a < length y → others y a ≠ []) →
  ∃ (s : samples) (negative_of : nat → nat),
    batch_negative y distances = Ok s ∧
    s = columns (a ← seq 0 (length y); p ← partners y a;
                 [(a, p, negative_of a)]) ∧
    triplets s = (a ← seq 0 (length y); p ← partners y a;
                  [(a, p, negative_of a)]) ∧
    ∀ a, a < length y →
      hardest_negative y (square_entry (length y) distances) a (negative_of a).
Proof.
  intros valid Hcand.
  eexists _, (λ a, pick np_argmin (square_entry (length y) distances a)
                     (others y a)).
  split_and!; [by apply batch_negative_spec|done|apply triplets_columns|].
  intros a Ha.
  destruct (argmin_pick (square_entry (length y) distances a)
    (others y a) (Hcand a Ha) (others_sorted y a))
    as (k & n & _ & Hk & -> & Hmin & Hfirst).
  split_and!; [by eapply list_elem_of_lookup_2|done..].
Qed.

Lemma batch_negative_selects_witness :
  ∃ (s : samples) (negative_of : nat → nat),
    batch_negative scenario_y scenario_distances = Ok s ∧
    s = columns (a ← seq 0 (length scenario_y); p ← partners scenario_y a;
                 [(a, p, negative_of a)]) ∧
    triplets s = (a ← seq 0 (length scenario_y); p ← partners scenario_y a;
                  [(a, p, negative_of a)]) ∧
    ∀ a, a < length scenario_y →
      hardest_negative scenario_y
        (square_entry (length scenario_y) scenario_distances) a
        (negative_of a).
Proof.
  apply (batch_negative_selects scenario_y scenario_distances).
  - reflexivity.
  - intros a Ha. exact (proj2 (scenario_candidates a Ha)).
Defined.

(** C7: on a valid batch the [easy] policy returns the triplet
    (anchor, positive, negative) exactly when label[anchor] =
    label[positive], anchor ≠ positive, label[negative] ≠ label[anchor] and
    d(anchor, positive) ≤ d(anchor, negative), equal distances included; on
    y = [A, A, B, B] anchor 0 with positive 1 gives (0,1,2) and (0,1,3). *)
Theorem batch_easy_admits :
  (∀ (L : Type) (eqL : EqDecision L) (y : list L) (distances : list Q),
     length distances = condensed_length (length y) →
     ∃ s, batch_easy y distances = Ok s ∧
       s = columns (triplets s) ∧
       ∀ a p n,
         (a, p, n) ∈ triplets s ↔
         ∃ l ln, y !! a = Some l ∧ y !! p = Some l ∧ a ≠ p ∧
                 y !! n = Some ln ∧ ln ≠ l ∧
                 (square_entry (length y) distances a p <=
                  square_entry (length y) distances a n)%Q) ∧
  (∃ s, batch_easy scenario_y scenario_distances = Ok s ∧
        filter (λ t, t.1 = (0, 1)) (triplets s) = [(0, 1, 2); (0, 1, 3)]).
Proof.
  split.
  - intros L eqL y distances valid.
    eexists. split; [by apply batch_easy_spec|].
    rewrite triplets_columns. split; [done|].
    intros a p n. rewrite elem_of_spec_easy, elem_of_partners, elem_of_others.
    split.
    + intros ((Hap & l & Hp & Ha) & (ln & Hn & Hne) & Hle).
      exists l, ln. split_and!; try done; congruence.
    + intros (l & ln & Ha & Hp & Hap & Hn & Hne & Hle).
      split_and!; [done|by exists l|exists ln; split; congruence|done].
  - eexists. split; vm_compute; reflexivity.
Qed.

(** With a tie, d(0,1) = d(0,2), the triplet (0,1,2) is returned. *)
Lemma batch_easy_admits_witness :
  ∃ s, batch_easy tie_y tie_distances = Ok s ∧
    s = columns (triplets s) ∧
    (0, 1, 2) ∈ triplets s.
Proof.
  destruct (proj1 batch_easy_admits string _ tie_y tie_distances eq_refl)
    as (s & Hs & Hcol & Hiff).
  exists s. split_and!; [exact Hs|exact Hcol|].
  apply Hiff. exists "A"%string, "B"%string.
  split_and!; [reflexivity|reflexivity|lia|reflexivity|discriminate|].
  vm_compute. discriminate.
Defined.

(** C8: for an object constructed with [positive] clamping the margin is
    margin_factor × D, D the maximum distance of the metric. For every list
    of triplets of a valid batch [triplet_loss] returns one delta
    d(anchor, positive) - d(anchor, negative) and one loss per triplet, the
    loss being the delta plus the margin clamped at 0 from below: the loss
    of a triplet with delta + margin ≤ 0 is 0, and of two triplets the one
    with the larger delta has the larger or the same loss. As a function of
    delta the loss is 0 whenever delta + margin ≤ 0 and never decreases
    when delta increases. *)
Theorem positive_clamp_zero_monotone (log1p_exp sigmoid : Q → Q)
    {L : Type} `{EqDecision L}
    (metric0 : string) (margin0 : Q) (sampling0 : string)
    (self : TripletLoss) (y : list L) (distances : list Q)
    (ts : list (nat * nat * nat)) :
  init metric0 margin0 "positive" sampling0 = Ok self →
  length distances = condensed_length (length y) →
  Forall (triplet_ok y) ts →
  (∃ D, max_distance metric0 = Ok D ∧ margin_ self = (margin0 * D)%Q) ∧
  (∃ losses pos neg,
     triplet_loss log1p_exp sigmoid self distances
       (columns ts).1.1 (columns ts).1.2 (columns ts).2
     = Ok (losses,
           triplet_delta (square_entry (length y) distances) <$> ts,
           pos, neg) ∧
     losses =
       (λ t, clamp_min 0
               (triplet_delta (square_entry (length y) distances) t
                + margin_ self)) <$> ts ∧
     (∀ i t,
        ts !! i = Some t →
        (triplet_delta (square_entry (length y) distances) t
         + margin_ self <= 0)%Q →
        ∃ x, losses !! i = Some x ∧ (x == 0)%Q) ∧
     (∀ i j t u,
        ts !! i = Some t → ts !! j = Some u →
        (triplet_delta (square_entry (length y) distances) t <=
         triplet_delta (square_entry (length y) distances) u)%Q →
        ∃ x1 x2, losses !! i = Some x1 ∧ losses !! j = Some x2 ∧
                 (x1 <= x2)%Q)) ∧
  (∀ distances' anchors positives negatives losses deltas pos neg,
     triplet_loss log1p_exp sigmoid self distances' anchors positives negatives
       = Ok (losses, deltas, pos, neg) →
     losses = (λ delta, clamp_min 0 (delta + margin_ self)) <$> deltas) ∧
  (∀ delta, (delta + margin_ self <= 0)%Q →
     (clamp_min 0 (delta + margin_ self) == 0)%Q) ∧
  (∀ delta1 delta2, (delta1 <= delta2)%Q →
     (clamp_min 0 (delta1 + margin_ self) <=
      clamp_min 0 (delta2 + margin_ self))%Q).
Proof.
  intros (D & HD & Hself & _ & Hclamp & _)%init_inv valid Hts.
  assert (clamp self ∈ clamp_names) as Hc by (by rewrite Hself).
  assert (∀ distances' anchors positives negatives losses deltas pos neg,
     triplet_loss log1p_exp sigmoid self distances' anchors positives negatives
       = Ok (losses, deltas, pos, neg) →
     losses = (λ delta, clamp_min 0 (delta + margin_ self)) <$> deltas)
    as Hpositive.
  { intros distances' anchors positives negatives losses deltas pos neg.
    unfold triplet_loss.
    destruct (to_condensed _ anchors positives) as [pos'|]; [|done]. simpl.
    destruct (to_condensed _ anchors negatives) as [neg'|]; [|done]. simpl.
    destruct (tensor_gather distances' pos') as [d_pos|]; [|done]. simpl.
    destruct (tensor_gather distances' neg') as [d_neg|]; [|done]. simpl.
    unfold clamp_triplet_loss. rewrite Hself. simpl. intros [= <- <- _ _].
    by rewrite <-list_fmap_compose. }
  split_and!.
  - exists D. by rewrite Hself.
  - destruct (triplet_loss_run log1p_exp sigmoid self y distances ts
                valid Hts Hc) as (losses & pos & neg & Hrun & _).
    pose proof (Hpositive _ _ _ _ _ _ _ _ Hrun) as Hlosses.
    rewrite <-list_fmap_compose in Hlosses.
    exists losses, pos, neg. split_and!; [done|done|..].
    + intros i t Ht Hle. rewrite Hlosses, list_lookup_fmap, Ht. simpl.
      eexists. split; [done|]. by apply clamp_min_zero.
    + intros i j t u Ht Hu Hle.
      rewrite Hlosses, !list_lookup_fmap, Ht, Hu. simpl.
      eexists _, _. split_and!; [done|done|].
      apply clamp_min_mono. lra.
  - done.
  - intros delta. apply clamp_min_zero.
  - intros delta1 delta2 Hle. apply clamp_min_mono. lra.
Qed.

(** The scenario with its four hard triplets. *)
Lemma positive_clamp_zero_monotone_witness :
  let self := {| metric := "cosine"; margin := 2 # 10;
                 margin_ := (2 # 10) * 2; clamp := "positive";
                 sampling := "hard" |} in
  let y := scenario_y in
  let distances := scenario_distances in
  let ts := [(0, 1, 3); (1, 0, 3); (2, 3, 1); (3, 2, 1)] in
  (∃ D, max_distance "cosine" = Ok D ∧ margin_ self = ((2 # 10) * D)%Q) ∧
  (∃ losses pos neg,
     triplet_loss id id self distances
       (columns ts).1.1 (columns ts).1.2 (columns ts).2
     = Ok (losses,
           triplet_delta (square_entry (length y) distances) <$> ts,
           pos, neg) ∧
     losses =
       (λ t, clamp_min 0
               (triplet_delta (square_entry (length y) distances) t
                + margin_ self)) <$> ts ∧
     (∀ i t,
        ts !! i = Some t →
        (triplet_delta (square_entry (length y) distances) t
         + margin_ self <= 0)%Q →
        ∃ x, losses !! i = Some x ∧ (x == 0)%Q) ∧
     (∀ i j t u,
        ts !! i = Some t → ts !! j = Some u →
        (triplet_delta (square_entry (length y) distances) t <=
         triplet_delta (square_entry (length y) distances) u)%Q →
        ∃ x1 x2, losses !! i = Some x1 ∧ losses !! j = Some x2 ∧
                 (x1 <= x2)%Q)) ∧
  (∀ distances' anchors positives negatives losses deltas pos neg,
     triplet_loss id id self distances' anchors positives negatives
       = Ok (losses, deltas, pos, neg) →
     losses = (λ delta, clamp_min 0 (delta + margin_ self)) <$> deltas) ∧
  (∀ delta, (delta + margin_ self <= 0)%Q →
     (clamp_min 0 (delta + margin_ self) == 0)%Q) ∧
  (∀ delta1 delta2, (delta1 <= delta2)%Q →
     (clamp_min 0 (delta1 + margin_ self) <=
      clamp_min 0 (delta2 + margin_ self))%Q).
Proof.
  apply (positive_clamp_zero_monotone id id "cosine" (2 # 10) "hard").
  - reflexivity.
  - reflexivity.
  - repeat constructor; by eexists _, _.
Defined.

(** C9: for a constructed object and a valid batch, the per-triplet losses
    are computed for all the sampled triplets, and when there is at least
    one triplet [batch_loss] returns their arithmetic mean; with no triplet
    the mean is not a number. *)
Theorem batch_loss_is_mean (log1p_exp sigmoid : Q → Q) {L : Type}
    `{EqDecision L} (Input Embeddings : Type)
    (forward : Batch L Input → Embeddings) (pdist : Embeddings → list Q)
    (metric0 : string) (margin0 : Q) (clamp0 sampling0 : string)
    (self : TripletLoss) (batch : Batch L Input)
    (f : list L → list Q → result samples) (s : samples) :
  init metric0 margin0 clamp0 sampling0 = Ok self →
  length (pdist (forward batch)) = condensed_length (length (batch_y batch)) →
  sampler (sampling self) = Ok f →
  f (batch_y batch) (pdist (forward batch)) = Ok s →
  ∃ losses deltas pos neg,
    triplet_loss log1p_exp sigmoid self (pdist (forward batch))
      s.1.1 s.1.2 s.2 = Ok (losses, deltas, pos, neg) ∧
    length losses = length (triplets s) ∧
    deltas = triplet_delta
               (square_entry (length (batch_y batch)) (pdist (forward batch)))
             <$> triplets s ∧
    (triplets s ≠ [] →
     batch_loss log1p_exp sigmoid forward pdist self batch =
     Ok (Some (Qsum losses / inject_Z (Z.of_nat (length losses)))%Q)) ∧
    (triplets s = [] →
     batch_loss log1p_exp sigmoid forward pdist self batch =
     Ok None).
Proof.
  intros (D & _ & Hself & _ & Hclamp & _)%init_inv valid Hf Hs.
  assert (clamp self ∈ clamp_names) as Hc by (by rewrite Hself).
  destruct (sampler_sound _ _ _ _ _ Hf Hs) as (ts & -> & Hts).
  destruct (triplet_loss_run log1p_exp sigmoid self _ _ ts valid Hts Hc)
    as (losses & pos & neg & Hrun & Hlen).
  exists losses; eexists; exists pos, neg. rewrite triplets_columns.
  split_and!; [exact Hrun|exact Hlen|done|..].
  - intros Hne. unfold batch_loss. rewrite Hf. simpl. rewrite Hs. simpl.
    unfold columns in Hrun. simpl in Hrun. rewrite Hrun. simpl.
    destruct losses as [|x losses]; [|done].
    destruct ts; [done|discriminate].
  - intros ->. unfold batch_loss. rewrite Hf. simpl. rewrite Hs. simpl.
    unfold columns in Hrun. simpl in Hrun. rewrite Hrun. simpl.
    by destruct losses.
Qed.

(** The scenario as a batch whose embeddings are the distances themselves. *)
Lemma batch_loss_is_mean_witness :
  let self := {| metric := "cosine"; margin := 2 # 10;
                 margin_ := (2 # 10) * 2; clamp := "positive";
                 sampling := "hard" |} in
  let batch := {| batch_X := scenario_distances; batch_y := scenario_y |} in
  let s := ([0; 1; 2; 3], [1; 0; 3; 2], [3; 3; 1; 1]) in
  ∃ losses deltas pos neg,
    triplet_loss id id self (id (batch_X batch)) s.1.1 s.1.2 s.2
      = Ok (losses, deltas, pos, neg) ∧
    length losses = length (triplets s) ∧
    deltas = triplet_delta
               (square_entry (length (batch_y batch)) (id (batch_X batch)))
             <$> triplets s ∧
    (triplets s ≠ [] →
     batch_loss id id batch_X id self batch =
     Ok (Some (Qsum losses / inject_Z (Z.of_nat (length losses)))%Q)) ∧
    (triplets s = [] → batch_loss id id batch_X id self batch = Ok None).
Proof.
  apply (batch_loss_is_mean id id (list Q) (list Q) batch_X id
           "cosine" (2 # 10) "positive" "hard" _ _ batch_hard).
  - reflexivity.
  - reflexivity.
  - reflexivity.
  - vm_compute. reflexivity.
Defined.

Lemma condensed_length_Z n :
  Z.of_nat (condensed_length n) = (Z.of_nat n * (Z.of_nat n - 1) / 2)%Z.
Proof.
  pose proof (double_condensed_length n) as Hd.
  apply Z.div_unique_exact; [done|]. nia.
Qed.

(** C10: for every n ≥ 2 the batch size recovered from a condensed vector of
    length m = n·(n-1)/2 is n: with exact arithmetic for every n, and with
    the binary64 arithmetic of numpy, every rounding included, whenever
    1 + 8·m is below 2^63, the range of the 64-bit integer that is
    converted to a float (batches of up to 1518500250 items).
    [triplet_loss] therefore computes the condensed offsets of its
    (anchor, positive) and (anchor, negative) pairs for the batch size n,
    and on the triplets of a batch of n items it returns these offsets. *)
Theorem estimate_n_exact (log1p_exp sigmoid : Q → Q) {L : Type}
    `{EqDecision L} (n : nat) :
  2 ≤ n →
  estimate_n (condensed_length n) = n ∧
  ((1 + 8 * Z.of_nat (condensed_length n) < 2 ^ 63)%Z →
   estimate_n_binary64 (Z.of_nat (condensed_length n)) = Some (Z.of_nat n)) ∧
  (∀ self distances anchors positives negatives losses deltas pos neg,
     length distances = condensed_length n →
     triplet_loss log1p_exp sigmoid self distances anchors positives negatives
       = Ok (losses, deltas, pos, neg) →
     to_condensed n anchors positives = Ok pos ∧
     to_condensed n anchors negatives = Ok neg) ∧
  (∀ self (y : list L) distances ts,
     length y = n → length distances = condensed_length n →
     Forall (triplet_ok y) ts → clamp self ∈ clamp_names →
     ∃ losses deltas,
       triplet_loss log1p_exp sigmoid self distances
         (columns ts).1.1 (columns ts).1.2 (columns ts).2
       = Ok (losses, deltas,
             (λ t, condensed_offset (Z.of_nat n) (Z.of_nat t.1.1)
                     (Z.of_nat t.1.2)) <$> ts,
             (λ t, condensed_offset (Z.of_nat n) (Z.of_nat t.1.1)
                     (Z.of_nat t.2)) <$> ts)).
Proof.
  intros Hn.
  assert (estimate_n (condensed_length n) = n) as Hest
    by (apply estimate_n_condensed_length; lia).
  assert (∀ self distances anchors positives negatives losses deltas pos neg,
     length distances = condensed_length n →
     triplet_loss log1p_exp sigmoid self distances anchors positives negatives
       = Ok (losses, deltas, pos, neg) →
     to_condensed n anchors positives = Ok pos ∧
     to_condensed n anchors negatives = Ok neg) as Hoffsets.
  { intros self distances anchors positives negatives losses deltas pos neg
      Hlen.
    unfold triplet_loss. rewrite Hlen, Hest.
    destruct (to_condensed n anchors positives) as [pos'|]; [|done]. simpl.
    destruct (to_condensed n anchors negatives) as [neg'|]; [|done]. simpl.
    destruct (tensor_gather distances pos') as [d_pos|]; [|done]. simpl.
    destruct (tensor_gather distances neg') as [d_neg|]; [|done]. simpl.
    destruct (clamp_triplet_loss _ _ _ _) as [loss|]; [|done]. simpl.
    by intros [= _ _ <- <-]. }
  split_and!; [done| |done|].
  { intros Hmax. apply estimate_n_binary64_square; [lia| |done].
    pose proof (double_condensed_length n) as Hd. nia. }
  intros self y distances ts Hy valid Hts Hclamp. rewrite <-Hy in valid.
  destruct (triplet_loss_run log1p_exp sigmoid self y distances ts
              valid Hts Hclamp) as (losses & pos & neg & Hrun & _).
  rewrite Hy in valid.
  destruct (Hoffsets _ _ _ _ _ _ _ _ _ valid Hrun) as [Hpos Hneg].
  unfold columns in Hpos, Hneg. simpl in Hpos, Hneg.
  rewrite <-!list_fmap_compose in Hpos. rewrite <-!list_fmap_compose in Hneg.
  rewrite <-Hy in Hpos, Hneg.
  rewrite to_condensed_fmap in Hpos
    by (eapply Forall_impl; [done|]; by intros t [? ?]%triplet_ok_pairs).
  rewrite to_condensed_fmap in Hneg
    by (eapply Forall_impl; [done|]; by intros t [? ?]%triplet_ok_pairs).
  injection Hpos as <-. injection Hneg as <-. rewrite <-Hy.
  by eexists _, _.
Qed.

(** The scenario: 4 items, 6 distances, the four hard triplets. *)
Lemma estimate_n_exact_witness :
  estimate_n (condensed_length 4) = 4 ∧
  ((1 + 8 * Z.of_nat (condensed_length 4) < 2 ^ 63)%Z →
   estimate_n_binary64 (Z.of_nat (condensed_length 4)) = Some (Z.of_nat 4)) ∧
  (∀ self distances anchors positives negatives losses deltas pos neg,
     length distances = condensed_length 4 →
     triplet_loss id id self distances anchors positives negatives
       = Ok (losses, deltas, pos, neg) →
     to_condensed 4 anchors positives = Ok pos ∧
     to_condensed 4 anchors negatives = Ok neg) ∧
  (∀ self (y : list string) distances ts,
     length y = 4 → length distances = condensed_length 4 →
     Forall (triplet_ok y) ts → clamp self ∈ clamp_names →
     ∃ losses deltas,
       triplet_loss id id self distances
         (columns ts).1.1 (columns ts).1.2 (columns ts).2
       = Ok (losses, deltas,
             (λ t, condensed_offset (Z.of_nat 4) (Z.of_nat t.1.1)
                     (Z.of_nat t.1.2)) <$> ts,
             (λ t, condensed_offset (Z.of_nat 4) (Z.of_nat t.1.1)
                     (Z.of_nat t.2)) <$> ts)).
Proof. apply (estimate_n_exact id id 4). lia. Defined.

(** * Further properties of the samplers *)

(** A loop raises as soon as one of its steps does, when the other steps
    either succeed or raise the same exception. *)
Lemma for_each_raises {S X} (body : S → X → result S) (e : exn) xs :
  (∀ s x, x ∈ xs → body s x = Raise e ∨ ∃ s', body s x = Ok s') →
  (∃ x, x ∈ xs ∧ ∀ s, body s x = Raise e) →
  ∀ s, for_each body s xs = Raise e.
Proof.
  induction xs as [|x xs IH]; intros Hbody (x0 & Hx0 & Hraise) s.
  - by apply elem_of_nil in Hx0.
  - simpl. destruct (Hbody s x) as [->|[s' Hs']]; [by left|done|].
    rewrite Hs'. simpl.
    apply elem_of_cons in Hx0 as [->|Hx0].
    + by rewrite Hraise in Hs'.
    + apply IH; [|by exists x0]. intros s1 x1 Hx1. apply Hbody. by right.
Qed.

Lemma squareform_invalid v :
  (∀ d, d * (d - 1) ≠ 2 * length v) → squareform v = Raise ValueError.
Proof.
  intros Hv. unfold squareform.
  destruct (length v =? 0) eqn:H0.
  - apply Nat.eqb_eq in H0. destruct (Hv 0). lia.
  - destruct (Nat.sqrt_up (length v * 2) * (Nat.sqrt_up (length v * 2) - 1)
              =? length v * 2) eqn:Hd; [|done].
    apply Nat.eqb_eq in Hd. destruct (Hv (Nat.sqrt_up (length v * 2))). lia.
Qed.

(** Either every anchor has its candidates, or one can be named that has
    not. *)
Lemma all_or_degenerate (P : nat → Prop) `{∀ a, Decision (P a)} n :
  (∀ a, a < n → P a) ∨ (∃ a, a < n ∧ ¬ P a).
Proof.
  induction n as [|n [IH|(a & Ha & Hna)]].
  - left. lia.
  - destruct (decide (P n)) as [Hn|Hn].
    + left. intros a Ha. destruct (decide (a = n)) as [->|]; [done|].
      apply IH. lia.
    + right. exists n. split; [lia|done].
  - right. exists a. split; [lia|done].
Qed.

Section Steps.
Context {L : Type} `{EqDecision L}.
Variable y : list L.
Variable distances : list Q.

Local Abbreviation d := (square_entry (length y) distances).

(** One turn of the loop of [batch_hard] on a valid batch. *)
Lemma batch_hard_step s a l :
  y !! a = Some l →
  (row ← item (square (length y) distances) a;
   d_pos ← gather row (filter (λ p, p ≠ a) (where_eq y l));
   k ← np_argmax d_pos;
   positive ← item (filter (λ p, p ≠ a) (where_eq y l)) k;
   d_neg ← gather row (where_ne y l);
   k ← np_argmin d_neg;
   negative ← item (where_ne y l) k;
   Ok (emit s a positive negative)) =
  if decide (partners y a = []) then Raise ValueError
  else if decide (others y a = []) then Raise ValueError
  else Ok (emit s a (pick np_argmax (d a) (partners y a))
                    (pick np_argmin (d a) (others y a))).
Proof.
  intros Ha. pose proof (lookup_lt_Some _ _ _ Ha) as Hlt.
  rewrite item_square by done. simpl.
  destruct (decide (partners y a = [])) as [Hp|Hp].
  { rewrite (where_eq_partners y a l Ha), Hp. done. }
  rewrite (hardest_positive_run y distances a l) by done.
  destruct (decide (others y a = [])) as [Ho|Ho].
  { rewrite (where_ne_others y a l Ha), Ho. done. }
  by rewrite (hardest_negative_run y distances a l) by done.
Qed.

(** One turn of the loop of [batch_negative] on a valid batch. *)
Lemma batch_negative_step s a l :
  y !! a = Some l →
  (row ← item (square (length y) distances) a;
   d_neg ← gather row (where_ne y l);
   k ← np_argmin d_neg;
   negative ← item (where_ne y l) k;
   Ok (foldl (λ acc positive,
         if bool_decide (positive = a) then acc
         else emit acc a positive negative) s (where_eq y l))) =
  if decide (others y a = []) then Raise ValueError
  else Ok (foldl (λ acc positive,
         if bool_decide (positive = a) then acc
         else emit acc a positive (pick np_argmin (d a) (others y a)))
       s (where_eq y l)).
Proof.
  intros Ha. pose proof (lookup_lt_Some _ _ _ Ha) as Hlt.
  rewrite item_square by done. simpl.
  destruct (decide (others y a = [])) as [Ho|Ho].
  { rewrite (where_ne_others y a l Ha), Ho. done. }
  by rewrite (hardest_negative_run y distances a l) by done.
Qed.

Lemma single_label_no_others :
  (∃ a, a < length y ∧ others y a = []) ↔ y ≠ [] ∧ single_label y.
Proof.
  split.
  - intros (a & [l Ha]%lookup_lt_is_Some & Ho). split.
    { intros ->. done. }
    assert (∀ i li, y !! i = Some li → li = l) as Hall.
    { intros i li Hi. destruct (decide (li = l)) as [|Hne]; [done|].
      assert (i ∈ others y a) as Hin; [|rewrite Ho in Hin; by apply elem_of_nil in Hin].
      apply elem_of_others. exists li. split; [done|]. congruence. }
    intros i j li lj Hi Hj. rewrite (Hall i li Hi), (Hall j lj Hj). done.
  - intros [Hne Hone]. exists 0. destruct y as [|l0 y']; [done|].
    split; [simpl; lia|]. apply single_label_others; [done|simpl; lia].
Qed.

Hypothesis valid : length distances = condensed_length (length y).

Lemma batch_hard_degenerate :
  (∃ a, a < length y ∧ degenerate y a) →
  batch_hard y distances = Raise ValueError.
Proof.
  intros (a & Ha & Hdeg). unfold batch_hard.
  destruct (squareform_Ok _ _ valid) as (m & -> & Hm). simpl.
  rewrite Hm by lia. apply for_each_raises.
  - intros s [a' l'] Ha'%elem_of_enumerate. simpl.
    rewrite (batch_hard_step s a' l' Ha').
    repeat case_decide; eauto.
  - apply lookup_lt_is_Some in Ha as [l Hl]. exists (a, l).
    split; [by apply elem_of_enumerate|]. intros s. simpl.
    rewrite (batch_hard_step s a l Hl).
    destruct Hdeg as [Hp|Ho]; repeat case_decide; done.
Qed.

Lemma batch_negative_degenerate :
  (∃ a, a < length y ∧ others y a = []) →
  batch_negative y distances = Raise ValueError.
Proof.
  intros (a & Ha & Hdeg). unfold batch_negative.
  destruct (squareform_Ok _ _ valid) as (m & -> & Hm). simpl.
  rewrite Hm by lia. apply for_each_raises.
  - intros s [a' l'] Ha'%elem_of_enumerate. simpl.
    rewrite (batch_negative_step s a' l' Ha').
    case_decide; eauto.
  - apply lookup_lt_is_Some in Ha as [l Hl]. exists (a, l).
    split; [by apply elem_of_enumerate|]. intros s. simpl.
    rewrite (batch_negative_step s a l Hl).
    case_decide; done.
Qed.

End Steps.

(** X1: a distance vector whose length is not of the form d·(d-1)/2 makes
    the [easy], [hard] and [negative] samplers raise [ValueError] whatever
    the labels are, while the [all] sampler, which never reads the
    distances, returns its triplets. *)
Theorem samplers_reject_bad_length {L : Type} `{EqDecision L} (y : list L)
    (distances : list Q) :
  (∀ d, d * (d - 1) ≠ 2 * length distances) →
  batch_easy y distances = Raise ValueError ∧
  batch_hard y distances = Raise ValueError ∧
  batch_negative y distances = Raise ValueError ∧
  batch_all y distances = Ok (columns (spec_all y)).
Proof.
  intros Hbad. unfold batch_easy, batch_hard, batch_negative.
  rewrite (squareform_invalid _ Hbad). split_and!; try done.
  apply batch_all_spec.
Qed.

Lemma samplers_reject_bad_length_witness :
  batch_easy scenario_y [1 # 2; 1 # 3]%Q = Raise ValueError ∧
  batch_hard scenario_y [1 # 2; 1 # 3]%Q = Raise ValueError ∧
  batch_negative scenario_y [1 # 2; 1 # 3]%Q = Raise ValueError ∧
  batch_all scenario_y [1 # 2; 1 # 3]%Q = Ok (columns (spec_all scenario_y)).
Proof.
  apply (samplers_reject_bad_length scenario_y [1 # 2; 1 # 3]%Q).
  intros d. destruct d as [|[|[|d]]]; simpl; lia.
Defined.

(** X2: on a batch with a valid distance vector, [batch_hard] raises
    [ValueError] exactly when some anchor has no same-label partner or no
    item of another label; otherwise it returns. *)
Theorem batch_hard_raises_iff {L : Type} `{EqDecision L} (y : list L)
    (distances : list Q) :
  length distances = condensed_length (length y) →
  (batch_hard y distances = Raise ValueError ↔
   ∃ a, a < length y ∧ degenerate y a) ∧
  ((∃ s, batch_hard y distances = Ok s) ↔
   ∀ a, a < length y → ¬ degenerate y a).
Proof.
  intros valid.
  assert ((∀ a, a < length y → partners y a ≠ [] ∧ others y a ≠ []) →
          ∃ s, batch_hard y distances = Ok s) as Hok.
  { intros Hcand. eexists. by apply batch_hard_spec. }
  pose proof (batch_hard_degenerate y distances valid) as Hraise.
  destruct (all_or_degenerate
    (λ a, partners y a ≠ [] ∧ others y a ≠ []) (length y))
    as [Hall|(a & Ha & Hna)].
  - destruct (Hok Hall) as [s Hs]. split; split.
    + by rewrite Hs.
    + intros (a & Ha & [Hp|Ho]); by destruct (Hall a Ha).
    + intros _ a Ha [Hp|Ho]; by destruct (Hall a Ha).
    + by exists s.
  - assert (degenerate y a) as Hdeg.
    { destruct (decide (partners y a = [])); [by left|].
      destruct (decide (others y a = [])); [by right|]. by destruct Hna. }
    assert (batch_hard y distances = Raise ValueError) as Hr
      by (apply Hraise; eauto).
    split; split.
    + eauto.
    + done.
    + intros [s Hs]. by rewrite Hs in Hr.
    + intros Hnone. by destruct (Hnone a Ha).
Qed.

Lemma batch_hard_raises_iff_witness :
  (batch_hard single_label_y single_label_distances = Raise ValueError ↔
   ∃ a, a < length single_label_y ∧ degenerate single_label_y a) ∧
  ((∃ s, batch_hard single_label_y single_label_distances = Ok s) ↔
   ∀ a, a < length single_label_y → ¬ degenerate single_label_y a).
Proof.
  apply (batch_hard_raises_iff single_label_y single_label_distances).
  reflexivity.
Defined.

(** X3: on a batch with a valid distance vector, [batch_negative] raises
    [ValueError] exactly when the batch is not empty and all its items carry
    one label; an anchor without a same-label partner alone does not make it
    raise. *)
Theorem batch_negative_raises_iff {L : Type} `{EqDecision L} (y : list L)
    (distances : list Q) :
  length distances = condensed_length (length y) →
  (batch_negative y distances = Raise ValueError ↔
   y ≠ [] ∧ single_label y) ∧
  ((∃ s, batch_negative y distances = Ok s) ↔ (y = [] ∨ ¬ single_label y)).
Proof.
  intros valid. rewrite <-single_label_no_others.
  destruct (all_or_degenerate (λ a, others y a ≠ []) (length y))
    as [Hall|(a & Ha & Hna)].
  - assert (∃ s, batch_negative y distances = Ok s) as [s Hs]
      by (eexists; by apply batch_negative_spec).
    assert (¬ ∃ a, a < length y ∧ others y a = []) as Hno
      by (intros (a & Ha & Ho); by destruct (Hall a Ha)).
    split; split.
    + by rewrite Hs.
    + done.
    + intros _. destruct y as [|l0 y'] eqn:Hy; [by left|right].
      rewrite <-Hy in *. intros Hone. apply Hno.
      apply single_label_no_others. split; [by rewrite Hy|done].
    + by exists s.
  - assert (others y a = []) as Ho
      by (destruct (decide (others y a = [])); [done|by destruct Hna]).
    assert (batch_negative y distances = Raise ValueError) as Hr
      by (apply batch_negative_degenerate; eauto).
    split; split.
    + eauto.
    + done.
    + intros [s Hs]. by rewrite Hs in Hr.
    + assert (y ≠ [] ∧ single_label y) as [Hne Hone]
        by (apply single_label_no_others; eauto).
      intros [->|Hn]; done.
Qed.

Lemma batch_negative_raises_iff_witness :
  (batch_negative tie_y tie_distances = Raise ValueError ↔
   tie_y ≠ [] ∧ single_label tie_y) ∧
  ((∃ s, batch_negative tie_y tie_distances = Ok s) ↔
   (tie_y = [] ∨ ¬ single_label tie_y)).
Proof.
  apply (batch_negative_raises_iff tie_y tie_distances). reflexivity.
Defined.

(** ** How the policies relate *)

Lemma filter_bind {A B} (P : B → Prop) `{∀ x, Decision (P x)}
    (f : A → list B) (l : list A) :
  filter P (l ≫= f) = l ≫= (λ x, filter P (f x)).
Proof.
  induction l as [|x l IH]; [done|].
  by rewrite !bind_cons, filter_app, IH.
Qed.

Section Relations.
Context {L : Type} `{EqDecision L}.
Variable y : list L.
Variable distances : list Q.

Local Abbreviation d := (square_entry (length y) distances).

Lemma hardest_positive_pick a :
  partners y a ≠ [] →
  hardest_positive y d a (pick np_argmax (d a) (partners y a)).
Proof.
  intros Hne.
  destruct (argmax_pick (d a) (partners y a) Hne (partners_sorted y a))
    as (k & p & _ & Hk & -> & Hmax & Hfirst).
  split_and!; [by eapply list_elem_of_lookup_2|done..].
Qed.

Lemma hardest_negative_pick a :
  others y a ≠ [] →
  hardest_negative y d a (pick np_argmin (d a) (others y a)).
Proof.
  intros Hne.
  destruct (argmin_pick (d a) (others y a) Hne (others_sorted y a))
    as (k & n & _ & Hk & -> & Hmin & Hfirst).
  split_and!; [by eapply list_elem_of_lookup_2|done..].
Qed.

Lemma spec_easy_filter :
  spec_easy y d =
  filter (λ t, (d t.1.1 t.1.2 <= d t.1.1 t.2)%Q) (spec_all y).
Proof.
  unfold spec_easy, spec_all. rewrite filter_bind.
  apply bind_ext_in. intros a _. rewrite filter_bind.
  apply bind_ext_in. intros p _. rewrite filter_bind, bind_filter.
  apply bind_ext_in. intros n _. rewrite filter_cons, filter_nil. simpl.
  by destruct (decide (d a p <= d a n)%Q).
Qed.

Lemma elem_of_hard_triplets a p n :
  (a, p, n) ∈ (a ← seq 0 (length y);
               [(a, pick np_argmax (d a) (partners y a),
                    pick np_argmin (d a) (others y a))]) ↔
  a < length y ∧ p = pick np_argmax (d a) (partners y a) ∧
  n = pick np_argmin (d a) (others y a).
Proof.
  rewrite list_elem_of_bind. split.
  - intros (a' & [= -> -> ->]%list_elem_of_singleton & Ha%elem_of_seq).
    split; [lia|done].
  - intros (Ha & -> & ->). exists a. split; [by apply list_elem_of_singleton|].
    apply elem_of_seq. lia.
Qed.

Lemma elem_of_negative_triplets a p n :
  (a, p, n) ∈ (a ← seq 0 (length y); p ← partners y a;
               [(a, p, pick np_argmin (d a) (others y a))]) ↔
  p ∈ partners y a ∧ n = pick np_argmin (d a) (others y a).
Proof.
  rewrite list_elem_of_bind. split.
  - intros (a' & (p' & [= -> -> ->]%list_elem_of_singleton
                  & Hp)%list_elem_of_bind & _). done.
  - intros (Hp & ->). exists a. split.
    + apply list_elem_of_bind. exists p.
      split; [by apply list_elem_of_singleton|done].
    + apply elem_of_partners in Hp as (_ & l & _ & Ha).
      apply elem_of_seq. apply lookup_lt_Some in Ha. lia.
Qed.

Hypothesis valid : length distances = condensed_length (length y).

Lemma batch_hard_Ok_candidates s :
  batch_hard y distances = Ok s →
  ∀ a, a < length y → partners y a ≠ [] ∧ others y a ≠ [].
Proof.
  intros Hs.
  destruct (all_or_degenerate
    (λ a, partners y a ≠ [] ∧ others y a ≠ []) (length y))
    as [Hall|(a & Ha & Hna)]; [done|].
  rewrite (batch_hard_degenerate y distances valid) in Hs; [done|].
  exists a. split; [done|].
  destruct (decide (partners y a = [])); [by left|].
  destruct (decide (others y a = [])); [by right|]. by destruct Hna.
Qed.

End Relations.

(** X4: on a batch with a valid distance vector the triplets of the [easy]
    sampler are those of the [all] sampler, in the same order, without the
    ones whose negative is nearer to the anchor than the positive. *)
Theorem batch_easy_filters_batch_all {L : Type} `{EqDecision L} (y : list L)
    (distances : list Q) :
  length distances = condensed_length (length y) →
  ∃ s_easy s_all,
    batch_easy y distances = Ok s_easy ∧ batch_all y distances = Ok s_all ∧
    triplets s_easy =
    filter (λ t, (square_entry (length y) distances t.1.1 t.1.2 <=
                  square_entry (length y) distances t.1.1 t.2)%Q)
      (triplets s_all).
Proof.
  intros valid. eexists _, _.
  split_and!; [by apply batch_easy_spec|apply batch_all_spec|].
  rewrite !triplets_columns. apply spec_easy_filter.
Qed.

Lemma batch_easy_filters_batch_all_witness :
  ∃ s_easy s_all,
    batch_easy tie_y tie_distances = Ok s_easy ∧
    batch_all tie_y tie_distances = Ok s_all ∧
    triplets s_easy =
    filter (λ t, (square_entry (length tie_y) tie_distances t.1.1 t.1.2 <=
                  square_entry (length tie_y) tie_distances t.1.1 t.2)%Q)
      (triplets s_all).
Proof.
  apply (batch_easy_filters_batch_all tie_y tie_distances). reflexivity.
Defined.

(** X5: on a batch with a valid distance vector, whenever the [hard]
    sampler returns, the [negative] and the [all] sampler return too, every
    [hard] triplet is a [negative] triplet and every [negative] triplet is
    an [all] triplet. *)
Theorem hard_negative_all_nested {L : Type} `{EqDecision L} (y : list L)
    (distances : list Q) (s_hard : samples) :
  length distances = condensed_length (length y) →
  batch_hard y distances = Ok s_hard →
  ∃ s_negative s_all,
    batch_negative y distances = Ok s_negative ∧
    batch_all y distances = Ok s_all ∧
    (∀ t, t ∈ triplets s_hard → t ∈ triplets s_negative) ∧
    (∀ t, t ∈ triplets s_negative → t ∈ triplets s_all).
Proof.
  intros valid Hs.
  pose proof (batch_hard_Ok_candidates y distances valid _ Hs) as Hcand.
  rewrite (batch_hard_spec y distances valid Hcand) in Hs.
  injection Hs as <-. eexists _, _.
  split_and!; [apply batch_negative_spec; [done|]; intros a Ha; by apply Hcand
              |apply batch_all_spec|..]; rewrite !triplets_columns.
  - intros [[a p] n] (Ha & -> & ->)%elem_of_hard_triplets.
    apply elem_of_negative_triplets. split; [|done].
    apply hardest_positive_pick. by apply Hcand.
  - intros [[a p] n] (Hp & ->)%elem_of_negative_triplets.
    apply elem_of_spec_all. split; [done|].
    apply hardest_negative_pick.
    apply elem_of_partners in Hp as (_ & l & _ & Ha).
    apply Hcand. by eapply lookup_lt_Some.
Qed.

Lemma hard_negative_all_nested_witness :
  ∃ s_negative s_all,
    batch_negative scenario_y scenario_distances = Ok s_negative ∧
    batch_all scenario_y scenario_distances = Ok s_all ∧
    (∀ t, t ∈ triplets ([0; 1; 2; 3], [1; 0; 3; 2], [3; 3; 1; 1]) →
          t ∈ triplets s_negative) ∧
    (∀ t, t ∈ triplets s_negative → t ∈ triplets s_all).
Proof.
  apply (hard_negative_all_nested scenario_y scenario_distances).
  - reflexivity.
  - vm_compute. reflexivity.
Defined.

(** X6: on a batch with a valid distance vector, the triplet the [hard]
    sampler returns for an anchor has the largest raw loss
    d(anchor, positive) - d(anchor, negative) among all the triplets of
    that anchor. *)
Theorem batch_hard_maximises_delta {L : Type} `{EqDecision L} (y : list L)
    (distances : list Q) (s_hard : samples) (a p n : nat) :
  length distances = condensed_length (length y) →
  batch_hard y distances = Ok s_hard →
  (a, p, n) ∈ spec_all y →
  ∃ p' n', (a, p', n') ∈ triplets s_hard ∧
    (triplet_delta (square_entry (length y) distances) (a, p, n) <=
     triplet_delta (square_entry (length y) distances) (a, p', n'))%Q.
Proof.
  intros valid Hs [Hp Hn]%elem_of_spec_all.
  pose proof (batch_hard_Ok_candidates y distances valid _ Hs) as Hcand.
  rewrite (batch_hard_spec y distances valid Hcand) in Hs.
  injection Hs as <-. rewrite triplets_columns.
  assert (a < length y) as Ha.
  { apply elem_of_partners in Hp as (_ & l & _ & Ha).
    by eapply lookup_lt_Some. }
  destruct (Hcand a Ha) as [Hpne Hnne].
  destruct (hardest_positive_pick y distances a Hpne) as (_ & Hmax & _).
  destruct (hardest_negative_pick y distances a Hnne) as (_ & Hmin & _).
  eexists _, _. split; [by apply elem_of_hard_triplets|].
  unfold triplet_delta. simpl.
  specialize (Hmax p Hp). specialize (Hmin n Hn). lra.
Qed.

Lemma batch_hard_maximises_delta_witness :
  ∃ p' n', (0, p', n') ∈ triplets ([0; 1; 2; 3], [1; 0; 3; 2], [3; 3; 1; 1]) ∧
    (triplet_delta (square_entry (length scenario_y) scenario_distances)
       (0, 1, 2)%nat <=
     triplet_delta (square_entry (length scenario_y) scenario_distances)
       (0%nat, p', n'))%Q.
Proof.
  apply (batch_hard_maximises_delta scenario_y scenario_distances).
  - reflexivity.
  - vm_compute. reflexivity.
  - vm_compute. apply list_elem_of_here.
Defined.

(** ** Counting candidates and triplets *)

Lemma length_bind_const {A B} (f : A → list B) (l : list A) c :
  (∀ x, x ∈ l → length (f x) = c) → length (l ≫= f) = length l * c.
Proof.
  induction l as [|x l IH]; intros Hf; [done|].
  rewrite bind_cons, length_app, (Hf x) by left. simpl.
  rewrite IH; [lia|]. intros x' Hx'. apply Hf. by right.
Qed.

Lemma length_filter_split {A} (P1 P2 P3 : A → Prop)
    `{∀ x, Decision (P1 x), ∀ x, Decision (P2 x), ∀ x, Decision (P3 x)}
    (l : list A) :
  (∀ x, x ∈ l → (P1 x ∧ ¬ P2 x ∧ ¬ P3 x) ∨ (¬ P1 x ∧ P2 x ∧ ¬ P3 x) ∨
                  (¬ P1 x ∧ ¬ P2 x ∧ P3 x)) →
  length (filter P1 l) + length (filter P2 l) + length (filter P3 l)
  = length l.
Proof.
  induction l as [|x l IH]; intros Hl; [done|].
  rewrite !filter_cons. specialize (IH (λ z Hz, Hl z (list_elem_of_further _ _ _ Hz))).
  destruct (Hl x) as [(?&?&?)|[(?&?&?)|(?&?&?)]]; [by left|..];
    repeat case_decide; try done; simpl; lia.
Qed.

Lemma NoDup_enumerate {A} (y : list A) : NoDup (enumerate y).
Proof.
  apply (NoDup_fmap_1 fst). rewrite enumerate_fmap_fst. apply NoDup_seq.
Qed.

Lemma length_filter_enumerate_snd {A} (P : A → Prop) `{∀ x, Decision (P x)}
    (y : list A) :
  length (filter (λ p, P p.2) (enumerate y)) = length (filter P y).
Proof.
  induction y as [|x y IH] using rev_ind; [done|].
  rewrite enumerate_snoc, !filter_app, !length_app, IH. f_equal.
  rewrite !filter_cons, !filter_nil. simpl. by destruct (decide (P x)).
Qed.

Section Counting.
Context {L : Type} `{EqDecision L}.
Variable y : list L.

Lemma length_filter_index a l :
  y !! a = Some l →
  length (filter (λ p, p.1 = a ∧ p.2 = l) (enumerate y)) = 1.
Proof.
  intros Ha.
  assert ((a, l) ∈ filter (λ p, p.1 = a ∧ p.2 = l) (enumerate y)) as Hin.
  { apply list_elem_of_filter. split; [done|]. by apply elem_of_enumerate. }
  assert (NoDup (filter (λ p, p.1 = a ∧ p.2 = l) (enumerate y))) as Hnd
    by apply NoDup_filter, NoDup_enumerate.
  assert (∀ p, p ∈ filter (λ p : nat * L, p.1 = a ∧ p.2 = l) (enumerate y)
               → p = (a, l)) as Hall.
  { intros [i x] [[? ?] _]%list_elem_of_filter. simpl in *. congruence. }
  destruct (filter _ _) as [|p1 [|p2 ps]].
  - by apply elem_of_nil in Hin.
  - done.
  - apply NoDup_cons in Hnd as [Hnd _]. destruct Hnd.
    rewrite (Hall p1), (Hall p2); [by left|by right; left|by left].
Qed.

(** The partners of an item are the other items with its label. *)
Lemma length_partners a l :
  y !! a = Some l → length (partners y a) + 1 = occurrences y l.
Proof.
  intros Ha. unfold partners, occurrences. rewrite length_fmap, Ha.
  rewrite <-(length_filter_enumerate_snd (λ x, x = l)).
  rewrite <-(length_filter_index a l Ha).
  rewrite <-(length_filter_split
    (λ p : nat * L, p.1 ≠ a ∧ Some p.2 = Some l) (λ _, False)
    (λ p, p.1 = a ∧ p.2 = l)
    (filter (λ p : nat * L, p.2 = l) (enumerate y))).
  - rewrite !list_filter_filter.
    rewrite (list_filter_iff (λ p : nat * L, False ∧ p.2 = l) (λ _, False))
      by tauto.
    assert (filter (λ _ : nat * L, False) (enumerate y) = []) as ->.
    { apply elem_of_nil_inv. by intros p [? _]%list_elem_of_filter. }
    simpl. rewrite Nat.add_0_r. f_equal; f_equal; apply list_filter_iff;
      intros [i x]; simpl; split; intros; destruct_and?; split_and?;
      congruence.
  - intros [i x] [Hx _]%list_elem_of_filter. simpl in *.
    destruct (decide (i = a)); [right; right|left]; intuition congruence.
Qed.

(** Every item is the anchor itself, one of its partners, or an item of
    another label. *)
Lemma length_candidates a :
  a < length y → length (partners y a) + length (others y a) + 1 = length y.
Proof.
  intros [l Ha]%lookup_lt_is_Some. unfold partners, others.
  rewrite !length_fmap, Ha.
  rewrite <-(length_filter_index a l Ha).
  trans (length (enumerate y)); [|apply length_imap].
  apply length_filter_split. intros [i x] _. simpl.
  destruct (decide (x = l)) as [->|Hx].
  - destruct (decide (i = a)); [right; right|left]; intuition congruence.
  - right; left. intuition congruence.
Qed.

Lemma length_others a l :
  y !! a = Some l → length (others y a) = length y - occurrences y l.
Proof.
  intros Ha. pose proof (length_partners a l Ha).
  pose proof (length_candidates a (lookup_lt_Some _ _ _ Ha)). lia.
Qed.

End Counting.

(** X7: in a batch whose labels all occur exactly k times, every anchor has
    k - 1 partners and n - k items of another label, and the [all] sampler
    returns n·(k-1)·(n-k) triplets, n the size of the batch. *)
Theorem batch_all_count {L : Type} `{EqDecision L} (y : list L)
    (distances : list Q) (k : nat) :
  (∀ a l, y !! a = Some l → occurrences y l = k) →
  (∀ a, a < length y →
     length (partners y a) = k - 1 ∧ length (others y a) = length y - k) ∧
  ∃ s, batch_all y distances = Ok s ∧
       length (triplets s) = length y * ((k - 1) * (length y - k)).
Proof.
  intros Hk.
  assert (∀ a, a < length y →
     length (partners y a) = k - 1 ∧ length (others y a) = length y - k)
    as Hcount.
  { intros a [l Ha]%lookup_lt_is_Some.
    pose proof (length_partners y a l Ha).
    pose proof (length_others y a l Ha). rewrite (Hk a l Ha) in *. lia. }
  split; [done|]. eexists. split; [apply batch_all_spec|].
  rewrite triplets_columns. unfold spec_all.
  trans (length (seq 0 (length y)) * ((k - 1) * (length y - k)));
    [|by rewrite length_seq].
  apply length_bind_const. intros a [_ Ha]%elem_of_seq.
  destruct (Hcount a Ha) as [<- <-].
  apply length_bind_const. intros p _.
  rewrite (length_bind_const _ _ 1); [lia|done].
Qed.

Lemma scenario_balanced a l :
  scenario_y !! a = Some l → occurrences scenario_y l = 2.
Proof.
  do 4 (destruct a as [|a]; [by intros [= <-]|]). done.
Defined.

Lemma batch_all_count_witness :
  (∀ a, a < length scenario_y →
     length (partners scenario_y a) = 2 - 1 ∧
     length (others scenario_y a) = length scenario_y - 2) ∧
  ∃ s, batch_all scenario_y scenario_distances = Ok s ∧
       length (triplets s) =
       length scenario_y * ((2 - 1) * (length scenario_y - 2)).
Proof.
  apply (batch_all_count scenario_y scenario_distances 2).
  exact scenario_balanced.
Defined.

(** X8: in a batch with a valid distance vector whose labels all occur
    exactly k times, with k smaller than the batch size n, the [negative]
    sampler returns n·(k-1) triplets; if moreover k ≥ 2 the [hard] sampler
    returns n. *)
Theorem batch_negative_hard_count {L : Type} `{EqDecision L} (y : list L)
    (distances : list Q) (k : nat) :
  length distances = condensed_length (length y) →
  (∀ a l, y !! a = Some l → occurrences y l = k) →
  k < length y →
  (∃ s, batch_negative y distances = Ok s ∧
        length (triplets s) = length y * (k - 1)) ∧
  (2 ≤ k → ∃ s, batch_hard y distances = Ok s ∧
                length (triplets s) = length y).
Proof.
  intros valid Hk Hlt.
  assert (∀ a, a < length y →
     length (partners y a) = k - 1 ∧ length (others y a) = length y - k)
    as Hcount.
  { intros a [l Ha]%lookup_lt_is_Some.
    pose proof (length_partners y a l Ha).
    pose proof (length_others y a l Ha). rewrite (Hk a l Ha) in *. lia. }
  assert (∀ a, a < length y → others y a ≠ []) as Ho.
  { intros a Ha Hnil. destruct (Hcount a Ha) as [_ Hlen].
    rewrite Hnil in Hlen. simpl in Hlen. lia. }
  split.
  - eexists. split; [by apply batch_negative_spec|].
    rewrite triplets_columns.
    trans (length (seq 0 (length y)) * (k - 1)); [|by rewrite length_seq].
    apply length_bind_const. intros a [_ Ha]%elem_of_seq.
    destruct (Hcount a Ha) as [<- _].
    rewrite (length_bind_const _ _ 1); [lia|done].
  - intros H2. eexists. split.
    + apply batch_hard_spec; [done|]. intros a Ha. split; [|by apply Ho].
      intros Hnil. destruct (Hcount a Ha) as [Hlen _].
      rewrite Hnil in Hlen. simpl in Hlen. lia.
    + rewrite triplets_columns.
      rewrite (length_bind_const _ _ 1); [|done].
      rewrite length_seq. lia.
Qed.

Lemma batch_negative_hard_count_witness :
  (∃ s, batch_negative scenario_y scenario_distances = Ok s ∧
        length (triplets s) = length scenario_y * (2 - 1)) ∧
  (2 ≤ 2 → ∃ s, batch_hard scenario_y scenario_distances = Ok s ∧
                length (triplets s) = length scenario_y).
Proof.
  apply (batch_negative_hard_count scenario_y scenario_distances 2).
  - reflexivity.
  - exact scenario_balanced.
  - simpl. lia.
Defined.

(** ** Sampling followed by the loss *)

Lemma Qsum_nonneg (l : list Q) : Forall (λ x, 0 <= x)%Q l → (0 <= Qsum l)%Q.
Proof.
  induction 1 as [|x l Hx _ IH]; simpl; [apply Qle_refl|].
  change 0%Q with (0 + 0)%Q at 1. by apply Qplus_le_compat.
Qed.

Lemma clamp_min_nonneg x : (0 <= clamp_min 0 x)%Q.
Proof.
  unfold clamp_min. destruct (Qltb x 0) eqn:Hx; [apply Qle_refl|].
  by apply Qltb_ge.
Qed.

Lemma torch_mean_nonneg (l : list Q) x :
  Forall (λ x, 0 <= x)%Q l → torch_mean l = Some x → (0 <= x)%Q.
Proof.
  intros Hl. destruct l as [|z l]; [done|]. intros [= <-].
  apply Qle_shift_div_l;
    [|rewrite Qmult_0_l; exact (Qsum_nonneg (z :: l) Hl)].
  change 0%Q with (inject_Z 0). rewrite <-Zlt_Qlt. simpl length. lia.
Qed.

Section Composed.
Variables log1p_exp sigmoid : Q → Q.

Lemma triplet_loss_positive self distances anchors positives negatives
    losses deltas pos neg :
  clamp self = "positive"%string →
  triplet_loss log1p_exp sigmoid self distances anchors positives negatives
    = Ok (losses, deltas, pos, neg) →
  losses = (λ delta, clamp_min 0 (delta + margin_ self)) <$> deltas.
Proof.
  intros Hclamp. unfold triplet_loss.
  destruct (to_condensed _ anchors positives) as [pos'|]; [|done]. simpl.
  destruct (to_condensed _ anchors negatives) as [neg'|]; [|done]. simpl.
  destruct (tensor_gather distances pos') as [d_pos|]; [|done]. simpl.
  destruct (tensor_gather distances neg') as [d_neg|]; [|done]. simpl.
  unfold clamp_triplet_loss. rewrite Hclamp. simpl. intros [= <- <- _ _].
  by rewrite <-list_fmap_compose.
Qed.

Context {L : Type} `{EqDecision L}.
Context {Input Embeddings : Type}.
Variable forward : Batch L Input → Embeddings.
Variable pdist : Embeddings → list Q.

(** A constructed object, a valid batch and at least one sampled triplet
    give a number. *)
Lemma batch_loss_run self batch f ts :
  clamp self ∈ clamp_names →
  length (pdist (forward batch)) = condensed_length (length (batch_y batch)) →
  sampler (sampling self) = Ok f →
  f (batch_y batch) (pdist (forward batch)) = Ok (columns ts) →
  ∃ losses,
    length losses = length ts ∧
    batch_loss log1p_exp sigmoid forward pdist self batch
    = Ok (torch_mean losses).
Proof.
  intros Hclamp valid Hf Hs.
  destruct (sampler_sound _ _ _ _ _ Hf Hs) as (ts' & Heq & Hts).
  assert (ts' = ts) as ->.
  { by rewrite <-(triplets_columns ts), <-(triplets_columns ts'), Heq. }
  destruct (triplet_loss_run log1p_exp sigmoid self _ _ ts valid Hts Hclamp)
    as (losses & pos & neg & Hrun & Hlen).
  exists losses. split; [done|].
  unfold batch_loss. rewrite Hf. simpl. rewrite Hs. simpl.
  unfold columns in Hrun. simpl in Hrun. by rewrite Hrun.
Qed.

End Composed.

(** X9: whatever the sampler, the batch loss of an object with [positive]
    clamping is never negative when it is a number; each of its per-triplet
    losses is at least 0. *)
Theorem batch_loss_positive_nonnegative (log1p_exp sigmoid : Q → Q)
    {L : Type} `{EqDecision L} (Input Embeddings : Type)
    (forward : Batch L Input → Embeddings) (pdist : Embeddings → list Q)
    (self : TripletLoss) (batch : Batch L Input) (x : Q) :
  clamp self = "positive"%string →
  batch_loss log1p_exp sigmoid forward pdist self batch = Ok (Some x) →
  (0 <= x)%Q.
Proof.
  intros Hclamp. unfold batch_loss.
  destruct (sampler (sampling self)) as [f|]; [|done]. simpl.
  destruct (f _ _) as [[[anchors positives] negatives]|]; [|done]. simpl.
  destruct (triplet_loss _ _ _ _ _ _ _)
    as [[[[losses deltas] pos] neg]|] eqn:Hrun; [|done]. simpl.
  intros [= Hmean]. apply (torch_mean_nonneg losses); [|done].
  rewrite (triplet_loss_positive _ _ _ _ _ _ _ _ _ _ _ Hclamp Hrun).
  apply Forall_fmap, Forall_forall. intros delta _. apply clamp_min_nonneg.
Qed.

Lemma batch_loss_positive_nonnegative_witness :
  (0 <= 1100000000000 # 4000000000000)%Q.
Proof.
  apply (batch_loss_positive_nonnegative id id (list Q) (list Q) batch_X id
    {| metric := "cosine"; margin := 4 # 10; margin_ := 8 # 10;
       clamp := "positive"; sampling := "hard" |}
    {| batch_X := scenario_distances; batch_y := scenario_y |}).
  - reflexivity.
  - vm_compute. reflexivity.
Defined.

(** X10: on a batch with a valid distance vector, every triplet of the
    [easy] sampler has a raw loss d(anchor, positive) - d(anchor, negative)
    that is at most 0; with [positive] clamping and a margin that is not
    positive all its per-triplet losses are 0. *)
Theorem batch_easy_deltas_nonpositive (log1p_exp sigmoid : Q → Q)
    {L : Type} `{EqDecision L} (y : list L) (distances : list Q)
    (self : TripletLoss) :
  length distances = condensed_length (length y) →
  clamp self ∈ clamp_names →
  ∃ s losses deltas pos neg,
    batch_easy y distances = Ok s ∧
    triplet_loss log1p_exp sigmoid self distances s.1.1 s.1.2 s.2
      = Ok (losses, deltas, pos, neg) ∧
    Forall (λ delta, delta <= 0)%Q deltas ∧
    (clamp self = "positive"%string → (margin_ self <= 0)%Q →
     Forall (λ loss, loss == 0)%Q losses).
Proof.
  intros valid Hclamp.
  pose proof (batch_easy_spec y distances valid) as Hs.
  destruct (batch_easy_sound _ _ _ Hs) as (ts & Heq & Hts).
  assert (ts = spec_easy y (square_entry (length y) distances)) as Hspec.
  { by rewrite <-(triplets_columns ts), <-Heq, triplets_columns. }
  destruct (triplet_loss_run log1p_exp sigmoid self y distances ts
              valid Hts Hclamp) as (losses & pos & neg & Hrun & Hlen).
  rewrite <-Heq in Hrun.
  assert (Forall (λ delta, delta <= 0)%Q
    (triplet_delta (square_entry (length y) distances) <$> ts)) as Hneg.
  { apply Forall_fmap, Forall_forall. intros [[a p] n] Ht.
    rewrite Hspec in Ht. apply elem_of_spec_easy in Ht as (_ & _ & Hle).
    unfold triplet_delta. simpl. lra. }
  eexists _, losses, _, pos, neg. split_and!; [done..|].
  intros Hpos Hmargin.
  rewrite (triplet_loss_positive _ _ _ _ _ _ _ _ _ _ _ Hpos Hrun).
  apply Forall_fmap. eapply Forall_impl; [exact Hneg|].
  intros delta Hdelta. simpl in Hdelta. apply clamp_min_zero. lra.
Qed.

Lemma batch_easy_deltas_nonpositive_witness :
  let self := {| metric := "cosine"; margin := 0; margin_ := 0 * 2;
                 clamp := "positive"; sampling := "easy" |} in
  ∃ s losses deltas pos neg,
    batch_easy scenario_y scenario_distances = Ok s ∧
    triplet_loss id id self scenario_distances s.1.1 s.1.2 s.2
      = Ok (losses, deltas, pos, neg) ∧
    Forall (λ delta, delta <= 0)%Q deltas ∧
    (clamp self = "positive"%string → (margin_ self <= 0)%Q →
     Forall (λ loss, loss == 0)%Q losses).
Proof.
  apply (batch_easy_deltas_nonpositive id id scenario_y scenario_distances).
  - reflexivity.
  - apply list_elem_of_here.
Defined.

(** X11: for a constructed object whose sampling is [all], [hard] or
    [negative], a non-empty batch with a valid distance vector in which
    every item has a same-label partner and an item of another label makes
    [batch_loss] return a number: nothing raises and the mean is taken over
    at least one triplet. *)
Theorem batch_loss_returns (log1p_exp sigmoid : Q → Q)
    {L : Type} `{EqDecision L} (Input Embeddings : Type)
    (forward : Batch L Input → Embeddings) (pdist : Embeddings → list Q)
    (metric0 : string) (margin0 : Q) (clamp0 sampling0 : string)
    (self : TripletLoss) (batch : Batch L Input) :
  init metric0 margin0 clamp0 sampling0 = Ok self →
  sampling0 ≠ "easy"%string →
  length (pdist (forward batch)) = condensed_length (length (batch_y batch)) →
  batch_y batch ≠ [] →
  (∀ a, a < length (batch_y batch) →
     partners (batch_y batch) a ≠ [] ∧ others (batch_y batch) a ≠ []) →
  ∃ x, batch_loss log1p_exp sigmoid forward pdist self batch = Ok (Some x).
Proof.
  intros (D & _ & Hself & _ & Hclamp & Hsampling)%init_inv Heasy valid Hne
    Hcand.
  assert (clamp self ∈ clamp_names) as Hc by (by rewrite Hself).
  assert (sampling self = sampling0) as Hsm by (by rewrite Hself).
  clear Hself. set (y := batch_y batch) in *. set (v := pdist (forward batch)) in *.
  assert (0 < length y) as H0 by (destruct y; [done|simpl; lia]).
  destruct (Hcand 0 H0) as [Hp Ho].
  pose proof (hardest_positive_pick y v 0 Hp) as [Hhp _].
  pose proof (hardest_negative_pick y v 0 Ho) as [Hhn _].
  assert (∃ (f : list L → list Q → result samples) ts,
    sampler sampling0 = Ok f ∧ f y v = Ok (columns ts) ∧ ts ≠ [])
    as (f & ts & Hf & Hs & Hts).
  { unfold sampling_names in Hsampling. rewrite !elem_of_cons in Hsampling.
    destruct Hsampling as [->|[->|[->|[->|?%elem_of_nil]]]]; [..|done|done].
    - exists batch_all. eexists. split_and!; [done|apply batch_all_spec|].
      intros Hnil.
      assert ((0, pick np_argmax (square_entry (length y) v 0) (partners y 0),
               pick np_argmin (square_entry (length y) v 0) (others y 0))
              ∈ spec_all y) as Hin by (by apply elem_of_spec_all).
      rewrite Hnil in Hin. by apply elem_of_nil in Hin.
    - exists batch_hard. eexists.
      split_and!; [done|by apply batch_hard_spec|].
      intros Hnil. eapply (elem_of_nil (0, _, _)). rewrite <-Hnil.
      by apply elem_of_hard_triplets.
    - exists batch_negative. eexists.
      split_and!; [done|apply batch_negative_spec; [done|];
                   intros a Ha; by apply Hcand|].
      intros Hnil. eapply (elem_of_nil (0, _, _)). rewrite <-Hnil.
      by apply elem_of_negative_triplets. }
  rewrite <-Hsm in Hf.
  destruct (batch_loss_run log1p_exp sigmoid forward pdist self batch f ts
              Hc valid Hf Hs) as (losses & Hlen & ->).
  destruct losses as [|z losses]; [by destruct ts|]. by eexists.
Qed.

Lemma batch_loss_returns_witness :
  ∃ x, batch_loss id id batch_X id
         {| metric := "cosine"; margin := 4 # 10; margin_ := (4 # 10) * 2;
            clamp := "positive"; sampling := "negative" |}
         {| batch_X := scenario_distances; batch_y := scenario_y |}
       = Ok (Some x).
Proof.
  apply (batch_loss_returns id id (list Q) (list Q) batch_X id
           "cosine" (4 # 10) "positive" "negative").
  - reflexivity.
  - discriminate.
  - reflexivity.
  - discriminate.
  - exact scenario_candidates.
Defined.

(** X12: when, on a batch with a valid distance vector, every partner of
    every anchor is farther from it than every item of another label, the
    [easy] sampler returns three empty lists without raising, and the batch
    loss of an object constructed with [easy] sampling is not a number. *)
Theorem batch_easy_may_be_empty (log1p_exp sigmoid : Q → Q)
    {L : Type} `{EqDecision L} (Input Embeddings : Type)
    (forward : Batch L Input → Embeddings) (pdist : Embeddings → list Q)
    (metric0 : string) (margin0 : Q) (clamp0 : string)
    (self : TripletLoss) (batch : Batch L Input) :
  init metric0 margin0 clamp0 "easy" = Ok self →
  length (pdist (forward batch)) = condensed_length (length (batch_y batch)) →
  (∀ a p n, p ∈ partners (batch_y batch) a → n ∈ others (batch_y batch) a →
     (square_entry (length (batch_y batch)) (pdist (forward batch)) a n <
      square_entry (length (batch_y batch)) (pdist (forward batch)) a p)%Q) →
  batch_easy (batch_y batch) (pdist (forward batch)) = Ok ([], [], []) ∧
  batch_loss log1p_exp sigmoid forward pdist self batch = Ok None.
Proof.
  intros (D & _ & Hself & _ & Hclamp & _)%init_inv valid Hfar.
  assert (clamp self ∈ clamp_names) as Hc by (by rewrite Hself).
  assert (sampler (sampling self) = Ok (@batch_easy L _)) as Hf
    by (by rewrite Hself).
  clear Hself. set (y := batch_y batch) in *. set (v := pdist (forward batch)) in *.
  assert (spec_easy y (square_entry (length y) v) = []) as Hnil.
  { apply elem_of_nil_inv. intros [[a p] n] (Hp & Hn & Hle)%elem_of_spec_easy.
    specialize (Hfar a p n Hp Hn). lra. }
  assert (batch_easy y v = Ok (columns [])) as Hs
    by (rewrite <-Hnil; by apply batch_easy_spec).
  split; [exact Hs|].
  destruct (batch_loss_run log1p_exp sigmoid forward pdist self batch
              batch_easy [] Hc valid Hf Hs) as (losses & Hlen & ->).
  by destruct losses.
Qed.

Lemma batch_easy_may_be_empty_witness :
  let batch := {| batch_X := [9 # 10; 1 # 10; 1 # 10; 1 # 10; 1 # 10; 9 # 10]%Q;
                  batch_y := scenario_y |} in
  batch_easy (batch_y batch) (id (batch_X batch)) = Ok ([], [], []) ∧
  batch_loss id id batch_X id
    {| metric := "cosine"; margin := 2 # 10; margin_ := (2 # 10) * 2;
       clamp := "positive"; sampling := "easy" |} batch = Ok None.
Proof.
  apply (batch_easy_may_be_empty id id (list Q) (list Q) batch_X id
           "cosine" (2 # 10) "positive").
  - reflexivity.
  - reflexivity.
  - intros a p n Hp Hn.
    assert (a < 4) as Ha.
    { apply elem_of_partners in Hp as (_ & l & _ & Ha).
      by apply lookup_lt_Some in Ha. }
    assert (p < 4) as Hp4.
    { apply elem_of_partners in Hp as (_ & l & Hp & _).
      by apply lookup_lt_Some in Hp. }
    assert (n < 4) as Hn4.
    { apply elem_of_others in Hn as (l & Hn & _).
      by apply lookup_lt_Some in Hn. }
    apply elem_of_partners in Hp as (Hpa & l & Hpl & Hal).
    apply elem_of_others in Hn as (ln & Hnl & Hne).
    do 4 (destruct a as [|a]; [
      do 4 (destruct p as [|p]; [
        do 4 (destruct n as [|n]; [
          first [done | by simplify_eq/= | by vm_compute]|]); simpl in *; lia|]);
      simpl in *; lia|]).
    simpl in *; lia.
Defined.



(** * Properties of the labeling models *)

Lemma recurrent_loop_from rnn bidirectional make k layers mods input_dim dims :
  rnn_class rnn bidirectional = Some make →
  for_each (λ '(recurrent_layers_, modules, input_dim) '(i, hidden_dim),
    recurrent_layer ←
      (if bool_decide (rnn = "LSTM"%string) then
         Ok (LSTM input_dim hidden_dim bidirectional)
       else if bool_decide (rnn = "GRU"%string) then
         Ok (GRU input_dim hidden_dim bidirectional)
       else Raise ValueError);
    Ok (recurrent_layers_ ++ [recurrent_layer],
        modules ++ [("recurrent_" +:+ pretty i, recurrent_layer)],
        hidden_dim))
    (layers, mods, input_dim) (imap (λ i x, (k + i, x)) dims) =
  Ok (layers ++ chain_layers make input_dim dims,
      mods ++ imap (λ i l, ("recurrent_" +:+ pretty (k + i), l))
                (chain_layers make input_dim dims),
      last_dim input_dim dims).
Proof.
  intros Hmake. revert k layers mods input_dim.
  induction dims as [|h dims IH]; intros k layers mods input_dim.
  { simpl. by rewrite !app_nil_r. }
  assert ((if bool_decide (rnn = "LSTM"%string) then
             Ok (LSTM input_dim h bidirectional)
           else if bool_decide (rnn = "GRU"%string) then
             Ok (GRU input_dim h bidirectional)
           else Raise ValueError) = Ok (make input_dim h)) as Hlayer.
  { unfold rnn_class in Hmake. repeat case_bool_decide; by simplify_eq. }
  cbn [imap for_each chain_layers]. rewrite Hlayer. simpl.
  rewrite (imap_ext _ (λ i x, (S k + i, x))) by (intros; simpl; f_equal; lia).
  rewrite IH, Nat.add_0_r, <-!app_assoc. simpl. do 5 f_equal.
  apply imap_ext. intros; simpl. do 3 f_equal. lia.
Qed.

Lemma recurrent_loop_Ok rnn bidirectional make input_dim dims :
  rnn_class rnn bidirectional = Some make →
  recurrent_loop rnn bidirectional dims input_dim =
  Ok (chain_layers make input_dim dims,
      imap (λ i l, ("recurrent_" +:+ pretty i, l))
        (chain_layers make input_dim dims),
      last_dim input_dim dims).
Proof.
  intros Hmake. unfold recurrent_loop, enumerate.
  rewrite (imap_ext _ (λ i x, (0 + i, x))) by done.
  by rewrite (recurrent_loop_from _ _ make).
Qed.

Lemma recurrent_loop_nil rnn bidirectional input_dim :
  recurrent_loop rnn bidirectional [] input_dim = Ok ([], [], input_dim).
Proof. done. Qed.

Lemma recurrent_loop_raise rnn bidirectional input_dim dims :
  rnn_class rnn bidirectional = None → dims ≠ [] →
  recurrent_loop rnn bidirectional dims input_dim = Raise ValueError.
Proof.
  intros Hnone Hne. destruct dims as [|h dims]; [done|].
  unfold recurrent_loop. cbn [enumerate imap for_each].
  unfold rnn_class in Hnone. by repeat case_bool_decide.
Qed.

Lemma linear_loop_from k layers mods input_dim dims :
  foldl (λ '(linear_layers_, modules, input_dim) '(i, hidden_dim),
    let linear_layer := Linear input_dim hidden_dim in
    (linear_layers_ ++ [linear_layer],
     modules ++ [("linear_" +:+ pretty i, linear_layer)],
     hidden_dim))
    (layers, mods, input_dim) (imap (λ i x, (k + i, x)) dims) =
  (layers ++ chain_layers Linear input_dim dims,
   mods ++ imap (λ i l, ("linear_" +:+ pretty (k + i), l))
             (chain_layers Linear input_dim dims),
   last_dim input_dim dims).
Proof.
  revert k layers mods input_dim.
  induction dims as [|h dims IH]; intros k layers mods input_dim.
  { simpl. by rewrite !app_nil_r. }
  cbn [imap foldl chain_layers].
  rewrite (imap_ext _ (λ i x, (S k + i, x))) by (intros; simpl; f_equal; lia).
  rewrite IH, Nat.add_0_r, <-!app_assoc. simpl. do 4 f_equal.
  apply imap_ext. intros; simpl. do 3 f_equal. lia.
Qed.

Lemma linear_loop_spec mods input_dim dims :
  linear_loop dims mods input_dim =
  (chain_layers Linear input_dim dims,
   mods ++ imap (λ i l, ("linear_" +:+ pretty i, l))
             (chain_layers Linear input_dim dims),
   last_dim input_dim dims).
Proof.
  unfold linear_loop, enumerate.
  rewrite (imap_ext _ (λ i x, (0 + i, x))) by done.
  by rewrite linear_loop_from.
Qed.

Lemma rnn_class_names rnn bidirectional :
  is_Some (rnn_class rnn bidirectional) ↔ rnn ∈ ["LSTM"; "GRU"]%string.
Proof.
  unfold rnn_class. rewrite !elem_of_cons.
  repeat case_bool_decide; split; intros Hx; eauto.
  - by destruct Hx.
  - destruct Hx as [?|[?|?%elem_of_nil]]; done.
Qed.

Lemma chain_layers_length make input_dim dims :
  length (chain_layers make input_dim dims) = length dims.
Proof.
  revert input_dim. induction dims as [|h dims IH]; intros i; [done|].
  simpl. by rewrite IH.
Qed.

Lemma chain_layers_io make input_dim dims :
  (∀ i h, layer_io (make i h) = Some (i, h)) →
  layer_io <$> chain_layers make input_dim dims =
  Some <$> zip (input_dim :: dims) dims.
Proof.
  intros Hmake. revert input_dim.
  induction dims as [|h dims IH]; intros i; [done|].
  cbn [chain_layers]. rewrite fmap_cons, Hmake, IH. done.
Qed.

Lemma chain_layers_Forall (P : layer → Prop) make input_dim dims :
  (∀ i h, P (make i h)) → Forall P (chain_layers make input_dim dims).
Proof.
  intros Hmake. revert input_dim.
  induction dims as [|h dims IH]; intros i; simpl; by constructor.
Qed.

Lemma zip_chain_app (i : Z) (a b : list Z) :
  zip (i :: a ++ b) (a ++ b) = zip (i :: a) a ++ zip (last_dim i a :: b) b.
Proof.
  revert i. induction a as [|h a IH]; intros i; [done|].
  cbn [app zip_with]. f_equal. apply IH.
Qed.

Lemma zip_chain_snoc (i c : Z) (a : list Z) :
  zip (i :: a) (a ++ [c]) = zip (i :: a) a ++ [(last_dim i a, c)].
Proof.
  revert i. induction a as [|h a IH]; intros i; [done|].
  cbn [app zip_with]. f_equal. apply IH.
Qed.

Lemma last_dim_app (i : Z) (a b : list Z) :
  last_dim i (a ++ b) = last_dim (last_dim i a) b.
Proof. unfold last_dim. by rewrite foldl_app. Qed.

Lemma rnn_class_io rnn bidirectional make :
  rnn_class rnn bidirectional = Some make →
  (∀ i h, layer_io (make i h) = Some (i, h)) ∧
  (∀ i h, is_rnn rnn bidirectional (make i h)).
Proof.
  unfold rnn_class. repeat case_bool_decide; intros [= <-]; done.
Qed.

(** What [StackedRNN.__init__] returns, in closed form. *)
Lemma stacked_rnn_init_inv T n_features n_classes task_type
    instance_normalize rnn recurrent bidirectional linear self :
  StackedRNN.init T n_features n_classes task_type instance_normalize rnn
    recurrent bidirectional linear = Ok self →
  task_type ∈ task_types T ∧
  ∃ make,
    (recurrent = [] ∨ rnn_class rnn bidirectional = Some make) ∧
    (∀ i h, layer_io (make i h) = Some (i, h)) ∧
    Forall (is_rnn rnn bidirectional) (chain_layers make n_features recurrent) ∧
    self = {|
      StackedRNN.n_features := n_features;
      StackedRNN.n_classes := n_classes;
      StackedRNN.task_type := task_type;
      StackedRNN.instance_normalize := instance_normalize;
      StackedRNN.rnn := rnn; StackedRNN.recurrent := recurrent;
      StackedRNN.bidirectional := bidirectional;
      StackedRNN.linear := linear;
      StackedRNN.num_directions_ := if bidirectional then 2%Z else 1%Z;
      StackedRNN.recurrent_layers_ := chain_layers make n_features recurrent;
      StackedRNN.linear_layers_ :=
        chain_layers Linear (last_dim n_features recurrent) linear;
      StackedRNN.final_layer_ :=
        Linear (last_dim (last_dim n_features recurrent) linear) n_classes;
      StackedRNN.added_modules :=
        imap (λ i l, ("recurrent_" +:+ pretty i, l))
          (chain_layers make n_features recurrent) ++
        imap (λ i l, ("linear_" +:+ pretty i, l))
          (chain_layers Linear (last_dim n_features recurrent) linear) |}.
Proof.
  intros H. unfold StackedRNN.init in H.
  case_bool_decide as Htask; [|done]. simpl in H. split; [done|].
  destruct (rnn_class rnn bidirectional) as [make|] eqn:Hclass.
  - exists make. destruct (rnn_class_io _ _ _ Hclass) as [Hio Hkind].
    rewrite (recurrent_loop_Ok _ _ make) in H by done. simpl in H.
    rewrite linear_loop_spec in H. injection H as <-.
    split_and!; eauto using chain_layers_Forall.
  - destruct recurrent as [|h recurrent].
    + exists (λ i h, LSTM i h bidirectional). simpl in H.
      rewrite linear_loop_spec in H. injection H as <-.
      split_and!; eauto.
    + by rewrite recurrent_loop_raise in H.
Qed.

Lemma string_app_inj (s a b : string) : s +:+ a = s +:+ b → a = b.
Proof. induction s as [|c s IH]; simpl; [done|]. intros [= ?]. by apply IH. Qed.

Lemma NoDup_module_names (n m : nat) :
  NoDup (((λ i, "recurrent_" +:+ pretty i) <$> seq 0 n) ++
         ((λ i, "linear_" +:+ pretty i) <$> seq 0 m)).
Proof.
  apply NoDup_app. split_and!.
  - apply NoDup_fmap_2; [|apply NoDup_seq].
    intros i j Hij%string_app_inj. by apply (inj pretty).
  - intros name (i & -> & _)%list_elem_of_fmap (j & Hj & _)%list_elem_of_fmap.
    discriminate.
  - apply NoDup_fmap_2; [|apply NoDup_seq].
    intros i j Hij%string_app_inj. by apply (inj pretty).
Qed.

Lemma imap_names_layers (name : nat → string) (ls : list layer) :
  (imap (λ i l, (name i, l)) ls).*1 = name <$> seq 0 (length ls) ∧
  (imap (λ i l, (name i, l)) ls).*2 = ls.
Proof.
  split.
  - rewrite fmap_imap. rewrite <-(imap_seq_0 ls name). by apply imap_ext.
  - revert name. induction ls as [|l ls IH]; intros name; [done|].
    cbn [imap]. rewrite fmap_cons. simpl. f_equal. apply (IH (name ∘ S)).
Qed.

(** X14: [StackedRNN.__init__] raises [ValueError] when the task type is
    none of the three task constants, and when [recurrent] is not empty and
    [rnn] is neither LSTM nor GRU: both checks are reached before any layer
    is created. An object that is constructed therefore has one of the
    three task types and, unless [recurrent] is empty, an [rnn] among LSTM
    and GRU. *)
Theorem stacked_rnn_init_rejects (T : task_constants)
    (n_features n_classes task_type : Z) (instance_normalize : bool)
    (rnn : string) (recurrent : list Z) (bidirectional : bool)
    (linear : list Z) :
  (task_type ∉ task_types T →
   StackedRNN.init T n_features n_classes task_type instance_normalize rnn
     recurrent bidirectional linear = Raise ValueError) ∧
  (recurrent ≠ [] → rnn ∉ ["LSTM"; "GRU"]%string →
   StackedRNN.init T n_features n_classes task_type instance_normalize rnn
     recurrent bidirectional linear = Raise ValueError) ∧
  (∀ self,
     StackedRNN.init T n_features n_classes task_type instance_normalize rnn
       recurrent bidirectional linear = Ok self →
     task_type ∈ task_types T ∧
     (recurrent = [] ∨ rnn ∈ ["LSTM"; "GRU"]%string)).
Proof.
  pose proof (rnn_class_names rnn bidirectional) as Hnames.
  assert (recurrent ≠ [] → rnn ∉ ["LSTM"; "GRU"]%string →
          StackedRNN.init T n_features n_classes task_type
            instance_normalize rnn recurrent bidirectional linear
          = Raise ValueError) as Hrnn.
  { intros Hne Hrnn. unfold StackedRNN.init.
    case_bool_decide as Htask; [|done]. simpl.
    rewrite recurrent_loop_raise; [done| |done].
    destruct (rnn_class rnn bidirectional) eqn:Hclass; [|done].
    destruct Hrnn. apply Hnames. eauto. }
  split_and!.
  - intros Htask. unfold StackedRNN.init. by case_bool_decide.
  - done.
  - intros self Hinit. split.
    + unfold StackedRNN.init in Hinit. by case_bool_decide.
    + destruct recurrent as [|h recurrent]; [by left|right].
      destruct (decide (rnn ∈ ["LSTM"; "GRU"]%string)) as [|Hnot]; [done|].
      by rewrite Hrnn in Hinit.
Qed.

(** X15: in a constructed [StackedRNN] there is one recurrent layer per
    entry of [recurrent], of the class named by [rnn] and with the given
    direction flag, and one linear layer per entry of [linear]; the layers
    chain: the first takes [n_features] inputs, every next layer takes as
    many inputs as the hidden dimension of the layer before it, and the
    final layer outputs [n_classes]. *)
Theorem stacked_rnn_layers_chain (T : task_constants)
    (n_features n_classes task_type : Z) (instance_normalize : bool)
    (rnn : string) (recurrent : list Z) (bidirectional : bool)
    (linear : list Z) (self : StackedRNN.t) :
  StackedRNN.init T n_features n_classes task_type instance_normalize rnn
    recurrent bidirectional linear = Ok self →
  length (StackedRNN.recurrent_layers_ self) = length recurrent ∧
  length (StackedRNN.linear_layers_ self) = length linear ∧
  Forall (is_rnn rnn bidirectional) (StackedRNN.recurrent_layers_ self) ∧
  Forall (λ l, ∃ i o, l = Linear i o) (StackedRNN.linear_layers_ self) ∧
  layer_io <$> (StackedRNN.recurrent_layers_ self ++
                StackedRNN.linear_layers_ self ++
                [StackedRNN.final_layer_ self]) =
  Some <$> zip (n_features :: recurrent ++ linear)
               (recurrent ++ linear ++ [n_classes]).
Proof.
  intros (_ & make & _ & Hio & Hkind & ->)%stacked_rnn_init_inv.
  cbn [StackedRNN.recurrent_layers_ StackedRNN.linear_layers_
       StackedRNN.final_layer_].
  rewrite !chain_layers_length. split_and!; [done..| |].
  - apply chain_layers_Forall. eauto.
  - rewrite (app_assoc recurrent linear [n_classes]).
    rewrite zip_chain_snoc, zip_chain_app, last_dim_app.
    rewrite !fmap_app, !chain_layers_io by done.
    by rewrite <-app_assoc.
Qed.

Lemma stacked_rnn_layers_chain_witness :
  let self := {|
    StackedRNN.n_features := 35; StackedRNN.n_classes := 2;
    StackedRNN.task_type := 0; StackedRNN.instance_normalize := false;
    StackedRNN.rnn := "LSTM"; StackedRNN.recurrent := [16; 8]%Z;
    StackedRNN.bidirectional := true; StackedRNN.linear := [16]%Z;
    StackedRNN.num_directions_ := 2;
    StackedRNN.recurrent_layers_ := [LSTM 35 16 true; LSTM 16 8 true];
    StackedRNN.linear_layers_ := [Linear 8 16];
    StackedRNN.final_layer_ := Linear 16 2;
    StackedRNN.added_modules :=
      [("recurrent_0", LSTM 35 16 true); ("recurrent_1", LSTM 16 8 true);
       ("linear_0", Linear 8 16)]%string |} in
  length (StackedRNN.recurrent_layers_ self) = length [16; 8]%Z ∧
  length (StackedRNN.linear_layers_ self) = length [16]%Z ∧
  Forall (is_rnn "LSTM" true) (StackedRNN.recurrent_layers_ self) ∧
  Forall (λ l, ∃ i o, l = Linear i o) (StackedRNN.linear_layers_ self) ∧
  layer_io <$> (StackedRNN.recurrent_layers_ self ++
                StackedRNN.linear_layers_ self ++
                [StackedRNN.final_layer_ self]) =
  Some <$> zip (35 :: [16; 8] ++ [16])%Z ([16; 8] ++ [16] ++ [2])%Z.
Proof.
  apply (stacked_rnn_layers_chain sample_tasks 35 2 0 false "LSTM"
           [16; 8]%Z true [16]%Z).
  vm_compute. reflexivity.
Defined.

(** X16: the layers a constructed [StackedRNN] registers with [add_module]
    are its recurrent layers under the names recurrent_0, recurrent_1, ...
    followed by its linear layers under linear_0, linear_1, ...; the names
    are pairwise distinct, so no registration replaces an earlier one. *)
Theorem stacked_rnn_module_names (T : task_constants)
    (n_features n_classes task_type : Z) (instance_normalize : bool)
    (rnn : string) (recurrent : list Z) (bidirectional : bool)
    (linear : list Z) (self : StackedRNN.t) :
  StackedRNN.init T n_features n_classes task_type instance_normalize rnn
    recurrent bidirectional linear = Ok self →
  (StackedRNN.added_modules self).*1 =
    ((λ i, "recurrent_" +:+ pretty i) <$> seq 0 (length recurrent)) ++
    ((λ i, "linear_" +:+ pretty i) <$> seq 0 (length linear)) ∧
  (StackedRNN.added_modules self).*2 =
    StackedRNN.recurrent_layers_ self ++ StackedRNN.linear_layers_ self ∧
  NoDup (StackedRNN.added_modules self).*1.
Proof.
  intros (_ & make & _ & _ & _ & ->)%stacked_rnn_init_inv. simpl.
  rewrite !fmap_app.
  destruct (imap_names_layers (λ i, "recurrent_" +:+ pretty i)
              (chain_layers make n_features recurrent)) as [-> ->].
  destruct (imap_names_layers (λ i, "linear_" +:+ pretty i)
              (chain_layers Linear (last_dim n_features recurrent) linear))
    as [-> ->].
  rewrite !chain_layers_length. split_and!; [done..|].
  apply NoDup_module_names.
Qed.

Lemma stacked_rnn_module_names_witness :
  let modules := [("recurrent_0", LSTM 35 16 true);
                  ("recurrent_1", LSTM 16 8 true);
                  ("linear_0", Linear 8 16)]%string in
  modules.*1 =
    ((λ i, "recurrent_" +:+ pretty i) <$> seq 0 (length [16; 8]%Z)) ++
    ((λ i, "linear_" +:+ pretty i) <$> seq 0 (length [16]%Z)) ∧
  modules.*2 = [LSTM 35 16 true; LSTM 16 8 true] ++ [Linear 8 16] ∧
  NoDup modules.*1.
Proof.
  apply (stacked_rnn_module_names sample_tasks 35 2 0 false "LSTM"
           [16; 8]%Z true [16]%Z
           {| StackedRNN.n_features := 35; StackedRNN.n_classes := 2;
              StackedRNN.task_type := 0;
              StackedRNN.instance_normalize := false;
              StackedRNN.rnn := "LSTM"; StackedRNN.recurrent := [16; 8]%Z;
              StackedRNN.bidirectional := true; StackedRNN.linear := [16]%Z;
              StackedRNN.num_directions_ := 2;
              StackedRNN.recurrent_layers_ :=
                [LSTM 35 16 true; LSTM 16 8 true];
              StackedRNN.linear_layers_ := [Linear 8 16];
              StackedRNN.final_layer_ := Linear 16 2;
              StackedRNN.added_modules :=
                [("recurrent_0", LSTM 35 16 true);
                 ("recurrent_1", LSTM 16 8 true);
                 ("linear_0", Linear 8 16)]%string |}).
  vm_compute. reflexivity.
Defined.

(** X17: [get_loss] returns no loss function exactly for a task type that
    is none of the three task constants; a constructed [StackedRNN] or
    [ConvRNN] always gets one. *)
Theorem get_loss_total (T : task_constants) :
  (∀ self, StackedRNN.get_loss T self = None ↔
           StackedRNN.task_type self ∉ task_types T) ∧
  (∀ self, ConvRNN.get_loss T self = None ↔
           ConvRNN.task_type self ∉ task_types T) ∧
  (∀ n_features n_classes task_type instance_normalize rnn recurrent
     bidirectional linear self,
     StackedRNN.init T n_features n_classes task_type instance_normalize rnn
       recurrent bidirectional linear = Ok self →
     is_Some (StackedRNN.get_loss T self)) ∧
  (∀ n_features n_classes task_type instance_normalize convolutionnal rnn
     recurrent bidirectional linear kernel_size self,
     ConvRNN.init T n_features n_classes task_type instance_normalize
       convolutionnal rnn recurrent bidirectional linear kernel_size
     = Ok self →
     is_Some (ConvRNN.get_loss T self)).
Proof.
  assert (∀ task_type, choose_loss T task_type = None ↔
                       task_type ∉ task_types T) as Hnone.
  { intros task_type. unfold choose_loss, task_types.
    rewrite !elem_of_cons. repeat case_bool_decide; split; try done.
    - intros Hn. destruct Hn; auto.
    - intros Hn. destruct Hn; auto.
    - intros Hn. destruct Hn; auto.
    - intros _ [?|[?|[?|?%elem_of_nil]]]; done. }
  split_and!.
  - intros self. apply Hnone.
  - intros self. apply Hnone.
  - intros n_features n_classes task_type instance_normalize rnn recurrent
      bidirectional linear self (Htask & make & _ & _ & _ & ->)%stacked_rnn_init_inv.
    unfold StackedRNN.get_loss. simpl.
    destruct (choose_loss T task_type) eqn:Hc; [by eexists|].
    by apply Hnone in Hc.
  - intros n_features n_classes task_type instance_normalize convolutionnal
      rnn recurrent bidirectional linear kernel_size self.
    unfold ConvRNN.init. case_bool_decide as Htask; [|done]. simpl.
    destruct (recurrent_loop _ _ _ _) as [[[ls ms] i]|]; [|done]. simpl.
    destruct (linear_loop _ _ _) as [[ls' ms'] i']. intros [= <-].
    unfold ConvRNN.get_loss. simpl.
    destruct (choose_loss T task_type) eqn:Hc; [by eexists|].
    by apply Hnone in Hc.
Qed.

Lemma get_loss_total_witness :
  is_Some (StackedRNN.get_loss sample_tasks
    {| StackedRNN.n_features := 35; StackedRNN.n_classes := 2;
       StackedRNN.task_type := 2; StackedRNN.instance_normalize := false;
       StackedRNN.rnn := "GRU"; StackedRNN.recurrent := [];
       StackedRNN.bidirectional := false; StackedRNN.linear := [];
       StackedRNN.num_directions_ := 1;
       StackedRNN.recurrent_layers_ := [];
       StackedRNN.linear_layers_ := [];
       StackedRNN.final_layer_ := Linear 35 2;
       StackedRNN.added_modules := [] |}).
Proof.
  apply (proj1 (proj2 (proj2 (get_loss_total sample_tasks)))
           35%Z 2%Z 2%Z false "GRU"%string [] false []).
  vm_compute. reflexivity.
Defined.

(** X18: when [ConvRNN.__init__] returns, [StackedRNN.__init__] returns on
    the same arguments and the two objects have the same recurrent, linear
    and final layers under the same module names: the convolutional front
    end leaves the input dimension of the first recurrent layer at
    [n_features]. The front end is a convolution with [n_features] output
    channels and a pooling of width n_features - kernel_size + 1. As for
    [StackedRNN], the task type of a constructed object is one of the three
    task constants. *)
Theorem conv_rnn_same_stack (T : task_constants)
    (n_features n_classes task_type : Z) (instance_normalize : bool)
    (convolutionnal : list Z) (rnn : string) (recurrent : list Z)
    (bidirectional : bool) (linear : list Z) (kernel_size : Z)
    (c : ConvRNN.t) :
  ConvRNN.init T n_features n_classes task_type instance_normalize
    convolutionnal rnn recurrent bidirectional linear kernel_size = Ok c →
  ∃ s,
    StackedRNN.init T n_features n_classes task_type instance_normalize
      rnn recurrent bidirectional linear = Ok s ∧
    ConvRNN.recurrent_layers_ c = StackedRNN.recurrent_layers_ s ∧
    ConvRNN.linear_layers_ c = StackedRNN.linear_layers_ s ∧
    ConvRNN.final_layer_ c = StackedRNN.final_layer_ s ∧
    ConvRNN.added_modules c = StackedRNN.added_modules s ∧
    ConvRNN.num_directions_ c = StackedRNN.num_directions_ s ∧
    ConvRNN.convolutionnal_layer_ c = Conv2d 1 n_features (kernel_size, 1%Z) ∧
    ConvRNN.maxpool_ c = MaxPool2d (1%Z, (n_features - kernel_size + 1)%Z) ∧
    task_type ∈ task_types T.
Proof.
  unfold StackedRNN.init, ConvRNN.init.
  case_bool_decide as Htask; [|done]. simpl.
  destruct (recurrent_loop _ _ _ _) as [[[ls ms] i]|]; [|done]. simpl.
  destruct (linear_loop _ _ _) as [[ls' ms'] i']. intros [= <-].
  eexists. split; [reflexivity|]. by simpl.
Qed.

Lemma conv_rnn_same_stack_witness :
  let c := {|
    ConvRNN.n_features := 35; ConvRNN.n_classes := 2;
    ConvRNN.task_type := 0; ConvRNN.instance_normalize := false;
    ConvRNN.convolutionnal := [16]%Z; ConvRNN.rnn := "GRU";
    ConvRNN.recurrent := [16; 8]%Z; ConvRNN.bidirectional := false;
    ConvRNN.linear := [16]%Z; ConvRNN.kernel_size := 32;
    ConvRNN.num_directions_ := 1;
    ConvRNN.convolutionnal_layer_ := Conv2d 1 35 (32, 1)%Z;
    ConvRNN.batch_norm_ := BatchNorm2d 35; ConvRNN.relu_ := ReLU;
    ConvRNN.maxpool_ := MaxPool2d (1, 4)%Z;
    ConvRNN.recurrent_layers_ := [GRU 35 16 false; GRU 16 8 false];
    ConvRNN.linear_layers_ := [Linear 8 16];
    ConvRNN.final_layer_ := Linear 16 2;
    ConvRNN.added_modules :=
      [("recurrent_0", GRU 35 16 false); ("recurrent_1", GRU 16 8 false);
       ("linear_0", Linear 8 16)]%string |} in
  ∃ s,
    StackedRNN.init sample_tasks 35 2 0 false "GRU" [16; 8]%Z false [16]%Z
      = Ok s ∧
    ConvRNN.recurrent_layers_ c = StackedRNN.recurrent_layers_ s ∧
    ConvRNN.linear_layers_ c = StackedRNN.linear_layers_ s ∧
    ConvRNN.final_layer_ c = StackedRNN.final_layer_ s ∧
    ConvRNN.added_modules c = StackedRNN.added_modules s ∧
    ConvRNN.num_directions_ c = StackedRNN.num_directions_ s ∧
    ConvRNN.convolutionnal_layer_ c = Conv2d 1 35 (32, 1)%Z ∧
    ConvRNN.maxpool_ c = MaxPool2d (1, 35 - 32 + 1)%Z ∧
    (0 : Z) ∈ task_types sample_tasks.
Proof.
  apply (conv_rnn_same_stack sample_tasks 35 2 0 false [16]%Z "GRU"
           [16; 8]%Z false [16]%Z 32).
  vm_compute. reflexivity.
Defined.

(** * Further error and ordering properties of the samplers *)

Lemma for_each_raises_some {S X} (body : S → X → result S) xs :
  (∃ x, x ∈ xs ∧ ∀ s, ∃ e, body s x = Raise e) →
  ∀ s, ∃ e, for_each body s xs = Raise e.
Proof.
  induction xs as [|x xs IH]; intros (x0 & Hx0 & Hraise) s.
  - by apply elem_of_nil in Hx0.
  - simpl. destruct (body s x) as [s'|e] eqn:Hs; [|by exists e]. simpl.
    apply elem_of_cons in Hx0 as [->|Hx0].
    + destruct (Hraise s) as [e He]. by rewrite He in Hs.
    + apply IH. by exists x0.
Qed.

Lemma item_square_out m v i : m ≤ i → item (square m v) i = Raise IndexError.
Proof.
  intros Hi. unfold item, square.
  by rewrite list_lookup_fmap, lookup_seq_ge.
Qed.

(** X19: a distance vector that is the valid condensed vector of fewer
    items than there are labels is never used silently by the [hard] and
    the [negative] sampler: both raise. *)
Theorem short_distances_raise {L : Type} `{EqDecision L} (y : list L)
    (distances : list Q) (d : nat) :
  1 ≤ d → d < length y → length distances = condensed_length d →
  (∃ e, batch_hard y distances = Raise e) ∧
  (∃ e, batch_negative y distances = Raise e).
Proof.
  intros Hd Hlt Hlen.
  destruct (lookup_lt_is_Some_2 y d Hlt) as [l Hl].
  unfold batch_hard, batch_negative.
  rewrite (squareform_valid d distances Hd Hlen). simpl.
  split; apply for_each_raises_some; exists (d, l);
    (split; [by apply elem_of_enumerate|]); intros s; simpl;
    rewrite item_square_out by done; by eexists.
Qed.

Lemma short_distances_raise_witness :
  (∃ e, batch_hard scenario_y [1 # 2; 1 # 3; 1 # 4]%Q = Raise e) ∧
  (∃ e, batch_negative scenario_y [1 # 2; 1 # 3; 1 # 4]%Q = Raise e).
Proof.
  apply (short_distances_raise scenario_y [1 # 2; 1 # 3; 1 # 4]%Q 3).
  - lia.
  - simpl. lia.
  - reflexivity.
Defined.

(** X20: on a batch with a valid distance vector on which the [negative]
    sampler returns, the triplet it returns for an anchor and a positive
    has the largest raw loss d(anchor, positive) - d(anchor, negative)
    among all the triplets with that anchor and that positive. *)
Theorem batch_negative_maximises_delta {L : Type} `{EqDecision L}
    (y : list L) (distances : list Q) (s : samples) (a p n : nat) :
  length distances = condensed_length (length y) →
  batch_negative y distances = Ok s →
  (a, p, n) ∈ spec_all y →
  ∃ n', (a, p, n') ∈ triplets s ∧
    (triplet_delta (square_entry (length y) distances) (a, p, n) <=
     triplet_delta (square_entry (length y) distances) (a, p, n'))%Q.
Proof.
  intros valid Hs [Hp Hn]%elem_of_spec_all.
  assert (∀ a, a < length y → others y a ≠ []) as Hcand.
  { destruct (all_or_degenerate (λ a, others y a ≠ []) (length y))
      as [Hall|(a' & Ha' & Hna)]; [done|].
    rewrite (batch_negative_degenerate y distances valid) in Hs; [done|].
    exists a'. split; [done|].
    destruct (decide (others y a' = [])); [done|by destruct Hna]. }
  rewrite (batch_negative_spec y distances valid Hcand) in Hs.
  injection Hs as <-. rewrite triplets_columns.
  assert (a < length y) as Ha.
  { apply elem_of_partners in Hp as (_ & l & _ & Ha).
    by eapply lookup_lt_Some. }
  destruct (hardest_negative_pick y distances a (Hcand a Ha))
    as (_ & Hmin & _).
  eexists. split; [by apply elem_of_negative_triplets|].
  unfold triplet_delta. simpl. specialize (Hmin n Hn). lra.
Qed.

Lemma batch_negative_maximises_delta_witness :
  ∃ n', (0, 1, n') ∈ triplets ([0; 1; 2; 3], [1; 0; 3; 2], [3; 3; 1; 1]) ∧
    (triplet_delta (square_entry (length scenario_y) scenario_distances)
       (0, 1, 2)%nat <=
     triplet_delta (square_entry (length scenario_y) scenario_distances)
       (0, 1, n')%nat)%Q.
Proof.
  apply (batch_negative_maximises_delta scenario_y scenario_distances).
  - reflexivity.
  - vm_compute. reflexivity.
  - vm_compute. apply list_elem_of_here.
Defined.
